(** * The release timeline: windowed rendering, pagination and scroll anchoring

    A shallow embedding of [src/App.tsx] (the [App] component) and of the
    [loadPrev]/[loadNext] callbacks of its list-library variant, with the
    properties the specification states about them, followed by further
    properties of the same code: the window and its spacers, the first
    load, the order in which pages are loaded, the jump to today, the anchor
    of a language switch, the platform filter and the scroll handlers.

    Conventions.
    - Pixel quantities ([scrollTop], heights, offsets) are JavaScript numbers;
      they are modelled as rationals [Q], with [==] as numeric equality.
    - Array indices and lengths are [nat]; where the source produces [-1]
      the value is a [Z].
    - A [Map] whose iteration order is observable is an association list in
      insertion order; the index-keyed height cache is a [gmap nat Q].
    - React state is the state of the last commit. A setter called by an
      event handler, a frame callback or after an [await] is taken to be
      rendered together with the call. The setters that [loadAdjacentYear]
      calls before its [await] are called from an effect: React queues them
      and applies them in a later render, and a render forced with
      [flushSync] in between does not include them. They are kept in a
      queue, and the render that applies them is an event of its own. *)

From Stdlib Require Import ZArith QArith Qminmax Qabs Lia Lqa String Ascii.
From stdpp Require Import gmap strings list sorting.
From Equations Require Import Equations.

Local Open Scope string_scope.
Local Open Scope list_scope.

(** ** Calendar dates

    [new Date(s).getTime()] for the date-only form [YYYY-MM-DD]: milliseconds
    since the epoch at UTC midnight, [None] standing for [NaN].  The general
    development below is parametric in the parser; this one is used to run the
    definitions on concrete keys. *)
Module IsoDate.

Definition digitValue (c : ascii) : option Z :=
  let n := Z.of_N (N_of_ascii c) in
  if ((48 <=? n) && (n <=? 57))%Z then Some (n - 48)%Z else None.

Fixpoint digitsValue (cs : list ascii) (acc : Z) : option Z :=
  match cs with
  | [] => Some acc
  | c :: rest =>
      match digitValue c with
      | Some d => digitsValue rest (10 * acc + d)%Z
      | None => None
      end
  end.

Definition isLeapYear (y : Z) : bool :=
  (((y mod 4 =? 0) && negb (y mod 100 =? 0)) || (y mod 400 =? 0))%Z.

Definition daysInMonth (y m : Z) : Z :=
  if (m =? 2)%Z then (if isLeapYear y then 29 else 28)%Z
  else if ((m =? 4) || (m =? 6) || (m =? 9) || (m =? 11))%Z then 30%Z
  else 31%Z.

(** Days between 1970-01-01 and the given civil date. *)
Definition daysFromCivil (y m d : Z) : Z :=
  let y' := (if m <=? 2 then y - 1 else y)%Z in
  let era := (y' / 400)%Z in
  let yoe := (y' - era * 400)%Z in
  let mp := (if m <=? 2 then m + 9 else m - 3)%Z in
  let doy := ((153 * mp + 2) / 5 + d - 1)%Z in
  let doe := (yoe * 365 + yoe / 4 - yoe / 100 + doy)%Z in
  (era * 146097 + doe - 719468)%Z.

Definition msPerDay : Z := 86400000.

Definition getTime (s : string) : option Z :=
  match list_ascii_of_string s with
  | [y1; y2; y3; y4; sep1; m1; m2; sep2; d1; d2] =>
      if (Ascii.eqb sep1 "-" && Ascii.eqb sep2 "-")%bool then
        match digitsValue [y1; y2; y3; y4] 0, digitsValue [m1; m2] 0,
              digitsValue [d1; d2] 0 with
        | Some y, Some m, Some d =>
            if ((1 <=? m) && (m <=? 12) && (1 <=? d) && (d <=? daysInMonth y m))%Z
            then Some (daysFromCivil y m d * msPerDay)%Z
            else None
        | _, _, _ => None
        end
      else None
  | _ => None
  end.

End IsoDate.

(** ** The item sequence and its merge *)
Module Timeline.

Record Game := {
  title : string;
  genre : list string;
  style : string;
  studio : string;
  platforms : list string;
}.

Record ReleaseGroup := {
  date : string;
  displayDate : string;
  games : list Game;
}.

(** [Map<string, ReleaseGroup>]: entries in insertion order; [set] on a key
    that is present replaces the value and keeps the position. *)
Definition GroupMap := list (string * ReleaseGroup).

Fixpoint mapGet (key : string) (m : GroupMap) : option ReleaseGroup :=
  match m with
  | [] => None
  | (k, v) :: rest => if String.eqb k key then Some v else mapGet key rest
  end.

Fixpoint mapSet (key : string) (value : ReleaseGroup) (m : GroupMap) : GroupMap :=
  match m with
  | [] => [(key, value)]
  | (k, v) :: rest =>
      if String.eqb k key then (k, value) :: rest
      else (k, v) :: mapSet key value rest
  end.

Definition mapValues (m : GroupMap) : list ReleaseGroup := m.*2.

(** [entry.displayDate || entry.date]: the empty string is falsy. *)
Definition displayDateOr (entry : ReleaseGroup) : string :=
  if String.eqb (displayDate entry) "" then date entry else displayDate entry.

(** First loop of [mergeTimeline]: a copy of every existing entry. *)
Definition setPrev (grouped : GroupMap) (entry : ReleaseGroup) : GroupMap :=
  mapSet (date entry)
    {| date := date entry; displayDate := displayDate entry; games := games entry |}
    grouped.

(** Second loop: the games of an incoming entry are pushed onto the entry
    stored under its date, which is created empty when there is none. *)
Definition pushEntry (grouped : GroupMap) (entry : ReleaseGroup) : GroupMap :=
  let current :=
    default {| date := date entry; displayDate := displayDateOr entry; games := [] |}
            (mapGet (date entry) grouped) in
  mapSet (date entry)
    {| date := date current; displayDate := displayDate current;
       games := games current ++ games entry |}
    grouped.

Section Merge.

(** [new Date(s).getTime()], [None] for [NaN]. *)
Variable getTime : string -> option Z.

(** The comparator [(a, b) => getTime(a.date) - getTime(b.date)]. *)
Definition compareDates (a b : ReleaseGroup) : option Z :=
  match getTime (date a), getTime (date b) with
  | Some x, Some y => Some (x - y)%Z
  | _, _ => None
  end.

(** [a] must come after [b]: the comparator is positive ([NaN] counts as 0). *)
Definition comesAfter (a b : ReleaseGroup) : bool :=
  match compareDates a b with
  | Some v => (0 <? v)%Z
  | None => false
  end.

(** [Array.prototype.sort] with this comparator. The sort is stable, and
    when every date of the array has a time the comparator is a consistent
    ordering: the array returned is then the one a stable insertion sort
    returns. A date without a time makes the comparator answer [NaN]; it is
    then no consistent ordering and the language leaves the order of the
    result to the implementation. Of such an array this definition gives the
    items, not their order: what is stated below about the order of a sorted
    array is stated for dates that all have a time. *)
Fixpoint insertSorted (x : ReleaseGroup) (sorted : list ReleaseGroup) : list ReleaseGroup :=
  match sorted with
  | [] => [x]
  | y :: rest => if comesAfter x y then y :: insertSorted x rest else x :: sorted
  end.

Definition sortByDate (l : list ReleaseGroup) : list ReleaseGroup :=
  foldr insertSorted [] l.

Definition mergeTimeline (prev entries : list ReleaseGroup) : list ReleaseGroup :=
  let grouped := foldl pushEntry (foldl setPrev [] prev) entries in
  sortByDate (mapValues grouped).

(** The sequence is in the order the sort produces: no item has to come
    after its successor. *)
Definition inOrder (l : list ReleaseGroup) : Prop :=
  Sorted (λ a b, comesAfter a b = false) l.

(** Every item of [page] is strictly older than every item of [l]. *)
Definition olderPage (page l : list ReleaseGroup) : Prop :=
  Forall (λ e, Forall (λ p, comesAfter p e = true) l) page.

(** Every date of [l] has a time: [getTime] is not [NaN] on it. *)
Definition readable (l : list ReleaseGroup) : Prop :=
  Forall (λ e, is_Some (getTime (date e))) l.

(** The times of the items of [l], in the order of the sequence. *)
Definition times (l : list ReleaseGroup) : list Z :=
  omap (λ e, getTime (date e)) l.

(** Every date of [l] has a time and the times do not decrease along [l]. *)
Definition ascending (l : list ReleaseGroup) : Prop :=
  readable l ∧ StronglySorted Z.le (times l).

End Merge.

(** The merge of [loadNext] in the list-library variant of the component:
    incoming groups whose date is already in [timelineRef.current] are
    filtered out, the rest is appended. *)
Definition newItemsOf (timelineRefCurrent entries : list ReleaseGroup) : list ReleaseGroup :=
  let prevDates : gset string := list_to_set (date <$> timelineRefCurrent) in
  filter (λ group, date group ∉ prevDates) entries.

Definition loadNextMerge (timelineRefCurrent prevData entries : list ReleaseGroup)
  : list ReleaseGroup :=
  match newItemsOf timelineRefCurrent entries with
  | [] => prevData
  | newItems => prevData ++ newItems
  end.

(** Every value is stored under its own date. *)
Definition keyed (m : GroupMap) : Prop := Forall (λ kv, date kv.2 = kv.1) m.

(** What the second loop leaves under a key that the map already holds: the
    stored entry with the games of every incoming entry of that date pushed
    onto it, in order. *)
Definition withPushed (key : string) (entries : list ReleaseGroup)
    (current : ReleaseGroup) : ReleaseGroup :=
  {| date := date current; displayDate := displayDate current;
     games := games current
              ++ concat (games <$> filter (λ e, date e = key) entries) |}.

(** The entry the second loop creates for a date that is new. *)
Definition created (entry : ReleaseGroup) : ReleaseGroup :=
  {| date := date entry; displayDate := displayDateOr entry; games := games entry |}.

(** Number of items of a sequence that carry a given key. *)
Definition keyCount (key : string) (l : list ReleaseGroup) : nat :=
  length (filter (λ group, date group = key) l).

End Timeline.

(** ** Measured heights, the offset table and the visible window *)
Module Layout.

Local Open Scope Q_scope.

Definition ESTIMATED_ITEM_HEIGHT : Q := 260.
Definition ITEM_GAP : Q := 32.
Definition OVERSCAN_PX : Q := 1200.
Definition SCROLL_THRESHOLD : Q := 120.
Definition SCROLL_SNAP_ATTEMPTS : Z := 3.

(** [heightsRef.current]: measured height by item index. *)
Definition getItemHeight (heights : gmap nat Q) (index : nat) : Q :=
  default ESTIMATED_ITEM_HEIGHT (heights !! index).

(** The ref callback of [measureItem(index)] on a node of the given height:
    the new cache, and whether a measure-version bump was requested. *)
Definition measureItem (index : nat) (height : Q) (heights : gmap nat Q)
  : gmap nat Q * bool :=
  let differs :=
    match heights !! index with
    | Some prev => negb (Qeq_bool prev height)
    | None => true
    end in
  if (negb (Qle_bool height 0) && differs)%bool
  then (<[index := height]> heights, true)
  else (heights, false).

(** The re-keying loop of [loadAdjacentYear] for a prepended page:
    [heightsRef.current.forEach((height, index) =>
       newHeights.set(index + entries.length, height))]. *)
Definition shiftHeights (added : nat) (heights : gmap nat Q) : gmap nat Q :=
  map_fold (λ index height (newHeights : gmap nat Q),
              <[(index + added)%nat := height]> newHeights) ∅ heights.

Definition estimateAddedHeight (count : Z) : Q :=
  if (count <=? 0)%Z then 0
  else inject_Z count * (ESTIMATED_ITEM_HEIGHT + ITEM_GAP).

(** The body of the loop filling [offsets]: entries [i + 1 ..] of the array,
    [current] being [result[i]] and [todo] the iterations left. *)
Fixpoint offsetsFrom (heights : gmap nat Q) (count i todo : nat) (current : Q)
  : list Q :=
  match todo with
  | O => []
  | S todo' =>
      let gap := if (i =? count - 1)%nat then 0 else ITEM_GAP in
      let next := current + getItemHeight heights i + gap in
      next :: offsetsFrom heights count (S i) todo' next
  end.

Definition offsets (count : nat) (heights : gmap nat Q) : list Q :=
  0 :: offsetsFrom heights count 0 count 0.

(** [offsets[offsets.length - 1] ?? 0] *)
Definition totalHeight (offs : list Q) : Q := default 0 (last offs).

Definition midpoint (low high : nat) : nat := ((low + high) / 2)%nat.

Lemma midpoint_bounds low high :
  (low < high)%nat → (low ≤ midpoint low high < high)%nat.
Proof.
  intros Hlt. unfold midpoint. split.
  - apply Nat.div_le_lower_bound; lia.
  - apply Nat.Div0.div_lt_upper_bound; lia.
Qed.

(** [offsets[mid] <= offset]; a comparison with [undefined] is false. *)
Definition offsetLe (offs : list Q) (mid : nat) (offset : Q) : bool :=
  match offs !! mid with
  | Some v => Qle_bool v offset
  | None => false
  end.

(** The [while (low < high)] loop of [findIndexForOffset]; its value is the
    final [low]. *)
Equations? searchLoop (offs : list Q) (offset : Q) (low high : nat) : nat
  by wf (high - low)%nat lt :=
  searchLoop offs offset low high with lt_dec low high => {
    | left _ with offsetLe offs (midpoint low high) offset => {
        | true := searchLoop offs offset (midpoint low high + 1)%nat high;
        | false := searchLoop offs offset low (midpoint low high) };
    | right _ := low }.
Proof.
  all: pose proof (midpoint_bounds low high l); lia.
Qed.

(** [Math.max(0, low - 1)]: on [nat] the subtraction already stops at 0. *)
Definition findIndexForOffset (offs : list Q) (offset : Q) : nat :=
  Nat.max 0 (searchLoop offs offset 0 (length offs - 1) - 1).

(** The specification states the index of an offset in its own words:
    [indexForOffset(x)] is the greatest [i] with [offsets[i] <= x], clamped
    to [[0, count - 1]]. The two definitions below follow those words, to be
    compared with [findIndexForOffset], which is the code: a scan of the
    whole table that keeps the last index whose offset is not above [x]
    ([best] so far, [i] being the index of the head of [offs]), and the
    clamp; when no offset is at or below [x] the clamp gives 0. *)
Fixpoint greatestAtMost (offs : list Q) (x : Q) (i : nat) (best : option nat)
  : option nat :=
  match offs with
  | [] => best
  | v :: rest =>
      greatestAtMost rest x (S i) (if Qle_bool v x then Some i else best)
  end.

Definition specIndexForOffset (count : nat) (offs : list Q) (x : Q) : nat :=
  Nat.min (default 0%nat (greatestAtMost offs x 0 None)) (count - 1).

Record VisibleRange := {
  range_start : Z;
  range_end : Z;
}.

Definition visibleRange (timelineLength : nat) (offs : list Q)
    (scrollTop viewportHeight : Q) : VisibleRange :=
  if (timelineLength =? 0)%nat then {| range_start := 0; range_end := -1 |}
  else
    let startOffset := Qmax 0 (scrollTop - OVERSCAN_PX) in
    let endOffset := scrollTop + viewportHeight + OVERSCAN_PX in
    let start := findIndexForOffset offs startOffset in
    let end_ := Z.min (Z.of_nat timelineLength - 1)
                      (Z.of_nat (findIndexForOffset offs endOffset)) in
    {| range_start := Z.of_nat start; range_end := end_ |}.

(** The scrollable element, as far as the component reads and writes it. *)
Record ScrollEl := {
  clientHeight : Q;
  el_scrollTop : Q;
}.

Record ScrollTarget := {
  clamped : Q;
  target_scrollEl : ScrollEl;
}.

(** The unclamped offset that centres item [index] in the viewport. *)
Definition centeredOffset (offs : list Q) (heights : gmap nat Q)
    (el : ScrollEl) (index : nat) : Q :=
  let targetTop := default 0 (offs !! index) in
  let targetHeight := getItemHeight heights index in
  targetTop - clientHeight el / 2 + targetHeight / 2.

Definition getScrollTarget (scrollRef : option ScrollEl) (offs : list Q)
    (heights : gmap nat Q) (index : nat) : option ScrollTarget :=
  match scrollRef with
  | None => None
  | Some scrollEl =>
      let offset := centeredOffset offs heights scrollEl index in
      let maxScrollTop := Qmax 0 (totalHeight offs - clientHeight scrollEl) in
      Some {| clamped := Qmin (Qmax offset 0) maxScrollTop;
              target_scrollEl := scrollEl |}
  end.

(** [r] is [x] clamped to the interval [[lo, hi]]. *)
Definition isClampOf (lo hi x r : Q) : Prop :=
  (lo <= r ∧ r <= hi)
  ∧ (x < lo → r == lo)
  ∧ (hi < x → r == hi)
  ∧ (lo <= x ∧ x <= hi → r == x).

(** Measured heights are positive: [measureItem] stores nothing else. *)
Definition positiveHeights (heights : gmap nat Q) : Prop :=
  map_Forall (λ _ h, 0 < h) heights.

End Layout.

(** ** Jump convergence: the pending-snap effect *)
Module Jump.
Import Layout.

Local Open Scope Q_scope.

(** [pendingSnapRef.current] *)
Record PendingSnap := {
  snap_index : nat;
  remaining : Z;
  lastMeasureVersion : Z;
}.

(** What one run of the effect reads from the render it belongs to. *)
Record SnapView := {
  view_timelineLength : nat;
  view_offsets : list Q;
  view_heights : gmap nat Q;
  view_scrollRef : option ScrollEl;
  view_scrollTop : Q;
  view_measureVersion : Z;
}.

(** What one run leaves behind: the ref, and the offset it forced onto the
    scroll element, if it did. *)
Record SnapResult := {
  pendingSnapRef : option PendingSnap;
  snappedTo : option Q;
}.

(** [runSecondStep] registers the request after the first jump. *)
Definition registerSnap (targetIndex : nat) (measureVersion : Z) : PendingSnap :=
  {| snap_index := targetIndex;
     remaining := SCROLL_SNAP_ATTEMPTS;
     lastMeasureVersion := measureVersion |}.

Definition discarded : SnapResult :=
  {| pendingSnapRef := None; snappedTo := None |}.

Definition pendingSnapEffect (view : SnapView) (pendingRef : option PendingSnap)
  : SnapResult :=
  match pendingRef with
  | None => {| pendingSnapRef := None; snappedTo := None |}
  | Some pending =>
      if (view_timelineLength view =? 0)%nat then discarded
      else
        match getScrollTarget (view_scrollRef view) (view_offsets view)
                (view_heights view) (snap_index pending) with
        | None => discarded
        | Some target =>
            let delta := Qabs (view_scrollTop view - clamped target) in
            if Qle_bool delta 2 then discarded
            else if (remaining pending <=? 0)%Z then discarded
            else if (view_measureVersion view =? lastMeasureVersion pending)%Z
            then {| pendingSnapRef := Some pending; snappedTo := None |}
            else
              {| pendingSnapRef :=
                   Some {| snap_index := snap_index pending;
                           remaining := (remaining pending - 1)%Z;
                           lastMeasureVersion := view_measureVersion view |};
                 snappedTo := Some (clamped target) |}
        end
  end.

(** Successive runs of the effect, one per render described by [views]:
    the final ref and the offsets forced on the way, oldest first. *)
Fixpoint runSnapEffect (views : list SnapView) (pendingRef : option PendingSnap)
  : option PendingSnap * list Q :=
  match views with
  | [] => (pendingRef, [])
  | view :: rest =>
      let r := pendingSnapEffect view pendingRef in
      let '(final, snaps) := runSnapEffect rest (pendingSnapRef r) in
      (final, match snappedTo r with Some o => o :: snaps | None => snaps end)
  end.

(** An epoch change, as the request sees it. *)
Definition epochChanged (view : SnapView) (pending : PendingSnap) : Prop :=
  view_measureVersion view ≠ lastMeasureVersion pending.

(** The recomputed target is within the 2px tolerance of the scroll offset. *)
Definition withinTolerance (view : SnapView) (target : ScrollTarget) : Prop :=
  Qabs (view_scrollTop view - clamped target) <= 2.

End Jump.

(** ** Pagination: [loadAdjacentYear], the edge-load effects and the scroll
    handlers, as a transition system *)
Module Pagination.
Import Timeline Layout.

Local Open Scope Q_scope.

Inductive Direction := Prev | Next.
Inductive ScrollDirection := Up | Down.

#[export] Instance Direction_eq_dec : EqDecision Direction.
Proof. solve_decision. Defined.

#[export] Instance ScrollDirection_eq_dec : EqDecision ScrollDirection.
Proof. solve_decision. Defined.

(** How [await fetchYear(year)] ends: with the entries of the page, or with
    a thrown value whose message is known when it is an [Error]. *)
Inductive FetchResult :=
| FetchOk (entries : list ReleaseGroup)
| FetchFailed (message : option string).

(** State of the page list and of the loads. *)
Record Paging := {
  timeline : list ReleaseGroup;
  error : option string;
  availableYears : list Z;
  loadedYears : list Z;
  loadingPrev : bool;
  loadingNext : bool;
  canAutoLoad : bool;
  isTransitioning : bool;
}.

(** The height cache and what is derived from it. [offsets] is the memoised
    array of the last render. *)
Record Metrics := {
  heightsRef : gmap nat Q;
  pendingMeasureVersionRef : bool;
  measureVersion : Z;
  offsets : list Q;
  pendingScrollShiftRef : Q;
}.

(** The scroll element, the scroll state of the last render and the refs of
    the scroll handlers. *)
Record Scrolling := {
  scrollEl : ScrollEl;
  scrollTop : Q;
  viewportHeight : Q;
  scrollDirectionRef : option ScrollDirection;
  lastScrollTopRef : Q;
  pendingScrollTopRef : option Q;
  scrollRafRef : bool;
}.

(** The state and refs of [App] that pagination reads or writes. *)
Record State := {
  paging : Paging;
  metrics : Metrics;
  scrolling : Scrolling;
}.

(** A state update that [loadAdjacentYear] requests before its [await]:
    [setLoadingPrev], [setLoadingNext] or [setIsTransitioning]. *)
Inductive Update :=
| SetLoading (d : Direction) (b : bool)
| SetIsTransitioning (b : bool).

(** The component together with the page fetches that were started and have
    not settled yet, and the updates that an effect has requested and no
    render has applied yet, oldest first. [st] holds the state of the last
    render: it is what the effects and their guards read. *)
Record Sys := {
  st : State;
  inFlight : list (Z * Direction);
  queued : list Update;
}.

(** A settled fetch leaves the set of pending ones. *)
Fixpoint removeFetch (f : Z * Direction) (fs : list (Z * Direction))
  : list (Z * Direction) :=
  match fs with
  | [] => []
  | g :: rest => if bool_decide (g = f) then rest else g :: removeFetch f rest
  end.

Definition loading (d : Direction) (p : Paging) : bool :=
  match d with Prev => loadingPrev p | Next => loadingNext p end.

Definition setLoading (d : Direction) (b : bool) (p : Paging) : Paging :=
  {| timeline := timeline p; error := error p;
     availableYears := availableYears p; loadedYears := loadedYears p;
     loadingPrev := match d with Prev => b | Next => loadingPrev p end;
     loadingNext := match d with Prev => loadingNext p | Next => b end;
     canAutoLoad := canAutoLoad p; isTransitioning := isTransitioning p |}.

Definition setIsTransitioning (b : bool) (p : Paging) : Paging :=
  {| timeline := timeline p; error := error p;
     availableYears := availableYears p; loadedYears := loadedYears p;
     loadingPrev := loadingPrev p; loadingNext := loadingNext p;
     canAutoLoad := canAutoLoad p; isTransitioning := b |}.

Definition setError (e : option string) (p : Paging) : Paging :=
  {| timeline := timeline p; error := e;
     availableYears := availableYears p; loadedYears := loadedYears p;
     loadingPrev := loadingPrev p; loadingNext := loadingNext p;
     canAutoLoad := canAutoLoad p; isTransitioning := isTransitioning p |}.

Definition setCanAutoLoad (b : bool) (p : Paging) : Paging :=
  {| timeline := timeline p; error := error p;
     availableYears := availableYears p; loadedYears := loadedYears p;
     loadingPrev := loadingPrev p; loadingNext := loadingNext p;
     canAutoLoad := b; isTransitioning := isTransitioning p |}.

Definition setTimelineAndYears (t : list ReleaseGroup) (years : list Z)
    (p : Paging) : Paging :=
  {| timeline := t; error := error p;
     availableYears := availableYears p; loadedYears := years;
     loadingPrev := loadingPrev p; loadingNext := loadingNext p;
     canAutoLoad := canAutoLoad p; isTransitioning := isTransitioning p |}.

Definition withPaging (p : Paging) (s : State) : State :=
  {| paging := p; metrics := metrics s; scrolling := scrolling s |}.

Definition withMetrics (m : Metrics) (s : State) : State :=
  {| paging := paging s; metrics := m; scrolling := scrolling s |}.

Definition withScrolling (sc : Scrolling) (s : State) : State :=
  {| paging := paging s; metrics := metrics s; scrolling := sc |}.

(** [minLoadedYear], [maxLoadedYear], [prevYear], [nextYear] *)
Definition minLoadedYear (p : Paging) : option Z :=
  match loadedYears p with
  | [] => None
  | y :: rest => Some (foldl Z.min y rest)
  end.

Definition maxLoadedYear (p : Paging) : option Z :=
  match loadedYears p with
  | [] => None
  | y :: rest => Some (foldl Z.max y rest)
  end.

Definition prevYear (p : Paging) : option Z :=
  match minLoadedYear p with
  | None => None
  | Some least => List.find (λ y, (y <? least)%Z) (reverse (availableYears p))
  end.

Definition nextYear (p : Paging) : option Z :=
  match maxLoadedYear p with
  | None => None
  | Some greatest => List.find (λ y, (greatest <? y)%Z) (availableYears p)
  end.

Definition adjacentYear (d : Direction) (p : Paging) : option Z :=
  match d with Prev => prevYear p | Next => nextYear p end.

(** [!year] for a [number | null]: [null] and [0] are falsy. *)
Definition noYear (year : option Z) : bool :=
  match year with
  | None => true
  | Some y => (y =? 0)%Z
  end.

(** First [if] of an edge-load effect, negated: the effect goes on. *)
Definition edgeGuard (d : Direction) (s : State) : bool :=
  negb (length (timeline (paging s)) =? 0)%nat
  && negb (noYear (adjacentYear d (paging s)))
  && negb (loading d (paging s))
  && canAutoLoad (paging s).

(** Second [if]: the scroll position is within the threshold of the edge and
    the last observed scroll direction points to it. *)
Definition edgeReached (d : Direction) (s : State) : bool :=
  let sc := scrolling s in
  match d with
  | Prev =>
      Qle_bool (scrollTop sc) SCROLL_THRESHOLD
      && bool_decide (scrollDirectionRef sc = Some Up)
  | Next =>
      Qle_bool (totalHeight (offsets (metrics s)) - SCROLL_THRESHOLD)
               (scrollTop sc + viewportHeight sc)
      && bool_decide (scrollDirectionRef sc = Some Down)
  end.

Definition applyUpdate (p : Paging) (u : Update) : Paging :=
  match u with
  | SetLoading d b => setLoading d b p
  | SetIsTransitioning b => setIsTransitioning b p
  end.

(** A render that includes the queued updates applies them oldest first. *)
Definition applyQueued (queue : list Update) (s : State) : State :=
  withPaging (foldl applyUpdate (paging s) queue) s.

(** The render React has scheduled for the queued updates. *)
Definition render (sys : Sys) : Sys :=
  {| st := applyQueued (queued sys) (st sys);
     inFlight := inFlight sys;
     queued := [] |}.

(** The setters [loadAdjacentYear] calls before its [await]. *)
Definition requestedFlags (d : Direction) : list Update :=
  match d with
  | Prev => [SetLoading Prev true; SetIsTransitioning true]
  | Next => [SetLoading Next true]
  end.

(** [loadAdjacentYear] up to its [await]: [loadedYears] is the array of the
    render the callback belongs to; the flags are requested, which changes
    nothing in that render, then the fetch is started. *)
Definition loadAdjacentYear_start (year : Z) (d : Direction) (sys : Sys) : Sys :=
  let p := paging (st sys) in
  if bool_decide (year ∈ loadedYears p) then sys
  else
    {| st := st sys;
       inFlight := (inFlight sys ++ [(year, d)])%list;
       queued := (queued sys ++ requestedFlags d)%list |}.

(** One run of the edge-load effect of a direction: its conditions are read
    from the render it belongs to. *)
Definition edgeLoadEffect (d : Direction) (sys : Sys) : Sys :=
  if edgeGuard d (st sys) && edgeReached d (st sys) then
    match adjacentYear d (paging (st sys)) with
    | Some year => loadAdjacentYear_start year d sys
    | None => sys
    end
  else sys.

(** The dependency list of the edge-load effect of a direction differs
    between two renders, so React runs the effect again. [loadAdjacentYear]
    is a new function exactly when [loadedYears] is a new array. *)
Definition edgeEffectDepsChanged (d : Direction) (old new : State) : bool :=
  negb (bool_decide (canAutoLoad (paging old) = canAutoLoad (paging new)))
  || negb (bool_decide (loadedYears (paging old) = loadedYears (paging new)))
  || negb (bool_decide (loading d (paging old) = loading d (paging new)))
  || negb (bool_decide (adjacentYear d (paging old) = adjacentYear d (paging new)))
  || negb (Qeq_bool (scrollTop (scrolling old)) (scrollTop (scrolling new)))
  || negb (length (timeline (paging old)) =? length (timeline (paging new)))%nat
  || match d with
     | Prev => false
     | Next =>
         negb (Qeq_bool (totalHeight (offsets (metrics old)))
                        (totalHeight (offsets (metrics new))))
         || negb (Qeq_bool (viewportHeight (scrolling old))
                           (viewportHeight (scrolling new)))
     end.

Definition recomputeOffsets (count : nat) (m : Metrics) (version : Z) : Metrics :=
  {| heightsRef := heightsRef m;
     pendingMeasureVersionRef := pendingMeasureVersionRef m;
     measureVersion := version;
     offsets := Layout.offsets count (heightsRef m);
     pendingScrollShiftRef := pendingScrollShiftRef m |}.

Section Machine.

(** [new Date(s).getTime()], [None] for [NaN]. *)
Variable getTime : string → option Z.

(** The [try] block of [loadAdjacentYear] after a successful fetch, with the
    [finally] block. *)
Definition settleOk (year : Z) (d : Direction) (entries : list ReleaseGroup)
    (s : State) : State :=
  let p := paging s in
  let m := metrics s in
  let added := length entries in
  let m1 :=
    match d, added with
    | Prev, S _ =>
        {| heightsRef := shiftHeights added (heightsRef m);
           pendingMeasureVersionRef := pendingMeasureVersionRef m;
           measureVersion := measureVersion m;
           offsets := offsets m;
           pendingScrollShiftRef :=
             pendingScrollShiftRef m + estimateAddedHeight (Z.of_nat added) |}
    | _, _ => m
    end in
  let timeline' := mergeTimeline getTime (timeline p) entries in
  let years' :=
    if bool_decide (year ∈ loadedYears p) then loadedYears p
    else (loadedYears p ++ [year])%list in
  let p' := setLoading d false (setError None (setTimelineAndYears timeline' years' p)) in
  {| paging := p';
     metrics := recomputeOffsets (length timeline') m1 (measureVersion m + 1)%Z;
     scrolling := scrolling s |}.

(** The [catch] block, with the [finally] block. *)
Definition settleFailed (d : Direction) (message : option string) (s : State)
  : State :=
  let shown := default "Failed to load timeline."%string message in
  withPaging
    (setLoading d false (setIsTransitioning false (setError (Some shown) (paging s))))
    s.

(** The fetch of [year] in direction [d] settles; nothing happens when no
    such fetch is in flight. The setters called after the [await] come after
    the queued ones and are rendered with them. *)
Definition settle (year : Z) (d : Direction) (result : FetchResult) (sys : Sys)
  : Sys :=
  if bool_decide ((year, d) ∈ inFlight sys) then
    let s := applyQueued (queued sys) (st sys) in
    {| st := match result with
             | FetchOk entries => settleOk year d entries s
             | FetchFailed message => settleFailed d message s
             end;
       inFlight := removeFetch (year, d) (inFlight sys);
       queued := [] |}
  else sys.

(** *** The handlers of the scroll element and the frame callbacks *)

(** [markUserInteraction], as far as pagination goes: automatic loading is
    enabled. (It also drops the pending snap and disables the entrance
    animations, which are not part of this state.) *)
Definition markUserInteraction (s : State) : State :=
  withPaging (setCanAutoLoad true (paging s)) s.

Definition setScrollDirection (dir : ScrollDirection) (sc : Scrolling) : Scrolling :=
  {| scrollEl := scrollEl sc; scrollTop := scrollTop sc;
     viewportHeight := viewportHeight sc;
     scrollDirectionRef := Some dir;
     lastScrollTopRef := lastScrollTopRef sc;
     pendingScrollTopRef := pendingScrollTopRef sc;
     scrollRafRef := scrollRafRef sc |}.

Definition handleWheel (deltaY : Q) (s : State) : State :=
  let s1 := markUserInteraction s in
  if negb (Qle_bool deltaY 0) then
    withScrolling (setScrollDirection Down (scrolling s1)) s1
  else if negb (Qle_bool 0 deltaY) then
    withScrolling (setScrollDirection Up (scrolling s1)) s1
  else s1.

(** The element has scrolled to [nextScrollTop] and dispatches [scroll]. *)
Definition handleScroll (nextScrollTop : Q) (s : State) : State :=
  let sc := scrolling s in
  let moved := negb (Qeq_bool nextScrollTop (lastScrollTopRef sc)) in
  withScrolling
    {| scrollEl := {| clientHeight := clientHeight (scrollEl sc);
                      el_scrollTop := nextScrollTop |};
       scrollTop := scrollTop sc;
       viewportHeight := viewportHeight sc;
       scrollDirectionRef :=
         if moved then
           Some (if negb (Qle_bool nextScrollTop (lastScrollTopRef sc))
                 then Down else Up)
         else scrollDirectionRef sc;
       lastScrollTopRef :=
         if moved then nextScrollTop else lastScrollTopRef sc;
       pendingScrollTopRef := Some nextScrollTop;
       scrollRafRef := true |}
    s.

(** The animation-frame callback scheduled by [handleScroll]. *)
Definition scrollFrame (s : State) : State :=
  let sc := scrolling s in
  if scrollRafRef sc then
    withScrolling
      {| scrollEl := scrollEl sc;
         scrollTop := default (scrollTop sc) (pendingScrollTopRef sc);
         viewportHeight := viewportHeight sc;
         scrollDirectionRef := scrollDirectionRef sc;
         lastScrollTopRef := lastScrollTopRef sc;
         pendingScrollTopRef := pendingScrollTopRef sc;
         scrollRafRef := false |}
      s
  else s.

(** [updateViewport] after the element was resized to [height]. *)
Definition updateViewport (height : Q) (s : State) : State :=
  let sc := scrolling s in
  withScrolling
    {| scrollEl := {| clientHeight := height;
                      el_scrollTop := el_scrollTop (scrollEl sc) |};
       scrollTop := scrollTop sc;
       viewportHeight := height;
       scrollDirectionRef := scrollDirectionRef sc;
       lastScrollTopRef := lastScrollTopRef sc;
       pendingScrollTopRef := pendingScrollTopRef sc;
       scrollRafRef := scrollRafRef sc |}
    s.

(** The ref callback [measureItem(index)] on a node of height [height]. *)
Definition measure (index : nat) (height : Q) (s : State) : State :=
  let m := metrics s in
  let '(heights', changed) := measureItem index height (heightsRef m) in
  withMetrics
    {| heightsRef := heights';
       pendingMeasureVersionRef := pendingMeasureVersionRef m || changed;
       measureVersion := measureVersion m;
       offsets := offsets m;
       pendingScrollShiftRef := pendingScrollShiftRef m |}
    s.

(** The animation-frame callback scheduled by [measureItem]. *)
Definition measureFrame (s : State) : State :=
  let m := metrics s in
  if pendingMeasureVersionRef m then
    withMetrics
      (recomputeOffsets (length (timeline (paging s)))
         {| heightsRef := heightsRef m;
            pendingMeasureVersionRef := false;
            measureVersion := measureVersion m;
            offsets := offsets m;
            pendingScrollShiftRef := pendingScrollShiftRef m |}
         (measureVersion m + 1)%Z)
      s
  else s.

Definition resetMeasurements (s : State) : State :=
  let m := metrics s in
  withMetrics
    (recomputeOffsets (length (timeline (paging s)))
       {| heightsRef := ∅;
          pendingMeasureVersionRef := pendingMeasureVersionRef m;
          measureVersion := measureVersion m;
          offsets := offsets m;
          pendingScrollShiftRef := pendingScrollShiftRef m |}
       (measureVersion m + 1)%Z)
    s.

(** The layout effect that applies [pendingScrollShiftRef]; the transition
    overlay is cleared two animation frames later. *)
Definition applyPendingScrollShift (s : State) : State :=
  let m := metrics s in
  let sc := scrolling s in
  if Qeq_bool (pendingScrollShiftRef m) 0 then s
  else
    let shift := pendingScrollShiftRef m in
    let nextScrollTop := el_scrollTop (scrollEl sc) + shift in
    let maxScrollTop :=
      Qmax 0 (totalHeight (offsets m) - clientHeight (scrollEl sc)) in
    let clamped := Qmin (Qmax nextScrollTop 0) maxScrollTop in
    {| paging := setIsTransitioning false (paging s);
       metrics :=
         {| heightsRef := heightsRef m;
            pendingMeasureVersionRef := pendingMeasureVersionRef m;
            measureVersion := measureVersion m;
            offsets := offsets m;
            pendingScrollShiftRef := 0 |};
       scrolling :=
         {| scrollEl := {| clientHeight := clientHeight (scrollEl sc);
                           el_scrollTop := clamped |};
            scrollTop := clamped;
            viewportHeight := viewportHeight sc;
            scrollDirectionRef := scrollDirectionRef sc;
            lastScrollTopRef := lastScrollTopRef sc;
            pendingScrollTopRef := pendingScrollTopRef sc;
            scrollRafRef := scrollRafRef sc |} |}.

(** What a run of the pending-snap effect reads from the render. *)
Definition snapView (s : State) : Jump.SnapView :=
  {| Jump.view_timelineLength := length (timeline (paging s));
     Jump.view_offsets := offsets (metrics s);
     Jump.view_heights := heightsRef (metrics s);
     Jump.view_scrollRef := Some (scrollEl (scrolling s));
     Jump.view_scrollTop := scrollTop (scrolling s);
     Jump.view_measureVersion := measureVersion (metrics s) |}.

(** One run of the pending-snap effect, [pendingSnapRef.current] being
    [pending] (the ref is not part of this state). When the effect forces
    the scroll offset it writes [scrollEl.scrollTop] and calls
    [flushSync(() => setScrollTop(...))]: the new [scrollTop] is rendered at
    once, in a render of its own. *)
Definition pendingSnapFlush (pending : option Jump.PendingSnap) (s : State) : State :=
  match Jump.snappedTo (Jump.pendingSnapEffect (snapView s) pending) with
  | Some offset =>
      let sc := scrolling s in
      withScrolling
        {| scrollEl := {| clientHeight := clientHeight (scrollEl sc);
                          el_scrollTop := offset |};
           scrollTop := offset;
           viewportHeight := viewportHeight sc;
           scrollDirectionRef := scrollDirectionRef sc;
           lastScrollTopRef := lastScrollTopRef sc;
           pendingScrollTopRef := pendingScrollTopRef sc;
           scrollRafRef := scrollRafRef sc |}
        s
  | None => s
  end.

(** *** The transition system

    [EvRender] is the render that applies the queued updates; it can come
    at any point of a run after the effect that queued them. A fetch that
    settles is rendered with them. [EvPendingSnapEffect] and [EvScrollShift]
    are renders forced from an effect: they leave the queued updates out.
    The other events leave them to [EvRender] too, so that a run may show
    them later than React would; what is proved of every run below is
    proved of these runs as well. *)

Inductive Event :=
| EvWheel (deltaY : Q)
| EvTouchOrPointerDown
| EvScroll (nextScrollTop : Q)
| EvScrollFrame
| EvResize (height : Q)
| EvMeasure (index : nat) (height : Q)
| EvMeasureFrame
| EvResetMeasurements
| EvScrollShift
| EvEdgeEffect (d : Direction)
| EvSettle (year : Z) (d : Direction) (result : FetchResult)
| EvRender
| EvPendingSnapEffect (pending : option Jump.PendingSnap).

Definition onState (f : State → State) (sys : Sys) : Sys :=
  {| st := f (st sys); inFlight := inFlight sys; queued := queued sys |}.

Definition step (ev : Event) (sys : Sys) : Sys :=
  match ev with
  | EvWheel deltaY => onState (handleWheel deltaY) sys
  | EvTouchOrPointerDown => onState markUserInteraction sys
  | EvScroll nextScrollTop => onState (handleScroll nextScrollTop) sys
  | EvScrollFrame => onState scrollFrame sys
  | EvResize height => onState (updateViewport height) sys
  | EvMeasure index height => onState (measure index height) sys
  | EvMeasureFrame => onState measureFrame sys
  | EvResetMeasurements => onState resetMeasurements sys
  | EvScrollShift => onState applyPendingScrollShift sys
  | EvEdgeEffect d => edgeLoadEffect d sys
  | EvSettle year d result => settle year d result sys
  | EvRender => render sys
  | EvPendingSnapEffect pending => onState (pendingSnapFlush pending) sys
  end.

Definition run (events : list Event) (sys : Sys) : Sys :=
  foldl (λ acc ev, step ev acc) sys events.

End Machine.

(** Number of fetches of a direction among pending ones. *)
Definition fetchCount (d : Direction) (fs : list (Z * Direction)) : nat :=
  length (filter (λ f, f.2 = d) fs).

(** Number of fetches of a direction that are in flight. *)
Definition inFlightCount (d : Direction) (sys : Sys) : nat :=
  fetchCount d (inFlight sys).

(** No load is in progress: flags down, nothing in flight. *)
Definition idle (sys : Sys) : Prop :=
  inFlight sys = [] ∧ loadingPrev (paging (st sys)) = false
  ∧ loadingNext (paging (st sys)) = false.

End Pagination.

(** ** The list-library variant: [loadPrev] and [loadNext] guarded by refs

    In this variant the in-flight flags are refs, read and written at the
    time of the call; the other values of the guard come from the render
    the callback was created in, and may be stale. *)
Module RefLoads.
Import Pagination.

(** What a [loadPrev] or [loadNext] callback has closed over. *)
Record Closure := {
  closed_canAutoLoad : bool;
  closed_year : option Z;
  closed_loadedYears : list Z;
}.

Record Loads := {
  loadingPrevRef : bool;
  loadingNextRef : bool;
  fetching : list (Z * Direction);
}.

Definition loadingRef (d : Direction) (l : Loads) : bool :=
  match d with Prev => loadingPrevRef l | Next => loadingNextRef l end.

Definition setLoadingRef (d : Direction) (b : bool) (fs : list (Z * Direction))
    (l : Loads) : Loads :=
  {| loadingPrevRef := match d with Prev => b | Next => loadingPrevRef l end;
     loadingNextRef := match d with Prev => loadingNextRef l | Next => b end;
     fetching := fs |}.

(** [loadPrev] / [loadNext] up to the [await]. *)
Definition load (d : Direction) (c : Closure) (l : Loads) : Loads :=
  match closed_year c with
  | None => l
  | Some year =>
      if negb (closed_canAutoLoad c)
         || bool_decide (year ∈ closed_loadedYears c)
         || loadingRef d l
      then l
      else setLoadingRef d true (fetching l ++ [(year, d)]) l
  end.

(** The [finally] block, when the fetch of [year] has settled. *)
Definition finish (year : Z) (d : Direction) (l : Loads) : Loads :=
  if bool_decide ((year, d) ∈ fetching l)
  then setLoadingRef d false (removeFetch (year, d) (fetching l)) l
  else l.

Inductive Call :=
| CallLoad (d : Direction) (c : Closure)
| CallFinish (year : Z) (d : Direction).

Definition call (ev : Call) (l : Loads) : Loads :=
  match ev with
  | CallLoad d c => load d c l
  | CallFinish year d => finish year d l
  end.

Definition calls (evs : list Call) (l : Loads) : Loads :=
  foldl (λ acc ev, call ev acc) l evs.

Definition atRest : Loads :=
  {| loadingPrevRef := false; loadingNextRef := false; fetching := [] |}.

(** A fetch of a direction is in flight exactly while its ref is set, and
    there is at most one. *)
Definition guarded (l : Loads) : Prop :=
  ∀ d, fetchCount d (fetching l) = if loadingRef d l then 1%nat else 0%nat.

End RefLoads.

(** ** Concrete data for the examples *)
Module Examples.
Import Timeline.

Definition gameA : Game :=
  {| title := "Hollow Knight"; genre := ["Action"]; style := "2D";
     studio := "Team Cherry"; platforms := ["PC"] |}.

Definition gameB : Game :=
  {| title := "Celeste"; genre := ["Platformer"]; style := "Pixel";
     studio := "Maddy Makes Games"; platforms := ["NS"] |}.

Definition heldGroup : ReleaseGroup :=
  {| date := "2025-01-02"; displayDate := "2025-01-02"; games := [gameA] |}.

Definition incomingGroup : ReleaseGroup :=
  {| date := "2025-01-02"; displayDate := "2025-01-02"; games := [gameB] |}.

(** A 600px viewport over three unmeasured items; the scroll offset stays
    at 0 while item 1 is the target of a jump, whatever the epoch. *)
Definition tallViewport : Layout.ScrollEl :=
  {| Layout.clientHeight := 600; Layout.el_scrollTop := 0 |}.

Definition farView (version : Z) : Jump.SnapView :=
  {| Jump.view_timelineLength := 3;
     Jump.view_offsets := Layout.offsets 3 ∅;
     Jump.view_heights := ∅;
     Jump.view_scrollRef := Some tallViewport;
     Jump.view_scrollTop := 0;
     Jump.view_measureVersion := version |}.

Definition farTarget : Layout.ScrollTarget :=
  {| Layout.clamped :=
       Qmin (Qmax (Layout.centeredOffset (Layout.offsets 3 ∅) ∅ tallViewport 1) 0)
            (Qmax 0 (Layout.totalHeight (Layout.offsets 3 ∅)
                     - Layout.clientHeight tallViewport));
     Layout.target_scrollEl := tallViewport |}.

(** The sequence of the specification's scenario, with a measured height
    for its first item, scrolled 200px down in a 600px viewport; years 2023
    to 2026 exist, 2024 and 2025 are loaded. *)
Definition plainGroup (day : string) (list : list Game) : ReleaseGroup :=
  {| date := day; displayDate := day; games := list |}.

Definition scenarioTimeline : list ReleaseGroup :=
  [ plainGroup "2024-12-30" [gameA];
    plainGroup "2025-01-02" [gameB];
    plainGroup "2025-06-10" [] ].

Definition page2023 : list ReleaseGroup :=
  [ plainGroup "2023-11-20" [gameB]; plainGroup "2023-03-14" [gameA] ].

Definition scenarioState : Pagination.State :=
  {| Pagination.paging :=
       {| Pagination.timeline := scenarioTimeline;
          Pagination.error := None;
          Pagination.availableYears := [2023; 2024; 2025; 2026]%Z;
          Pagination.loadedYears := [2024; 2025]%Z;
          Pagination.loadingPrev := false;
          Pagination.loadingNext := false;
          Pagination.canAutoLoad := false;
          Pagination.isTransitioning := false |};
     Pagination.metrics :=
       {| Pagination.heightsRef := {[0%nat := 300%Q]};
          Pagination.pendingMeasureVersionRef := false;
          Pagination.measureVersion := 1;
          Pagination.offsets := Layout.offsets 3 {[0%nat := 300%Q]};
          Pagination.pendingScrollShiftRef := 0 |};
     Pagination.scrolling :=
       {| Pagination.scrollEl :=
            {| Layout.clientHeight := 600; Layout.el_scrollTop := 200 |};
          Pagination.scrollTop := 200;
          Pagination.viewportHeight := 600;
          Pagination.scrollDirectionRef := None;
          Pagination.lastScrollTopRef := 200;
          Pagination.pendingScrollTopRef := None;
          Pagination.scrollRafRef := false |} |}.

Definition scenarioSys : Pagination.Sys :=
  {| Pagination.st := scenarioState;
     Pagination.inFlight := [];
     Pagination.queued := [] |}.

(** The user touches the list and scrolls up to 100px from the top: the
    edge-load effect for the older page runs and its flags are rendered.
    The list is scrolled on to 90px and the effect runs again. *)
Definition scrollToTop : list Pagination.Event :=
  [ Pagination.EvTouchOrPointerDown;
    Pagination.EvScroll 100;
    Pagination.EvScrollFrame;
    Pagination.EvEdgeEffect Pagination.Prev;
    Pagination.EvRender;
    Pagination.EvScroll 90;
    Pagination.EvScrollFrame;
    Pagination.EvEdgeEffect Pagination.Prev ].

(** The state in which the fetch of 2023 is in flight, and the one after
    that fetch has failed. *)
Definition loadingSys : Pagination.Sys :=
  Pagination.run IsoDate.getTime scrollToTop scenarioSys.

Definition failure2023 : Pagination.Event :=
  Pagination.EvSettle 2023 Pagination.Prev
    (Pagination.FetchFailed (Some "Failed to load 2023.json")).

Definition failedSys : Pagination.Sys :=
  Pagination.step IsoDate.getTime failure2023 loadingSys.

End Examples.

(** ** What is rendered: the slice of the window and the two spacers *)
Module Render.
Import Timeline Layout.

Local Open Scope Q_scope.

(** [offsets[i]] for an index that may be negative or past the end. *)
Definition offsetAt (offs : list Q) (i : Z) : option Q :=
  if (i <? 0)%Z then None else offs !! Z.to_nat i.

(** [timeline.slice(start, end + 1)] when [end >= start], else [[]]; the
    start of a window is an array index, never negative. *)
Definition visibleGroups (timeline : list ReleaseGroup) (range : VisibleRange)
  : list ReleaseGroup :=
  if (range_start range <=? range_end range)%Z then
    take (Z.to_nat (range_end range + 1) - Z.to_nat (range_start range))
         (drop (Z.to_nat (range_start range)) timeline)
  else [].

Definition topSpacer (timelineLength : nat) (offs : list Q) (range : VisibleRange) : Q :=
  if (timelineLength =? 0)%nat then 0
  else default 0 (offsetAt offs (range_start range)).

Definition endOffset (timelineLength : nat) (offs : list Q) (range : VisibleRange) : Q :=
  if (0 <=? range_end range)%Z then
    default (topSpacer timelineLength offs range)
            (offsetAt offs (range_end range + 1))
  else topSpacer timelineLength offs range.

Definition bottomSpacer (timelineLength : nat) (offs : list Q) (range : VisibleRange) : Q :=
  if (timelineLength =? 0)%nat then 0
  else Qmax 0 (totalHeight offs - endOffset timelineLength offs range).

End Render.

(** ** A page loaded as the next year *)
Module Growth.
Import Timeline.

(** Every item of [page] is strictly newer than every item of [l]. *)
Definition newerPage (getTime : string → option Z) (page l : list ReleaseGroup)
  : Prop :=
  Forall (λ e, Forall (λ p, comesAfter getTime e p = true) l) page.

End Growth.

(** ** More data for the examples *)
Module Scenarios.
Import Timeline Examples.

(** The page of 2026, as the file lists it: newest first. *)
Definition page2026 : list ReleaseGroup :=
  [ plainGroup "2026-02-14" [gameA]; plainGroup "2026-01-05" [gameB] ].

(** Local midnight of 1 March 2025, for a reader in UTC. *)
Definition march2025 : Z := 1740787200000.

(** The state of the scenario once the user has touched the list. *)
Definition touchedSys : Pagination.Sys :=
  Pagination.step IsoDate.getTime Pagination.EvTouchOrPointerDown scenarioSys.

(** A jump to the last item of the scenario (index 2) is pending with its
    three attempts left. It carries epoch 0: the second step of a jump to
    today registers the request two animation frames after the click, with
    the epoch of the render in which the click was handled, and item 0 was
    measured in between. *)
Definition pendingJump : Jump.PendingSnap :=
  {| Jump.snap_index := 2; Jump.remaining := 3; Jump.lastMeasureVersion := 0 |}.

(** The list is scrolled down to 210px, which is within the threshold of
    the end, and the frame renders that offset. *)
Definition scrollToEnd : list Pagination.Event :=
  [ Pagination.EvScroll 210; Pagination.EvScrollFrame ].

(** The effects of that render, in the order of their declaration: the
    edge-load effect of the next year, then the pending-snap effect, which
    forces the scroll offset and renders it with [flushSync]; after that
    render the edge-load effect runs again. *)
Definition effectsWithSnap : list Pagination.Event :=
  [ Pagination.EvEdgeEffect Pagination.Next;
    Pagination.EvPendingSnapEffect (Some pendingJump);
    Pagination.EvEdgeEffect Pagination.Next ].

(** The same with the queued flag rendered before anything else runs. *)
Definition effectsWithRender : list Pagination.Event :=
  [ Pagination.EvEdgeEffect Pagination.Next;
    Pagination.EvRender;
    Pagination.EvPendingSnapEffect (Some pendingJump);
    Pagination.EvEdgeEffect Pagination.Next ].

(** A page of the previous year that lists one date twice. *)
Definition page2023Repeated : list ReleaseGroup :=
  [ plainGroup "2023-11-20" [gameB]; plainGroup "2023-11-20" [gameA] ].

(** One unmeasured item in a 600px viewport, and a page of one older date. *)
Definition shortState : Pagination.State :=
  {| Pagination.paging :=
       {| Pagination.timeline := [plainGroup "2025-01-02" [gameA]];
          Pagination.error := None;
          Pagination.availableYears := [2024; 2025]%Z;
          Pagination.loadedYears := [2025]%Z;
          Pagination.loadingPrev := true;
          Pagination.loadingNext := false;
          Pagination.canAutoLoad := true;
          Pagination.isTransitioning := true |};
     Pagination.metrics :=
       {| Pagination.heightsRef := ∅;
          Pagination.pendingMeasureVersionRef := false;
          Pagination.measureVersion := 0;
          Pagination.offsets := Layout.offsets 1 ∅;
          Pagination.pendingScrollShiftRef := 0 |};
     Pagination.scrolling :=
       {| Pagination.scrollEl :=
            {| Layout.clientHeight := 600; Layout.el_scrollTop := 0 |};
          Pagination.scrollTop := 0;
          Pagination.viewportHeight := 600;
          Pagination.scrollDirectionRef := Some Pagination.Up;
          Pagination.lastScrollTopRef := 0;
          Pagination.pendingScrollTopRef := None;
          Pagination.scrollRafRef := false |} |}.

Definition page2024 : list ReleaseGroup := [ plainGroup "2024-12-30" [gameB] ].

End Scenarios.

(** ** The first page: [loadInitial] *)
Module InitialLoad.
Import Timeline Layout Pagination.

Local Open Scope Q_scope.

(** [years.sort((a, b) => a - b)] *)
Definition sortYears (years : list Z) : list Z := merge_sort Z.le years.

(** The year shown first, [first] being [years[0]]: the current year when
    it has a page, else the last of the years before it, else the first
    year there is. *)
Definition initialYear (first : Z) (years : list Z) (currentYear : Z) : Z :=
  if bool_decide (currentYear ∈ years) then currentYear
  else
    match filter (λ year, (year < currentYear)%Z) years with
    | [] => first
    | previousYears => default first (last previousYears)
    end.

(** [year] is the year a reader of the index expects to see first: one of
    the years of the index; the latest that is not after the current year
    when there is one; the earliest of all when every year of the index is
    after the current one. *)
Definition firstShown (yearFiles : list (option Z)) (currentYear year : Z) : Prop :=
  Some year ∈ yearFiles
  ∧ (∀ z, Some z ∈ yearFiles → (z ≤ currentYear)%Z → (z ≤ year ≤ currentYear)%Z)
  ∧ ((∀ z, Some z ∈ yearFiles → (currentYear < z)%Z) →
     ∀ z, Some z ∈ yearFiles → (year ≤ z)%Z).

(** How the fetch of [index.json] ends. Each file name is given by the
    number it stands for, taken to be an integer; a name that stands for no
    finite number is [None]. *)
Inductive IndexResult :=
| IndexOk (yearFiles : list (option Z))
| IndexNotOk
| IndexThrew (message : option string).

(** The state of the component when it mounts. *)
Definition mounted (el : ScrollEl) : State :=
  {| paging :=
       {| timeline := []; error := None; availableYears := [];
          loadedYears := []; loadingPrev := false; loadingNext := false;
          canAutoLoad := false; isTransitioning := false |};
     metrics :=
       {| heightsRef := ∅; pendingMeasureVersionRef := false;
          measureVersion := 0; offsets := Layout.offsets 0 ∅;
          pendingScrollShiftRef := 0 |};
     scrolling :=
       {| scrollEl := el; scrollTop := el_scrollTop el;
          viewportHeight := clientHeight el; scrollDirectionRef := None;
          lastScrollTopRef := 0; pendingScrollTopRef := None;
          scrollRafRef := false |} |}.

Section Load.
Variable getTime : string → option Z.

(** The [if (active)] block of the [try]. *)
Definition loadedInitial (years : list Z) (year : Z) (entries : list ReleaseGroup)
    (s : State) : State :=
  let s1 := resetMeasurements s in
  let timeline' := mergeTimeline getTime [] entries in
  {| paging :=
       {| timeline := timeline'; error := None; availableYears := years;
          loadedYears := [year]; loadingPrev := loadingPrev (paging s);
          loadingNext := loadingNext (paging s);
          canAutoLoad := canAutoLoad (paging s);
          isTransitioning := isTransitioning (paging s) |};
     metrics :=
       recomputeOffsets (length timeline') (metrics s1) (measureVersion (metrics s1));
     scrolling := scrolling s |}.

(** The [catch] block. *)
Definition failedInitial (message : option string) (s : State) : State :=
  withPaging
    (setError (Some (default "Failed to load timeline."%string message)) (paging s)) s.

(** [loadInitial] while the component is mounted: [fetchYear] tells how the
    fetch of a year's page ends. *)
Definition loadInitial (index : IndexResult) (currentYear : Z)
    (fetchYear : Z → FetchResult) (s : State) : State :=
  match index with
  | IndexNotOk => failedInitial (Some "Failed to load release index."%string) s
  | IndexThrew message => failedInitial message s
  | IndexOk yearFiles =>
      if (length yearFiles =? 0)%nat
      then failedInitial (Some "Release index is empty."%string) s
      else
        match sortYears (omap id yearFiles) with
        | [] => failedInitial (Some "Release index is empty."%string) s
        | first :: rest =>
            let years := first :: rest in
            let year := initialYear first years currentYear in
            match fetchYear year with
            | FetchOk entries => loadedInitial years year entries s
            | FetchFailed message => failedInitial message s
            end
        end
  end.

End Load.

End InitialLoad.

(** ** What the component keeps true while it runs *)
Module Invariants.
Import Timeline Layout Pagination.

(** From [p] to [p'] nothing was taken away: every date and every loaded
    year is still there, and the list of the years that exist is the same. *)
Definition grows (p p' : Paging) : Prop :=
  (∀ d, d ∈ date <$> timeline p → d ∈ date <$> timeline p')
  ∧ (length (timeline p) ≤ length (timeline p'))%nat
  ∧ (∀ y, y ∈ loadedYears p → y ∈ loadedYears p')
  ∧ availableYears p' = availableYears p.

(** The loaded years are a block of the years that exist: no year between
    the first and the last loaded one is missing. *)
Definition contiguous (p : Paging) : Prop :=
  ∀ least greatest y,
    minLoadedYear p = Some least → maxLoadedYear p = Some greatest →
    y ∈ availableYears p → (least ≤ y ≤ greatest)%Z → y ∈ loadedYears p.

(** Every fetch in flight is the fetch of the year next to the loaded ones
    on its side, or of a year that has been loaded since it was started. *)
Definition tracked (sys : Sys) : Prop :=
  ∀ year d, (year, d) ∈ inFlight sys →
    year ∈ loadedYears (paging (st sys))
    ∨ adjacentYear d (paging (st sys)) = Some year.

(** What the run of the component keeps true of the years. *)
Definition yearsInv (sys : Sys) : Prop :=
  Sorted Z.le (availableYears (paging (st sys)))
  ∧ tracked sys ∧ contiguous (paging (st sys))
  ∧ NoDup (loadedYears (paging (st sys))).

(** Every page that arrives in the run has dates that all have a time. *)
Definition readablePages (getTime : string → option Z) (events : list Event)
  : Prop :=
  Forall (λ ev, match ev with
                | EvSettle _ _ (FetchOk entries) => readable getTime entries
                | _ => True
                end) events.

(** The memoised offsets are those of the current cache and sequence
    whenever no epoch bump is pending. *)
Definition memoFresh (s : State) : Prop :=
  pendingMeasureVersionRef (metrics s) = false →
  offsets (metrics s)
  = Layout.offsets (length (timeline (paging s))) (heightsRef (metrics s)).

(** The events by which the user touches the list: they call
    [markUserInteraction]. *)
Definition isInteraction (ev : Event) : bool :=
  match ev with
  | EvWheel _ | EvTouchOrPointerDown => true
  | _ => false
  end.

End Invariants.

(** ** The item nearest to today *)
Module Today.
Import Timeline.

(** The variables of the search loop. *)
Record Scan := {
  targetIndex : Z;
  prevIndex : Z;
  prevValue : Z;
  nextIndex : Z;
  nextValue : Z;
}.

Definition scanStart : Scan :=
  {| targetIndex := -1; prevIndex := -1; prevValue := 0;
     nextIndex := -1; nextValue := 0 |}.

Definition setTarget (i : Z) (s : Scan) : Scan :=
  {| targetIndex := i; prevIndex := prevIndex s; prevValue := prevValue s;
     nextIndex := nextIndex s; nextValue := nextValue s |}.

Definition setPrevious (i value : Z) (s : Scan) : Scan :=
  {| targetIndex := targetIndex s; prevIndex := i; prevValue := value;
     nextIndex := nextIndex s; nextValue := nextValue s |}.

Definition setNext (i value : Z) (s : Scan) : Scan :=
  {| targetIndex := targetIndex s; prevIndex := prevIndex s;
     prevValue := prevValue s; nextIndex := i; nextValue := value |}.

Section Search.

(** [toLocalDayValue]: local midnight of a date key; [None] stands for
    [null], and for a value no comparison holds of. *)
Variable toLocalDayValue : string → option Z.

(** [today.getTime()] after [setHours(0, 0, 0, 0)]. *)
Variable todayValue : Z.

(** The [for] loop of [scrollToToday] and of the initial-scroll effect,
    from index [i] on: it stops at an item of today and at the first later
    item. *)
Fixpoint scanFrom (i : nat) (items : list ReleaseGroup) (s : Scan) : Scan :=
  match items with
  | [] => s
  | item :: rest =>
      match toLocalDayValue (date item) with
      | None => scanFrom (S i) rest s
      | Some itemValue =>
          if (itemValue =? todayValue)%Z then setTarget (Z.of_nat i) s
          else if (itemValue <? todayValue)%Z
          then scanFrom (S i) rest (setPrevious (Z.of_nat i) itemValue s)
          else if (todayValue <? itemValue)%Z
          then setNext (Z.of_nat i) itemValue s
          else scanFrom (S i) rest s
      end
  end.

(** The loop of [findTargetArrayIndexForToday] in the list-library variant:
    it stops at an item of today only, and keeps the first later item. *)
Fixpoint scanAllFrom (i : nat) (items : list ReleaseGroup) (s : Scan) : Scan :=
  match items with
  | [] => s
  | item :: rest =>
      match toLocalDayValue (date item) with
      | None => scanAllFrom (S i) rest s
      | Some itemValue =>
          if (itemValue =? todayValue)%Z then setTarget (Z.of_nat i) s
          else if (itemValue <? todayValue)%Z
          then scanAllFrom (S i) rest (setPrevious (Z.of_nat i) itemValue s)
          else if ((todayValue <? itemValue) && (nextIndex s =? -1))%Z
          then scanAllFrom (S i) rest (setNext (Z.of_nat i) itemValue s)
          else scanAllFrom (S i) rest s
      end
  end.

(** The choice after the loop. *)
Definition pickTarget (s : Scan) : Z :=
  if (targetIndex s =? -1)%Z then
    if (negb (prevIndex s =? -1) && negb (nextIndex s =? -1))%Z then
      let prevDiff := (todayValue - prevValue s)%Z in
      let nextDiff := (nextValue s - todayValue)%Z in
      if (prevDiff <=? nextDiff)%Z then prevIndex s else nextIndex s
    else if negb (prevIndex s =? -1)%Z then prevIndex s
    else if negb (nextIndex s =? -1)%Z then nextIndex s
    else targetIndex s
  else targetIndex s.

(** The target index of [scrollToToday]; [-1] when there is none. *)
Definition todayTarget (timeline : list ReleaseGroup) : Z :=
  pickTarget (scanFrom 0 timeline scanStart).

Definition findTargetArrayIndexForToday (timeline : list ReleaseGroup) : Z :=
  if (length timeline =? 0)%nat then (-1)%Z
  else pickTarget (scanAllFrom 0 timeline scanStart).

(** The day values of the items that have one, in the order of the
    sequence. *)
Definition dayValues (items : list ReleaseGroup) : list Z :=
  omap (λ item, toLocalDayValue (date item)) items.

End Search.

Section Closest.

(** [new Date(s).getTime()], [None] for [NaN]. *)
Variable getTime : string → option Z.
Variable todayValue : Z.

(** The [forEach] of [scrollToToday] in the first version of the page;
    [minDiff] is [None] for [Number.POSITIVE_INFINITY]. A [NaN] difference
    is below nothing. *)
Fixpoint closestFrom (i : nat) (items : list ReleaseGroup)
    (closestIndex : nat) (minDiff : option Z) : nat :=
  match items with
  | [] => closestIndex
  | item :: rest =>
      match getTime (date item) with
      | None => closestFrom (S i) rest closestIndex minDiff
      | Some value =>
          let diff := Z.abs (value - todayValue) in
          let below :=
            match minDiff with
            | None => true
            | Some least => (diff <? least)%Z
            end in
          if below then closestFrom (S i) rest i (Some diff)
          else closestFrom (S i) rest closestIndex minDiff
      end
  end.

Definition closestIndex (timeline : list ReleaseGroup) : nat :=
  closestFrom 0 timeline 0 None.

End Closest.

End Today.

(** ** The anchor of a language switch *)
Module LanguageAnchor.
Import Layout.

Local Open Scope Q_scope.

(** [pendingLanguageAnchorRef.current] *)
Record Anchor := {
  anchor_index : nat;
  centerDelta : Q;
  anchor_remaining : Z;
  anchor_lastMeasureVersion : Z;
}.

(** What [toggleLanguage] leaves in the ref; with an empty sequence it only
    switches the language. *)
Definition toggleLanguage (timelineLength : nat) (offs : list Q)
    (scrollTop viewportHeight : Q) (measureVersion : Z)
    (pendingRef : option Anchor) : option Anchor :=
  if (timelineLength =? 0)%nat then pendingRef
  else
    let viewportCenter := scrollTop + viewportHeight / 2 in
    let index := findIndexForOffset offs viewportCenter in
    let itemTop := default 0 (offs !! index) in
    Some {| anchor_index := index;
            centerDelta := viewportCenter - itemTop;
            anchor_remaining := 6;
            anchor_lastMeasureVersion := measureVersion |}.

(** What one run of the layout effect reads from its render. *)
Record AnchorView := {
  av_timelineLength : nat;
  av_offsets : list Q;
  av_scrollRef : option ScrollEl;
  av_viewportHeight : Q;
  av_measureVersion : Z;
}.

(** What one run leaves behind: the ref, and the offset it forced onto the
    scroll element, if it did. *)
Record AnchorResult := {
  pendingLanguageAnchorRef : option Anchor;
  anchoredTo : option Q;
}.

(** The scroll offset that puts the anchored item back under the centre. *)
Definition anchorTarget (view : AnchorView) (el : ScrollEl) (pending : Anchor) : Q :=
  let nextItemTop := default 0 (av_offsets view !! anchor_index pending) in
  let targetScrollTop := nextItemTop + centerDelta pending - av_viewportHeight view / 2 in
  let maxScrollTop := Qmax 0 (totalHeight (av_offsets view) - clientHeight el) in
  Qmin (Qmax targetScrollTop 0) maxScrollTop.

Definition languageAnchorEffect (view : AnchorView) (pendingRef : option Anchor)
  : AnchorResult :=
  match pendingRef, av_scrollRef view with
  | Some pending, Some scrollEl =>
      if (av_timelineLength view =? 0)%nat
      then {| pendingLanguageAnchorRef := None; anchoredTo := None |}
      else if (anchor_remaining pending <=? 0)%Z
      then {| pendingLanguageAnchorRef := None; anchoredTo := None |}
      else if (av_measureVersion view =? anchor_lastMeasureVersion pending)%Z
      then {| pendingLanguageAnchorRef := Some pending; anchoredTo := None |}
      else
        {| pendingLanguageAnchorRef :=
             Some {| anchor_index := anchor_index pending;
                     centerDelta := centerDelta pending;
                     anchor_remaining := (anchor_remaining pending - 1)%Z;
                     anchor_lastMeasureVersion := av_measureVersion view |};
           anchoredTo := Some (anchorTarget view scrollEl pending) |}
  | _, _ => {| pendingLanguageAnchorRef := pendingRef; anchoredTo := None |}
  end.

(** Successive runs of the effect, one per render described by [views]:
    the final ref and the offsets forced on the way, oldest first. *)
Fixpoint runAnchorEffect (views : list AnchorView) (pendingRef : option Anchor)
  : option Anchor * list Q :=
  match views with
  | [] => (pendingRef, [])
  | view :: rest =>
      let r := languageAnchorEffect view pendingRef in
      let '(final, forced) := runAnchorEffect rest (pendingLanguageAnchorRef r) in
      (final, match anchoredTo r with Some o => o :: forced | None => forced end)
  end.

End LanguageAnchor.

(** ** The platform filter *)
Module Filters.
Import Timeline.

(** [selectedPlatforms]: a [Set], its keys in insertion order. *)
Definition Selection := list string.

Definition togglePlatform (platform : string) (prev : Selection) : Selection :=
  if bool_decide (platform ∈ prev)
  then filter (λ key, key ≠ platform) prev
  else prev ++ [platform].

Definition matchesPlatformFilter (selectedPlatforms : Selection)
    (gamePlatforms : list string) : bool :=
  if (length selectedPlatforms =? 0)%nat then true
  else existsb (λ p, bool_decide (p ∈ selectedPlatforms)) gamePlatforms.

Definition filterGames (selectedPlatforms : Selection) (gameList : list Game)
  : list Game :=
  if (length selectedPlatforms =? 0)%nat then gameList
  else filter (λ game, matchesPlatformFilter selectedPlatforms (platforms game) = true)
         gameList.

End Filters.

(** ** The list-library variant: the sequence and its first virtual index *)
Module VirtualList.
Import Timeline.

Record TimelineState := {
  data : list ReleaseGroup;
  firstItemIndex : Z;
}.

Definition INITIAL_FIRST_ITEM_INDEX : Z := 100000.

(** The state update of [loadPrev]: the new items go in front and the first
    virtual index goes down by their number; nothing is set when no item is
    new. *)
Definition loadPrevUpdate (timelineRefCurrent entries : list ReleaseGroup)
    (prev : TimelineState) : TimelineState :=
  match newItemsOf timelineRefCurrent entries with
  | [] => prev
  | newItems =>
      {| data := newItems ++ data prev;
         firstItemIndex := (firstItemIndex prev - Z.of_nat (length newItems))%Z |}
  end.

(** The state update of [loadNext]. *)
Definition loadNextUpdate (timelineRefCurrent entries : list ReleaseGroup)
    (prev : TimelineState) : TimelineState :=
  match newItemsOf timelineRefCurrent entries with
  | [] => prev
  | newItems =>
      {| data := data prev ++ newItems; firstItemIndex := firstItemIndex prev |}
  end.

(** [virtualIndex - firstItemIndex] in [itemContent]. *)
Definition arrayIndex (virtualIndex : Z) (s : TimelineState) : Z :=
  (virtualIndex - firstItemIndex s)%Z.

(** The item a virtual index stands for. *)
Definition itemAt (virtualIndex : Z) (s : TimelineState) : option ReleaseGroup :=
  if (arrayIndex virtualIndex s <? 0)%Z then None
  else data s !! Z.to_nat (arrayIndex virtualIndex s).

(** The array index [loadPrev] scrolls back to in the next frame. *)
Definition newArrayIndex (currentVisibleArrayIndex : Z) (newItems : list ReleaseGroup)
  : Z :=
  (currentVisibleArrayIndex + Z.of_nat (length newItems))%Z.

End VirtualList.

(** * Properties *)

(** ** The merge *)
Module TimelineFacts.
Import Timeline.

Lemma mapGet_mapSet_eq key value m : mapGet key (mapSet key value m) = Some value.
Proof.
  induction m as [|[k v] m IH]; simpl.
  - by rewrite String.eqb_refl.
  - destruct (String.eqb k key) eqn:E; simpl; rewrite E; done.
Qed.

Lemma mapGet_mapSet_ne key key' value m :
  key ≠ key' → mapGet key' (mapSet key value m) = mapGet key' m.
Proof.
  intros Hne. induction m as [|[k v] m IH]; simpl.
  - destruct (String.eqb_spec key key'); done.
  - destruct (String.eqb_spec k key) as [->|Hk]; simpl.
    + destruct (String.eqb_spec key key'); done.
    + by rewrite IH.
Qed.

Lemma mapGet_None key (m : GroupMap) : mapGet key m = None ↔ key ∉ m.*1.
Proof.
  induction m as [|[k v] m IH]; simpl.
  - split; [intros _; apply not_elem_of_nil|done].
  - rewrite not_elem_of_cons. destruct (String.eqb_spec k key) as [->|Hk].
    + split; [done|intros [? _]; done].
    + rewrite IH. split; [by intros ?; split|by intros [_ ?]].
Qed.

Lemma mapSet_keys key value (m : GroupMap) :
  (mapSet key value m).*1 = if decide (key ∈ m.*1) then m.*1 else m.*1 ++ [key].
Proof.
  induction m as [|[k v] m IH]; [done|]. cbn [mapSet].
  destruct (String.eqb_spec k key) as [->|Hk]; cbn [fmap list_fmap fst].
  - rewrite decide_True; [done|left].
  - change (list_fmap _ _ fst ?l) with (l.*1). rewrite IH.
    destruct (decide (key ∈ m.*1)) as [Hin|Hin].
    + rewrite decide_True; [done|by right].
    + rewrite decide_False; [done|]. rewrite not_elem_of_cons. done.
Qed.

Lemma mapSet_NoDup key value (m : GroupMap) : NoDup m.*1 → NoDup (mapSet key value m).*1.
Proof.
  intros Hnd. rewrite mapSet_keys. case_decide; [done|].
  apply NoDup_app. split_and!; [done| |apply NoDup_singleton].
  intros x Hx Hx'. apply list_elem_of_singleton in Hx'. by subst.
Qed.

Lemma mapGet_Some_elem key value (m : GroupMap) :
  mapGet key m = Some value → (key, value) ∈ m.
Proof.
  induction m as [|[k v] m IH]; simpl; [done|].
  destruct (String.eqb_spec k key) as [->|Hk].
  - intros [= ->]. left.
  - intros H. right. auto.
Qed.

Lemma mapSet_keyed key value m : date value = key → keyed m → keyed (mapSet key value m).
Proof.
  intros Hd. induction 1 as [|[k v] m Hkv Hm IH]; simpl.
  - by repeat constructor.
  - destruct (String.eqb_spec k key) as [->|Hk]; constructor; done.
Qed.

Lemma keyed_get key value m : keyed m → mapGet key m = Some value → date value = key.
Proof.
  intros Hk Hg. apply mapGet_Some_elem in Hg.
  unfold keyed in Hk. rewrite Forall_forall in Hk. apply (Hk _ Hg).
Qed.

Lemma keyed_dates m : keyed m → date <$> mapValues m = m.*1.
Proof.
  unfold mapValues. induction 1 as [|[k v] m Hkv Hm IH]; [done|].
  rewrite !fmap_cons. simpl in Hkv. cbn [fst snd]. by rewrite Hkv, IH.
Qed.

Lemma setPrev_keyed g p : keyed g → keyed (setPrev g p).
Proof. intros. by apply mapSet_keyed. Qed.

Lemma pushEntry_keyed g e : keyed g → keyed (pushEntry g e).
Proof.
  intros Hk. unfold pushEntry. apply mapSet_keyed; [|done]. simpl.
  destruct (mapGet (date e) g) eqn:E; simpl; [|done]. by eapply keyed_get.
Qed.

Lemma foldl_setPrev_keyed prev g : keyed g → keyed (foldl setPrev g prev).
Proof. revert g. induction prev; simpl; auto using setPrev_keyed. Qed.

Lemma foldl_pushEntry_keyed entries g : keyed g → keyed (foldl pushEntry g entries).
Proof. revert g. induction entries; simpl; auto using pushEntry_keyed. Qed.

Lemma foldl_setPrev_NoDup prev (g : GroupMap) : NoDup g.*1 → NoDup (foldl setPrev g prev).*1.
Proof. revert g. induction prev; simpl; intros; [done|]. apply IHprev. by apply mapSet_NoDup. Qed.

Lemma foldl_pushEntry_NoDup entries (g : GroupMap) : NoDup g.*1 → NoDup (foldl pushEntry g entries).*1.
Proof. revert g. induction entries; simpl; intros; [done|]. apply IHentries. by apply mapSet_NoDup. Qed.

Lemma mapSet_key_elem key value (m : GroupMap) k :
  k ∈ (mapSet key value m).*1 ↔ k = key ∨ k ∈ m.*1.
Proof.
  rewrite mapSet_keys. case_decide.
  - split; [auto|intros [->|?]; auto].
  - rewrite elem_of_app, list_elem_of_singleton. tauto.
Qed.

Lemma foldl_setPrev_keys prev (g : GroupMap) k :
  k ∈ (foldl setPrev g prev).*1 ↔ k ∈ g.*1 ∨ k ∈ date <$> prev.
Proof.
  revert g. induction prev as [|p prev IH]; simpl; intros g.
  - rewrite elem_of_nil. tauto.
  - rewrite IH. unfold setPrev. rewrite mapSet_key_elem, elem_of_cons. tauto.
Qed.

Lemma foldl_pushEntry_keys entries (g : GroupMap) k :
  k ∈ (foldl pushEntry g entries).*1 ↔ k ∈ g.*1 ∨ k ∈ date <$> entries.
Proof.
  revert g. induction entries as [|e entries IH]; simpl; intros g.
  - rewrite elem_of_nil. tauto.
  - rewrite IH. unfold pushEntry. rewrite mapSet_key_elem, elem_of_cons. tauto.
Qed.

Section Sorting.
Variable getTime : string → option Z.

Lemma insertSorted_Permutation x l : insertSorted getTime x l ≡ₚ x :: l.
Proof.
  induction l as [|y l IH]; simpl; [done|].
  destruct (comesAfter getTime x y); [|done].
  rewrite IH. apply Permutation_swap.
Qed.

Lemma sortByDate_Permutation l : sortByDate getTime l ≡ₚ l.
Proof.
  induction l as [|x l IH]; simpl; [done|].
  by rewrite insertSorted_Permutation, IH.
Qed.

End Sorting.

Lemma keyCount_Permutation key l l' : l ≡ₚ l' → keyCount key l = keyCount key l'.
Proof. intros H. unfold keyCount. by rewrite H. Qed.

Lemma keyCount_not_elem key l : key ∉ date <$> l → keyCount key l = 0.
Proof.
  unfold keyCount. induction l as [|x l IH]; simpl; [done|].
  rewrite not_elem_of_cons. intros [Hne Hl].
  rewrite filter_cons_False; [auto|congruence].
Qed.

Lemma keyCount_NoDup key l : NoDup (date <$> l) → key ∈ date <$> l → keyCount key l = 1.
Proof.
  induction l as [|x l IH]; simpl.
  - intros _ H. by apply elem_of_nil in H.
  - rewrite NoDup_cons. intros [Hx Hl] Hin. unfold keyCount in *.
    destruct (decide (date x = key)) as [<-|Hne].
    + rewrite filter_cons_True by done. simpl. f_equal.
      by apply keyCount_not_elem.
    + rewrite filter_cons_False by done. apply IH; [done|].
      apply elem_of_cons in Hin as [?|?]; [congruence|done].
Qed.

Lemma mapGet_foldl_pushEntry entries g key current :
  mapGet key g = Some current →
  mapGet key (foldl pushEntry g entries) = Some (withPushed key entries current).
Proof.
  revert g current. induction entries as [|e entries IH]; intros g current Hg.
  - simpl. rewrite Hg. destruct current; unfold withPushed; simpl.
    by rewrite app_nil_r.
  - simpl. destruct (decide (date e = key)) as [He|He].
    + rewrite (IH _ {| date := date current; displayDate := displayDate current;
                       games := games current ++ games e |}).
      * unfold withPushed. rewrite filter_cons_True by done. simpl.
        by rewrite <- app_assoc.
      * unfold pushEntry. rewrite He, Hg. simpl. apply mapGet_mapSet_eq.
    + rewrite (IH _ current).
      * unfold withPushed. by rewrite filter_cons_False.
      * unfold pushEntry. by rewrite mapGet_mapSet_ne.
Qed.

Lemma mapGet_foldl_setPrev_other prev g key :
  key ∉ date <$> prev → mapGet key (foldl setPrev g prev) = mapGet key g.
Proof.
  revert g. induction prev as [|x prev IH]; intros g; [done|].
  rewrite fmap_cons, not_elem_of_cons. intros [Hne Hnot]. simpl.
  rewrite IH by done. unfold setPrev. by rewrite mapGet_mapSet_ne.
Qed.

Lemma mapGet_foldl_setPrev prev g p :
  NoDup (date <$> prev) → p ∈ prev →
  mapGet (date p) (foldl setPrev g prev) = Some p.
Proof.
  revert g. induction prev as [|x prev IH]; intros g Hnd Hin.
  - by apply elem_of_nil in Hin.
  - rewrite fmap_cons, NoDup_cons in Hnd. destruct Hnd as [Hx Hnd].
    apply elem_of_cons in Hin as [->|Hin]; simpl.
    + rewrite mapGet_foldl_setPrev_other by done.
      unfold setPrev. rewrite mapGet_mapSet_eq. by destruct x.
    + by apply IH.
Qed.

Lemma mapSet_fresh key value (m : GroupMap) :
  key ∉ m.*1 → mapSet key value m = m ++ [(key, value)].
Proof.
  induction m as [|[k v] m IH]; [done|].
  rewrite fmap_cons, not_elem_of_cons. cbn [fst]. intros [Hne Hnot].
  cbn [mapSet]. destruct (String.eqb_spec k key) as [->|_]; [done|].
  by rewrite IH.
Qed.

Lemma foldl_setPrev_fresh prev (g : GroupMap) :
  NoDup (g.*1 ++ (date <$> prev)) →
  foldl setPrev g prev = g ++ ((λ p, (date p, p)) <$> prev).
Proof.
  revert g. induction prev as [|x prev IH]; intros g Hnd.
  - by rewrite app_nil_r.
  - simpl. rewrite fmap_cons in Hnd.
    assert (Hx : date x ∉ g.*1).
    { apply NoDup_app in Hnd as (_ & Hd & _). intros Hin. apply (Hd _ Hin). left. }
    unfold setPrev at 2. rewrite mapSet_fresh by done.
    rewrite IH.
    + rewrite <- app_assoc. simpl. by destruct x.
    + by rewrite fmap_app, <- app_assoc.
Qed.

Lemma foldl_pushEntry_fresh entries (g : GroupMap) :
  NoDup (g.*1 ++ (date <$> entries)) →
  foldl pushEntry g entries = g ++ ((λ e, (date e, created e)) <$> entries).
Proof.
  revert g. induction entries as [|x entries IH]; intros g Hnd.
  - by rewrite app_nil_r.
  - simpl. rewrite fmap_cons in Hnd.
    assert (Hx : date x ∉ g.*1).
    { apply NoDup_app in Hnd as (_ & Hd & _). intros Hin. apply (Hd _ Hin). left. }
    unfold pushEntry at 2.
    assert (Hget : mapGet (date x) g = None) by by apply mapGet_None.
    rewrite Hget. simpl. rewrite mapSet_fresh by done.
    rewrite IH.
    + by rewrite <- app_assoc.
    + by rewrite fmap_app, <- app_assoc.
Qed.

Section Order.
Variable getTime : string → option Z.

Lemma comesAfter_irrefl_date a b :
  comesAfter getTime a b = true → date a ≠ date b.
Proof.
  unfold comesAfter, compareDates. intros H Heq. rewrite Heq in H.
  destruct (getTime (date b)); [|done].
  rewrite Z.sub_diag in H. done.
Qed.

Lemma sortByDate_inOrder l : inOrder getTime l → sortByDate getTime l = l.
Proof.
  induction 1 as [|x l Hl IH Hx]; [done|].
  change (sortByDate getTime (x :: l))
    with (insertSorted getTime x (sortByDate getTime l)).
  rewrite IH. destruct Hx as [|y l' Hxy]; [done|]. simpl. by rewrite Hxy.
Qed.

Lemma insertSorted_after x front back :
  Forall (λ e, comesAfter getTime x e = true) front →
  insertSorted getTime x (front ++ back) = front ++ insertSorted getTime x back.
Proof.
  induction 1 as [|e front He _ IH]; [done|]. simpl. by rewrite He, IH.
Qed.

Lemma foldr_insertSorted_after front l :
  Forall (λ e, Forall (λ p, comesAfter getTime p e = true) l) front →
  foldr (insertSorted getTime) front l = front ++ sortByDate getTime l.
Proof.
  intros Hold. induction l as [|p l IH].
  - simpl. by rewrite app_nil_r.
  - simpl. rewrite IH.
    + apply insertSorted_after.
      eapply Forall_impl; [exact Hold|]. intros e He. by inversion He.
    + eapply Forall_impl; [exact Hold|]. intros e He. by inversion He.
Qed.

Lemma sortByDate_app l page :
  olderPage getTime page l → inOrder getTime l →
  sortByDate getTime (l ++ page) = sortByDate getTime page ++ l.
Proof.
  intros Hold Hord. unfold sortByDate at 1. rewrite foldr_app.
  fold (sortByDate getTime page).
  rewrite foldr_insertSorted_after.
  - by rewrite (sortByDate_inOrder l).
  - rewrite Forall_forall. intros e He.
    rewrite sortByDate_Permutation in He.
    unfold olderPage in Hold. rewrite Forall_forall in Hold. by apply Hold.
Qed.

Lemma olderPage_created page l : olderPage getTime page l → olderPage getTime (created <$> page) l.
Proof. unfold olderPage. rewrite Forall_fmap. done. Qed.

Lemma olderPage_disjoint page l e p :
  olderPage getTime page l → e ∈ page → p ∈ l → date p ≠ date e.
Proof.
  unfold olderPage. rewrite Forall_forall. intros Hold He Hp.
  specialize (Hold _ He). rewrite Forall_forall in Hold.
  by apply comesAfter_irrefl_date, Hold.
Qed.

(** A page of new, distinct, older dates is put in front of the sequence. *)
Lemma mergeTimeline_prepend prev page :
  NoDup (date <$> prev) → NoDup (date <$> page) →
  olderPage getTime page prev → inOrder getTime prev →
  mergeTimeline getTime prev page
  = sortByDate getTime (created <$> page) ++ prev.
Proof.
  intros Hprev Hpage Hold Hord. unfold mergeTimeline.
  rewrite foldl_setPrev_fresh by (by rewrite app_nil_l). rewrite app_nil_l.
  assert (Hkeys : ((λ p, (date p, p)) <$> prev).*1 = date <$> prev).
  { rewrite <- list_fmap_compose. done. }
  rewrite foldl_pushEntry_fresh.
  - unfold mapValues. rewrite fmap_app, <- !list_fmap_compose.
    change (snd ∘ (λ p : ReleaseGroup, (date p, p))) with (@id ReleaseGroup).
    rewrite list_fmap_id.
    change (snd ∘ (λ e : ReleaseGroup, (date e, created e))) with created.
    apply sortByDate_app; [by apply olderPage_created|done].
  - rewrite Hkeys. apply NoDup_app. split_and!; [done| |done].
    intros k Hk Hk'.
    apply list_elem_of_fmap in Hk as (p & -> & Hp).
    apply list_elem_of_fmap in Hk' as (e & Heq & He).
    by eapply olderPage_disjoint.
Qed.

Lemma comesAfter_asym a b :
  comesAfter getTime a b = true → comesAfter getTime b a = false.
Proof.
  unfold comesAfter, compareDates.
  destruct (getTime (date a)) as [x|], (getTime (date b)) as [y|]; try done.
  intros H. apply Z.ltb_lt in H. apply Z.ltb_ge. lia.
Qed.

Lemma insertSorted_inOrder x l :
  inOrder getTime l → inOrder getTime (insertSorted getTime x l).
Proof.
  unfold inOrder. induction 1 as [|y l Hl IH Hy]; simpl.
  - by repeat constructor.
  - destruct (comesAfter getTime x y) eqn:Hxy.
    + constructor; [done|].
      destruct Hy as [|z l' Hyz]; simpl.
      * constructor. by apply comesAfter_asym.
      * destruct (comesAfter getTime x z); constructor; [done|].
        by apply comesAfter_asym.
    + by repeat constructor.
Qed.

Lemma sortByDate_sorted l : inOrder getTime (sortByDate getTime l).
Proof.
  induction l as [|x l IH]; [constructor|]. by apply insertSorted_inOrder.
Qed.

(** Every sequence [mergeTimeline] returns has distinct dates and is in
    order. *)
Lemma mergeTimeline_wellformed prev entries :
  NoDup (date <$> mergeTimeline getTime prev entries)
  ∧ inOrder getTime (mergeTimeline getTime prev entries).
Proof.
  split; [|apply sortByDate_sorted]. unfold mergeTimeline.
  rewrite sortByDate_Permutation.
  rewrite keyed_dates.
  - apply foldl_pushEntry_NoDup, foldl_setPrev_NoDup. constructor.
  - apply foldl_pushEntry_keyed, foldl_setPrev_keyed. constructor.
Qed.

(** With dates that all have a time, the order of the sort is the
    ascending order of the times. *)
Lemma comesAfter_times a b ta tb :
  getTime (date a) = Some ta → getTime (date b) = Some tb →
  comesAfter getTime a b = false ↔ (ta ≤ tb)%Z.
Proof.
  intros Ha Hb. unfold comesAfter, compareDates. rewrite Ha, Hb.
  rewrite Z.ltb_ge. lia.
Qed.

Lemma times_cons a l ta :
  getTime (date a) = Some ta → times getTime (a :: l) = ta :: times getTime l.
Proof. intros Ha. unfold times. cbn [omap list_omap]. by rewrite Ha. Qed.

Lemma readable_inOrder_ascending l :
  readable getTime l → inOrder getTime l → ascending getTime l.
Proof.
  intros Hr Hs. split; [done|].
  apply Sorted_StronglySorted; [intros x y z; lia|].
  induction Hs as [|a l Hs IH Hhd]; [constructor|].
  apply Forall_cons in Hr as [[ta Hta] Hr].
  rewrite (times_cons _ _ _ Hta). constructor; [by apply IH|].
  destruct Hhd as [|b l' Hab]; [constructor|].
  apply Forall_cons in Hr as [[tb Htb] Hr].
  rewrite (times_cons _ _ _ Htb). constructor.
  by apply (comesAfter_times a b).
Qed.

Lemma ascending_inOrder l : ascending getTime l → inOrder getTime l.
Proof.
  intros [Hr Hs]. unfold inOrder. induction l as [|a l IH]; [constructor|].
  apply Forall_cons in Hr as [[ta Hta] Hr].
  rewrite (times_cons _ _ _ Hta) in Hs.
  apply StronglySorted_inv in Hs as [Hs Hall].
  constructor; [by apply IH|].
  destruct l as [|b l]; [constructor|].
  apply Forall_cons in Hr as [[tb Htb] Hr].
  rewrite (times_cons _ _ _ Htb) in Hall.
  apply Forall_cons in Hall as [Hab _]. constructor.
  by apply (comesAfter_times a b ta tb).
Qed.

End Order.

End TimelineFacts.

(** ** Deduplication by date *)
Module MergeClaims.
Import Timeline TimelineFacts Examples.

Lemma newItemsOf_elem prev entries e :
  e ∈ newItemsOf prev entries ↔ e ∈ entries ∧ date e ∉ date <$> prev.
Proof.
  unfold newItemsOf. rewrite list_elem_of_filter, elem_of_list_to_set. tauto.
Qed.

Lemma keyCount_app key l1 l2 :
  keyCount key (l1 ++ l2) = (keyCount key l1 + keyCount key l2)%nat.
Proof. unfold keyCount. by rewrite filter_app, length_app. Qed.

Lemma keyCount_newItems key prev entries :
  key ∈ date <$> prev → keyCount key (newItemsOf prev entries) = 0%nat.
Proof.
  intros Hin. apply keyCount_not_elem. intros Hk.
  apply list_elem_of_fmap in Hk as (e & -> & He).
  apply newItemsOf_elem in He as [_ Hnot]. done.
Qed.

Lemma loadNextMerge_app current prevData entries :
  loadNextMerge current prevData entries = prevData ++ newItemsOf current entries.
Proof.
  unfold loadNextMerge. destruct (newItemsOf current entries); [|done].
  by rewrite app_nil_r.
Qed.

Lemma mergeTimeline_keyCount getTime prev entries key :
  key ∈ date <$> (prev ++ entries) →
  keyCount key (mergeTimeline getTime prev entries) = 1%nat.
Proof.
  intros Hin. unfold mergeTimeline.
  rewrite (keyCount_Permutation _ _ _ (sortByDate_Permutation getTime _)).
  set (grouped := foldl pushEntry (foldl setPrev [] prev) entries).
  assert (Hkeyed : keyed grouped).
  { apply foldl_pushEntry_keyed, foldl_setPrev_keyed. constructor. }
  apply keyCount_NoDup; rewrite keyed_dates by done.
  - apply foldl_pushEntry_NoDup, foldl_setPrev_NoDup. constructor.
  - unfold grouped. rewrite foldl_pushEntry_keys, foldl_setPrev_keys.
    rewrite fmap_app, elem_of_app in Hin. tauto.
Qed.

Lemma mergeTimeline_pushed getTime prev entries existing :
  NoDup (date <$> prev) → existing ∈ prev →
  withPushed (date existing) entries existing ∈ mergeTimeline getTime prev entries.
Proof.
  intros Hnd Hin. unfold mergeTimeline.
  rewrite sortByDate_Permutation. unfold mapValues.
  apply list_elem_of_fmap. exists (date existing, withPushed (date existing) entries existing).
  split; [done|]. apply mapGet_Some_elem, mapGet_foldl_pushEntry.
  by apply mapGet_foldl_setPrev.
Qed.

(** C1, as amended. Merging a page never adds a second item under a date the
    sequence already holds. [mergeTimeline] keeps exactly one item with that
    date and pushes the games of the incoming items of that date onto it;
    the [loadNext] variant filters those incoming items out, keeps the
    existing item as it is, and keeps exactly one item with that date. *)
Theorem merge_dedups_by_key getTime prev entries existing :
  NoDup (date <$> prev) → existing ∈ prev →
  keyCount (date existing) (mergeTimeline getTime prev entries) = 1%nat
  ∧ withPushed (date existing) entries existing
      ∈ mergeTimeline getTime prev entries
  ∧ keyCount (date existing) (loadNextMerge prev prev entries) = 1%nat
  ∧ existing ∈ loadNextMerge prev prev entries
  ∧ (∀ incoming, date incoming = date existing →
       incoming ∉ newItemsOf prev entries).
Proof.
  intros Hnd Hin.
  assert (Hkey : date existing ∈ date <$> prev) by by apply list_elem_of_fmap_2.
  split_and!.
  - apply mergeTimeline_keyCount. rewrite fmap_app, elem_of_app. by left.
  - by apply mergeTimeline_pushed.
  - rewrite loadNextMerge_app, keyCount_app, keyCount_newItems by done.
    rewrite keyCount_NoDup by done. done.
  - rewrite loadNextMerge_app, elem_of_app. by left.
  - intros incoming Hd Hnew. apply newItemsOf_elem in Hnew as [_ Hnot].
    by rewrite Hd in Hnot.
Qed.

Lemma merge_dedups_by_key_witness :
  keyCount "2025-01-02" (mergeTimeline IsoDate.getTime [heldGroup] [incomingGroup]) = 1%nat
  ∧ withPushed "2025-01-02" [incomingGroup] heldGroup
      ∈ mergeTimeline IsoDate.getTime [heldGroup] [incomingGroup]
  ∧ keyCount "2025-01-02" (loadNextMerge [heldGroup] [heldGroup] [incomingGroup]) = 1%nat
  ∧ heldGroup ∈ loadNextMerge [heldGroup] [heldGroup] [incomingGroup]
  ∧ (∀ incoming, date incoming = "2025-01-02" →
       incoming ∉ newItemsOf [heldGroup] [incomingGroup]).
Proof.
  apply (merge_dedups_by_key IsoDate.getTime [heldGroup] [incomingGroup] heldGroup).
  - apply NoDup_singleton.
  - apply list_elem_of_singleton. reflexivity.
Defined.

(** C1, counterexample. The sequence holds 2025-01-02 with one game and the
    page brings 2025-01-02 with another: [mergeTimeline] returns one item
    with both games, which is not what it returns when the incoming item is
    left out of the page. The incoming item was merged, not dropped. *)
Lemma mergeTimeline_merges_incoming :
  mergeTimeline IsoDate.getTime [heldGroup] [incomingGroup]
  = [ {| date := "2025-01-02"; displayDate := "2025-01-02";
         games := [gameA; gameB] |} ]
  ∧ mergeTimeline IsoDate.getTime [heldGroup] [incomingGroup]
    ≠ mergeTimeline IsoDate.getTime [heldGroup] [].
Proof.
  split; [reflexivity|]. vm_compute. discriminate.
Qed.

End MergeClaims.

(** ** The offset table and the index search *)
Module LayoutFacts.
Import Layout.
Local Open Scope Q_scope.

Lemma offsetsFrom_length heights count todo i current :
  length (offsetsFrom heights count i todo current) = todo.
Proof.
  revert i current. induction todo as [|todo IH]; intros i current; simpl; [done|].
  by rewrite IH.
Qed.

Lemma offsets_length count heights : length (offsets count heights) = S count.
Proof. unfold offsets. simpl. by rewrite offsetsFrom_length. Qed.

Lemma offsetsFrom_step heights count todo i current k a :
  (k < todo)%nat →
  (current :: offsetsFrom heights count i todo current) !! k = Some a →
  (current :: offsetsFrom heights count i todo current) !! S k
  = Some (a + getItemHeight heights (i + k)
            + (if (i + k =? count - 1)%nat then 0 else ITEM_GAP)).
Proof.
  revert i current k a. induction todo as [|todo IH]; intros i current k a Hk Hlook.
  - lia.
  - destruct k as [|k]; simpl in *.
    + injection Hlook as <-. by rewrite Nat.add_0_r.
    + replace (i + S k)%nat with (S i + k)%nat by lia.
      apply (IH (S i)); [lia|done].
Qed.

Lemma offsets_step count heights i :
  (i < count)%nat →
  ∃ a, offsets count heights !! i = Some a
     ∧ offsets count heights !! S i
       = Some (a + getItemHeight heights i
                 + (if (i =? count - 1)%nat then 0 else ITEM_GAP)).
Proof.
  intros Hi.
  destruct (lookup_lt_is_Some_2 (offsets count heights) i) as [a Ha].
  { rewrite offsets_length. lia. }
  exists a. split; [done|].
  unfold offsets in *. by apply (offsetsFrom_step heights count count 0 0 i a).
Qed.

(** C2, as amended. The table starts at 0 and every entry adds the height of
    its item and the gap to the previous one, except that no gap follows the
    last item. *)
Theorem offsets_recurrence count heights i :
  (i < count)%nat →
  offsets count heights !! 0%nat = Some 0
  ∧ ∃ a, offsets count heights !! i = Some a
       ∧ offsets count heights !! S i
         = Some (a + getItemHeight heights i
                   + (if (i =? count - 1)%nat then 0 else ITEM_GAP)).
Proof. intros Hi. split; [done|]. by apply offsets_step. Qed.

Lemma offsets_recurrence_witness :
  offsets 2 ∅ !! 0%nat = Some 0
  ∧ ∃ a, offsets 2 ∅ !! 0%nat = Some a
       ∧ offsets 2 ∅ !! 1%nat
         = Some (a + getItemHeight ∅ 0
                   + (if (0 =? 2 - 1)%nat then 0 else ITEM_GAP)).
Proof. apply (offsets_recurrence 2 ∅ 0). lia. Defined.

(** C2, counterexample. One item of unmeasured height: the table is
    [0; 260], so its last entry is not the previous entry plus the height
    plus the gap, which would be 292. *)
Lemma offsets_no_gap_after_last :
  offsets 1 ∅ !! 0%nat = Some 0
  ∧ offsets 1 ∅ !! 1%nat = Some 260
  ∧ ¬ 260 == 0 + getItemHeight ∅ 0 + ITEM_GAP.
Proof. split_and!; [reflexivity..|]. vm_compute. discriminate. Qed.

Lemma getItemHeight_pos heights index :
  positiveHeights heights → 0 < getItemHeight heights index.
Proof.
  intros Hpos. unfold getItemHeight.
  destruct (heights !! index) as [h|] eqn:E; simpl.
  - by apply (Hpos index).
  - reflexivity.
Qed.

Lemma measureItem_positive index height heights :
  positiveHeights heights → positiveHeights (measureItem index height heights).1.
Proof.
  intros Hpos. unfold measureItem.
  destruct (Qle_bool height 0) eqn:E; simpl; [done|].
  destruct (match heights !! index with Some prev => _ | None => _ end); simpl; [|done].
  apply map_Forall_insert_2; [|done].
  apply Qnot_le_lt. intros Hle. apply Qle_bool_iff in Hle. congruence.
Qed.

Lemma offsets_increasing_step count heights i a b :
  positiveHeights heights →
  offsets count heights !! i = Some a → offsets count heights !! S i = Some b →
  a < b.
Proof.
  intros Hpos Ha Hb.
  assert (Hi : (i < count)%nat).
  { apply lookup_lt_Some in Hb. rewrite offsets_length in Hb. lia. }
  destruct (offsets_step count heights i Hi) as (a' & Ha' & Hb').
  rewrite Ha in Ha'. injection Ha' as <-. rewrite Hb in Hb'. injection Hb' as ->.
  pose proof (getItemHeight_pos heights i Hpos).
  destruct (i =? count - 1)%nat; unfold ITEM_GAP; lra.
Qed.

Lemma offsets_monotone count heights i j a b :
  positiveHeights heights → (i ≤ j)%nat →
  offsets count heights !! i = Some a → offsets count heights !! j = Some b →
  a <= b.
Proof.
  intros Hpos Hij Ha. revert b. induction Hij as [|j Hij IH]; intros b Hb.
  - rewrite Ha in Hb. injection Hb as <-. lra.
  - destruct (lookup_lt_is_Some_2 (offsets count heights) j) as [c Hc].
    { apply lookup_lt_Some in Hb. lia. }
    pose proof (IH c Hc).
    pose proof (offsets_increasing_step _ _ _ _ _ Hpos Hc Hb). lra.
Qed.

(** The loop of [findIndexForOffset] on a table whose [offsetLe] test is
    downward closed: it stops at the first index of the range that fails the
    test. *)
Lemma searchLoop_spec offs offset low high :
  (low ≤ high)%nat →
  (∀ k k', (k ≤ k')%nat → (k' < high)%nat →
     offsetLe offs k' offset = true → offsetLe offs k offset = true) →
  let r := searchLoop offs offset low high in
  (low ≤ r ≤ high)%nat
  ∧ (∀ k, (low ≤ k < r)%nat → offsetLe offs k offset = true)
  ∧ (∀ k, (r ≤ k < high)%nat → offsetLe offs k offset = false).
Proof.
  funelim (searchLoop offs offset low high); intros Hle Hmono; cbn zeta.
  - (* the loop is over *)
    split; [lia|split; intros; lia].
  - (* offsets[mid] <= offset *)
    pose proof (midpoint_bounds low high l) as Hmid.
    match goal with
    | IH : (_ ≤ _)%nat → _ → _, Hmidle : offsetLe _ _ _ = true |- _ =>
        destruct IH as (Hr & Hlo & Hhi); [lia|done|];
        split; [lia|split; [|done]];
        intros k Hk;
        destruct (decide (k ≤ midpoint low high)%nat) as [Hkm|Hkm];
        [ apply (Hmono k (midpoint low high)); [done|lia|done]
        | apply Hlo; lia ]
    end.
  - (* offset < offsets[mid] *)
    pose proof (midpoint_bounds low high l) as Hmid.
    match goal with
    | IH : (_ ≤ _)%nat → _ → _, Hmidgt : offsetLe _ _ _ = false |- _ =>
        destruct IH as (Hr & Hlo & Hhi);
        [ lia | intros k k' Hkk Hk'; apply Hmono; [done|lia] | ];
        split; [lia|split; [done|]];
        intros k Hk;
        destruct (decide (k < midpoint low high)%nat) as [Hkm|Hkm];
        [ apply Hhi; lia | ];
        destruct (offsetLe offs k offset) eqn:E; [|done];
        rewrite (Hmono (midpoint low high) k) in Hmidgt; [done|lia|lia|done]
    end.
Qed.

Lemma offsetLe_true offs k offset :
  offsetLe offs k offset = true ↔ ∃ v, offs !! k = Some v ∧ v <= offset.
Proof.
  unfold offsetLe. destruct (offs !! k) as [v|].
  - rewrite Qle_bool_iff. split; [by exists v|by intros (? & [= <-] & ?)].
  - split; [done|by intros (? & ? & _)].
Qed.

Lemma offsetLe_downward count heights offset k k' :
  positiveHeights heights → (k ≤ k')%nat →
  offsetLe (offsets count heights) k' offset = true →
  offsetLe (offsets count heights) k offset = true.
Proof.
  intros Hpos Hkk. rewrite !offsetLe_true. intros (b & Hb & Hle).
  destruct (lookup_lt_is_Some_2 (offsets count heights) k) as [a Ha].
  { apply lookup_lt_Some in Hb. lia. }
  exists a. split; [done|].
  pose proof (offsets_monotone _ _ _ _ _ _ Hpos Hkk Ha Hb). lra.
Qed.

Lemma totalHeight_offsets count heights :
  offsets count heights !! count = Some (totalHeight (offsets count heights)).
Proof.
  unfold totalHeight. rewrite last_lookup, offsets_length. simpl.
  destruct (lookup_lt_is_Some_2 (offsets count heights) count) as [t Ht].
  { rewrite offsets_length. lia. }
  by rewrite Ht.
Qed.

Lemma findIndexForOffset_zero count heights :
  positiveHeights heights → findIndexForOffset (offsets count heights) 0 = 0%nat.
Proof.
  intros Hpos. unfold findIndexForOffset. rewrite offsets_length.
  replace (S count - 1)%nat with count by lia.
  destruct (searchLoop_spec (offsets count heights) 0 0 count) as (Hr & Hlo & Hhi);
    [lia|intros; by eapply offsetLe_downward|].
  set (r := searchLoop (offsets count heights) 0 0 count) in *.
  destruct (decide (r ≤ 1)%nat) as [|Hbig]; [lia|]. exfalso.
  (* offsets[1] > 0, so the loop cannot have passed index 1 *)
  assert (Hone : offsetLe (offsets count heights) 1 0 = true) by (apply Hlo; lia).
  apply offsetLe_true in Hone as (b & Hb & Hle).
  assert (H0 : offsets count heights !! 0%nat = Some 0) by done.
  pose proof (offsets_increasing_step _ _ _ _ _ Hpos H0 Hb). lra.
Qed.

Lemma findIndexForOffset_total count heights :
  positiveHeights heights → (0 < count)%nat →
  findIndexForOffset (offsets count heights) (totalHeight (offsets count heights))
  = (count - 1)%nat.
Proof.
  intros Hpos Hcount. unfold findIndexForOffset. rewrite offsets_length.
  replace (S count - 1)%nat with count by lia.
  set (total := totalHeight (offsets count heights)).
  destruct (searchLoop_spec (offsets count heights) total 0 count) as (Hr & Hlo & Hhi);
    [lia|intros; by eapply offsetLe_downward|].
  set (r := searchLoop (offsets count heights) total 0 count) in *.
  destruct (decide (r = count)) as [->|Hne]; [lia|]. exfalso.
  (* every entry is at most the last one, so the loop cannot stop early *)
  assert (Hfalse : offsetLe (offsets count heights) r total = false) by (apply Hhi; lia).
  assert (Htrue : offsetLe (offsets count heights) count total = true).
  { apply offsetLe_true. exists total. split; [apply totalHeight_offsets|lra]. }
  rewrite (offsetLe_downward count heights total r count) in Hfalse; [done|done|lia|done].
Qed.

(** C4. With measured heights positive, as [measureItem] keeps them, the
    offset table has [count + 1] entries and never decreases; the index for
    offset 0 is 0; and for a non-empty sequence the index for the total
    height is [count - 1]. *)
Theorem offsets_invariants count heights :
  positiveHeights heights →
  length (offsets count heights) = (count + 1)%nat
  ∧ (∀ i j a b, (i ≤ j)%nat →
       offsets count heights !! i = Some a →
       offsets count heights !! j = Some b → a <= b)
  ∧ findIndexForOffset (offsets count heights) 0 = 0%nat
  ∧ ((0 < count)%nat →
     findIndexForOffset (offsets count heights)
       (totalHeight (offsets count heights)) = (count - 1)%nat).
Proof.
  intros Hpos. split_and!.
  - rewrite offsets_length. lia.
  - intros i j a b. by apply offsets_monotone.
  - by apply findIndexForOffset_zero.
  - by apply findIndexForOffset_total.
Qed.

Lemma offsets_invariants_witness :
  length (offsets 3 {[1%nat := 300]}) = (3 + 1)%nat
  ∧ (∀ i j a b, (i ≤ j)%nat →
       offsets 3 {[1%nat := 300]} !! i = Some a →
       offsets 3 {[1%nat := 300]} !! j = Some b → a <= b)
  ∧ findIndexForOffset (offsets 3 {[1%nat := 300]}) 0 = 0%nat
  ∧ ((0 < 3)%nat →
     findIndexForOffset (offsets 3 {[1%nat := 300]})
       (totalHeight (offsets 3 {[1%nat := 300]})) = (3 - 1)%nat).
Proof.
  apply (offsets_invariants 3 {[1%nat := 300]}).
  apply map_Forall_singleton. reflexivity.
Defined.

Example offsets_three : offsets 3 {[1%nat := 300]} = [0; 292; 624; 884].
Proof. reflexivity. Qed.

Example findIndexForOffset_inside :
  findIndexForOffset (offsets 3 {[1%nat := 300]}) 300 = 1%nat.
Proof. reflexivity. Qed.

(** The final [low] of the search over the whole table. *)
Lemma searchLoop_offsets count heights x :
  positiveHeights heights →
  let L := searchLoop (offsets count heights) x 0 count in
  (L ≤ count)%nat
  ∧ (∀ k, (k < L)%nat → ∃ a, offsets count heights !! k = Some a ∧ a <= x)
  ∧ (∀ k b, (L ≤ k < count)%nat → offsets count heights !! k = Some b → x < b).
Proof.
  intros Hpos L.
  destruct (searchLoop_spec (offsets count heights) x 0 count) as (Hr & Hlo & Hhi);
    [lia|intros; by eapply offsetLe_downward|].
  fold L in Hr, Hlo, Hhi. split; [lia|]. split.
  - intros k Hk. apply offsetLe_true. apply Hlo. lia.
  - intros k b Hk Hb.
    assert (Hf : offsetLe (offsets count heights) k x = false) by (apply Hhi; lia).
    unfold offsetLe in Hf. rewrite Hb in Hf.
    apply Qnot_le_lt. intros Hle. apply Qle_bool_iff in Hle. congruence.
Qed.

Lemma findIndexForOffset_loop count heights x :
  findIndexForOffset (offsets count heights) x
  = (searchLoop (offsets count heights) x 0 count - 1)%nat.
Proof.
  unfold findIndexForOffset. rewrite offsets_length.
  replace (S count - 1)%nat with count by lia. lia.
Qed.

Lemma findIndexForOffset_item count heights x :
  positiveHeights heights → (0 < count)%nat →
  (findIndexForOffset (offsets count heights) x < count)%nat
  ∧ (x < 0 → findIndexForOffset (offsets count heights) x = 0%nat)
  ∧ (0 <= x →
     ∃ a, offsets count heights !! findIndexForOffset (offsets count heights) x = Some a
          ∧ a <= x)
  ∧ (x < totalHeight (offsets count heights) →
     ∃ b, offsets count heights !! S (findIndexForOffset (offsets count heights) x) = Some b
          ∧ x < b)
  ∧ (totalHeight (offsets count heights) <= x →
     findIndexForOffset (offsets count heights) x = (count - 1)%nat).
Proof.
  intros Hpos Hcount. rewrite findIndexForOffset_loop.
  destruct (searchLoop_offsets count heights x Hpos) as (HL & Hlo & Hhi).
  set (L := searchLoop (offsets count heights) x 0 count) in *.
  assert (H0 : offsets count heights !! 0%nat = Some 0) by done.
  pose proof (totalHeight_offsets count heights) as Htotal.
  split_and!.
  - lia.
  - intros Hx. destruct (decide (L = 0)%nat) as [->|HL0]; [done|].
    destruct (Hlo 0%nat) as (a & Ha & Hle); [lia|].
    rewrite H0 in Ha. injection Ha as <-. lra.
  - intros Hx. assert (HL1 : (1 ≤ L)%nat).
    { destruct (decide (L = 0)%nat) as [HL0|]; [|lia].
      assert (x < 0); [|lra]. apply (Hhi 0%nat 0); [lia|done]. }
    apply Hlo. lia.
  - intros Hx. destruct (decide (L = 0)%nat) as [HL0|HL0].
    + rewrite HL0. cbn [Nat.sub].
      destruct (lookup_lt_is_Some_2 (offsets count heights) 1) as [b Hb].
      { rewrite offsets_length. lia. }
      exists b. split; [done|].
      assert (x < 0) by (apply (Hhi 0%nat 0); [lia|done]).
      pose proof (offsets_increasing_step _ _ _ _ _ Hpos H0 Hb). lra.
    + replace (S (L - 1)) with L by lia.
      destruct (lookup_lt_is_Some_2 (offsets count heights) L) as [b Hb].
      { rewrite offsets_length. lia. }
      exists b. split; [done|].
      destruct (decide (L < count)%nat); [apply (Hhi L b); [lia|done]|].
      assert (L = count) as HLc by lia. rewrite HLc in Hb.
      rewrite Htotal in Hb. injection Hb as <-. done.
  - intros Hx. destruct (decide (L = count)) as [->|HLc]; [done|].
    destruct (lookup_lt_is_Some_2 (offsets count heights) L) as [b Hb].
    { rewrite offsets_length. lia. }
    assert (x < b) by (apply (Hhi L b); [lia|done]).
    pose proof (offsets_monotone count heights L count b _ Hpos ltac:(lia) Hb Htotal).
    lra.
Qed.

(** A greater offset never gets a smaller index. *)
Lemma findIndexForOffset_mono count heights x y :
  positiveHeights heights → x <= y →
  (findIndexForOffset (offsets count heights) x
   ≤ findIndexForOffset (offsets count heights) y)%nat.
Proof.
  intros Hpos Hxy. rewrite !findIndexForOffset_loop.
  destruct (searchLoop_offsets count heights x Hpos) as (HLx & Hlox & Hhix).
  destruct (searchLoop_offsets count heights y Hpos) as (HLy & Hloy & Hhiy).
  set (Lx := searchLoop (offsets count heights) x 0 count) in *.
  set (Ly := searchLoop (offsets count heights) y 0 count) in *.
  destruct (decide (Lx ≤ Ly)%nat); [lia|]. exfalso.
  destruct (Hlox Ly) as (a & Ha & Hle); [lia|].
  assert (y < a) by (apply (Hhiy Ly a); [lia|done]). lra.
Qed.

End LayoutFacts.

(** ** The visible window and the centred jump *)
Module WindowFacts.
Import Layout LayoutFacts.
Local Open Scope Q_scope.

(** The scan keeps the last index whose offset is not above [x]. *)
Lemma greatestAtMost_best offs x i b : greatestAtMost offs x i (Some b) ≠ None.
Proof.
  revert i b. induction offs as [|u offs IH]; intros i b; [done|].
  cbn [greatestAtMost]. destruct (Qle_bool u x); apply IH.
Qed.

Lemma greatestAtMost_None offs x i :
  greatestAtMost offs x i None = None →
  ∀ j v, offs !! j = Some v → ¬ v <= x.
Proof.
  revert i. induction offs as [|w offs IH]; intros i Hnone j v Hj; [done|].
  cbn [greatestAtMost] in Hnone.
  destruct (Qle_bool w x) eqn:Hw.
  - by apply greatestAtMost_best in Hnone.
  - destruct j as [|j].
    + injection Hj as <-. intros Hle. apply Qle_bool_iff in Hle. congruence.
    + by eapply IH.
Qed.

Lemma greatestAtMost_Some offs x i best g :
  greatestAtMost offs x i best = Some g →
  (best = Some g ∧ ∀ j v, offs !! j = Some v → ¬ v <= x)
  ∨ (∃ j v, g = (i + j)%nat ∧ offs !! j = Some v ∧ v <= x
            ∧ ∀ j' v', (j < j')%nat → offs !! j' = Some v' → ¬ v' <= x).
Proof.
  revert i best. induction offs as [|w offs IH]; intros i best Hg.
  - left. by split.
  - cbn [greatestAtMost] in Hg. destruct (Qle_bool w x) eqn:Hw.
    + right. destruct (IH _ _ Hg) as [[Hbest Hnone]|(j & v & -> & Hj & Hv & Hlast)].
      * injection Hbest as <-. exists 0%nat, w.
        split; [lia|]. split; [done|]. split; [by apply Qle_bool_iff|].
        intros j' v' Hlt Hj'. destruct j' as [|j']; [lia|]. by eapply Hnone.
      * exists (S j), v. split; [lia|]. split; [done|]. split; [done|].
        intros j' v' Hlt Hj'. destruct j' as [|j']; [lia|].
        apply (Hlast j' v'); [lia|done].
    + destruct (IH _ _ Hg) as [[Hbest Hnone]|(j & v & -> & Hj & Hv & Hlast)].
      * left. split; [done|]. intros j v Hj. destruct j as [|j].
        -- injection Hj as <-. intros Hle. apply Qle_bool_iff in Hle. congruence.
        -- by eapply Hnone.
      * right. exists (S j), v. split; [lia|]. split; [done|]. split; [done|].
        intros j' v' Hlt Hj'. destruct j' as [|j']; [lia|].
        apply (Hlast j' v'); [lia|done].
Qed.

(** On the offset table of a sequence the binary search of the code finds
    the index the specification describes. *)
Lemma findIndexForOffset_spec count heights x :
  positiveHeights heights → (0 < count)%nat →
  findIndexForOffset (offsets count heights) x
  = specIndexForOffset count (offsets count heights) x.
Proof.
  intros Hpos Hcount.
  destruct (findIndexForOffset_item count heights x Hpos Hcount)
    as (Hlt & Hneg & Hlo & Hhi & Hlast).
  set (k := findIndexForOffset (offsets count heights) x) in *.
  assert (H0 : offsets count heights !! 0%nat = Some 0) by done.
  pose proof (totalHeight_offsets count heights) as Htotal.
  unfold specIndexForOffset.
  destruct (greatestAtMost (offsets count heights) x 0 None) as [g|] eqn:Hg.
  - apply greatestAtMost_Some in Hg
      as [[? _]|(j & v & -> & Hj & Hv & Hafter)]; [done|].
    cbn [default from_option]. unfold id. rewrite Nat.add_0_l.
    assert (Hjlen : (j ≤ count)%nat).
    { apply lookup_lt_Some in Hj. rewrite offsets_length in Hj. lia. }
    assert (Hx : 0 <= x).
    { pose proof (offsets_monotone count heights 0 j 0 v Hpos ltac:(lia) H0 Hj). lra. }
    destruct (Hlo Hx) as (a & Ha & Hax).
    assert (Hkj : (k ≤ j)%nat).
    { destruct (decide (k ≤ j)%nat); [done|]. exfalso.
      apply (Hafter k a); [lia|done|done]. }
    destruct (Qlt_le_dec x (totalHeight (offsets count heights))) as [Hin|Hout].
    + destruct (Hhi Hin) as (b & Hb & Hxb).
      destruct (decide (j ≤ k)%nat) as [|Hgt]; [lia|]. exfalso.
      assert (Hnext : (S k ≤ j)%nat) by lia.
      pose proof (offsets_monotone count heights (S k) j b v Hpos Hnext Hb Hj). lra.
    + rewrite (Hlast Hout) in *.
      destruct (decide (j = count)) as [->|Hne]; [lia|]. exfalso.
      apply (Hafter count (totalHeight (offsets count heights))); [lia|done|done].
  - cbn [default from_option]. rewrite Nat.min_0_l.
    apply Hneg. apply Qnot_le_lt. by apply (greatestAtMost_None _ _ _ Hg 0%nat 0).
Qed.

(** C5. The window starts at the index of the offset [overscan] above the
    viewport (not above 0) and ends at the index of the offset [overscan]
    below it, capped at the last item, the index of an offset being the one
    the specification describes: the greatest [i] with [offsets[i] <= x],
    clamped to [[0, count - 1]]. An empty sequence has the window
    [{start: 0, end: -1}] whatever the scroll position. *)
Theorem visibleRange_window count heights scrollTop viewportHeight :
  positiveHeights heights →
  (count = 0%nat →
   visibleRange count (offsets count heights) scrollTop viewportHeight
   = {| range_start := 0; range_end := -1 |})
  ∧ (count ≠ 0%nat →
     range_start (visibleRange count (offsets count heights) scrollTop viewportHeight)
     = Z.of_nat (specIndexForOffset count (offsets count heights)
                   (Qmax 0 (scrollTop - OVERSCAN_PX)))
     ∧ range_end (visibleRange count (offsets count heights) scrollTop viewportHeight)
       = Z.min (Z.of_nat count - 1)
               (Z.of_nat (specIndexForOffset count (offsets count heights)
                            (scrollTop + viewportHeight + OVERSCAN_PX)))).
Proof.
  intros Hpos. split.
  - by intros ->.
  - intros Hne. rewrite <- !findIndexForOffset_spec by (done || lia).
    unfold visibleRange. destruct (Nat.eqb_spec count 0); done.
Qed.

(** Twelve unmeasured items in a 600px viewport scrolled to 2000px: the
    window runs from the item holding offset 800 to the last item. *)
Lemma visibleRange_window_witness :
  range_start (visibleRange 12 (offsets 12 ∅) 2000 600) = 2%Z
  ∧ range_end (visibleRange 12 (offsets 12 ∅) 2000 600) = 11%Z.
Proof.
  destruct (visibleRange_window 12 ∅ 2000 600) as [_ Hrange].
  - apply map_Forall_empty.
  - destruct Hrange as [-> ->]; [lia|]. split; reflexivity.
Defined.

Lemma clamp_isClampOf lo hi x :
  lo <= hi → isClampOf lo hi x (Qmin (Qmax x lo) hi).
Proof.
  intros Hle. unfold isClampOf.
  destruct (Q.max_spec x lo) as [[? Hmax]|[? Hmax]];
    destruct (Q.min_spec (Qmax x lo) hi) as [[? Hmin]|[? Hmin]];
    rewrite Hmin; rewrite ?Hmax in *; repeat split; intros; lra.
Qed.




Example getScrollTarget_middle :
  match getScrollTarget (Some {| clientHeight := 600; el_scrollTop := 0 |})
          (offsets 3 ∅) ∅ 1 with
  | Some target => clamped target == 122
  | None => False
  end.
Proof. vm_compute. reflexivity. Qed.

(** One unmeasured item in a 600px viewport: the content is shorter than
    the viewport and the jump goes to offset 0. *)
Example getScrollTarget_short_content :
  match getScrollTarget (Some {| clientHeight := 600; el_scrollTop := 0 |})
          (offsets 1 ∅) ∅ 0 with
  | Some target => clamped target == 0
  | None => False
  end.
Proof. vm_compute. reflexivity. Qed.

End WindowFacts.

(** ** The pending-snap effect *)
Module JumpFacts.
Import Layout Jump Examples.
Local Open Scope Q_scope.

(** The cases of one run on a pending request, once the sequence is not
    empty and the scroll element is mounted. *)
Lemma pendingSnapEffect_cases view pending target :
  view_timelineLength view ≠ 0%nat →
  getScrollTarget (view_scrollRef view) (view_offsets view) (view_heights view)
    (snap_index pending) = Some target →
  pendingSnapEffect view (Some pending)
  = if Qle_bool (Qabs (view_scrollTop view - clamped target)) 2 then discarded
    else if (remaining pending <=? 0)%Z then discarded
    else if (view_measureVersion view =? lastMeasureVersion pending)%Z
    then {| pendingSnapRef := Some pending; snappedTo := None |}
    else {| pendingSnapRef :=
              Some {| snap_index := snap_index pending;
                      remaining := (remaining pending - 1)%Z;
                      lastMeasureVersion := view_measureVersion view |};
            snappedTo := Some (clamped target) |}.
Proof.
  intros Hlen Htarget. unfold pendingSnapEffect.
  destruct (Nat.eqb_spec (view_timelineLength view) 0); [done|].
  by rewrite Htarget.
Qed.

(** A run that forces an offset spends one attempt and records the epoch. *)
Lemma pendingSnapEffect_snapped view pending offset :
  snappedTo (pendingSnapEffect view (Some pending)) = Some offset →
  (0 < remaining pending)%Z
  ∧ view_measureVersion view ≠ lastMeasureVersion pending
  ∧ pendingSnapRef (pendingSnapEffect view (Some pending))
    = Some {| snap_index := snap_index pending;
              remaining := (remaining pending - 1)%Z;
              lastMeasureVersion := view_measureVersion view |}.
Proof.
  unfold pendingSnapEffect.
  destruct (view_timelineLength view =? 0)%nat; [done|].
  destruct (getScrollTarget _ _ _ _) as [target|]; [|done].
  destruct (Qle_bool _ 2); [done|].
  destruct (Z.leb_spec (remaining pending) 0); [done|].
  destruct (Z.eqb_spec (view_measureVersion view) (lastMeasureVersion pending)); [done|].
  intros _. split_and!; [lia|done|done].
Qed.

(** A run that forces nothing leaves the request as it is or discards it. *)
Lemma pendingSnapEffect_quiet view pending :
  snappedTo (pendingSnapEffect view (Some pending)) = None →
  pendingSnapRef (pendingSnapEffect view (Some pending)) = Some pending
  ∨ pendingSnapRef (pendingSnapEffect view (Some pending)) = None.
Proof.
  unfold pendingSnapEffect.
  destruct (view_timelineLength view =? 0)%nat; [by right|].
  destruct (getScrollTarget _ _ _ _) as [target|]; [|by right].
  destruct (Qle_bool _ 2); [by right|].
  destruct (remaining pending <=? 0)%Z; [by right|].
  destruct (view_measureVersion view =? lastMeasureVersion pending)%Z; [by left|done].
Qed.

Lemma pendingSnapEffect_exhausted view pending :
  (remaining pending ≤ 0)%Z → pendingSnapEffect view (Some pending) = discarded.
Proof.
  intros Hrem. unfold pendingSnapEffect.
  destruct (view_timelineLength view =? 0)%nat; [done|].
  destruct (getScrollTarget _ _ _ _) as [target|]; [|done].
  destruct (Qle_bool _ 2); [done|].
  destruct (Z.leb_spec (remaining pending) 0); [done|lia].
Qed.

Lemma runSnapEffect_none views : runSnapEffect views None = (None, []).
Proof. induction views as [|view views IH]; [done|]. simpl. by rewrite IH. Qed.

Lemma runSnapEffect_cons view views pendingRef :
  runSnapEffect (view :: views) pendingRef
  = ((runSnapEffect views (pendingSnapRef (pendingSnapEffect view pendingRef))).1,
     match snappedTo (pendingSnapEffect view pendingRef) with
     | Some o => o :: (runSnapEffect views (pendingSnapRef (pendingSnapEffect view pendingRef))).2
     | None => (runSnapEffect views (pendingSnapRef (pendingSnapEffect view pendingRef))).2
     end).
Proof.
  cbn [runSnapEffect].
  by destruct (runSnapEffect views (pendingSnapRef (pendingSnapEffect view pendingRef))).
Qed.

(** The attempts bound the forced offsets of any sequence of runs. *)
Lemma runSnapEffect_budget views pending :
  (length (runSnapEffect views (Some pending)).2 ≤ Z.to_nat (remaining pending))%nat
  ∧ ∀ final, (runSnapEffect views (Some pending)).1 = Some final →
      remaining final
      = (remaining pending - Z.of_nat (length (runSnapEffect views (Some pending)).2))%Z.
Proof.
  revert pending. induction views as [|view views IH]; intros pending.
  - simpl. split; [lia|]. intros final [= <-]. lia.
  - rewrite runSnapEffect_cons. cbn [fst snd].
    destruct (snappedTo (pendingSnapEffect view (Some pending))) as [offset|] eqn:Hsnap.
    + apply pendingSnapEffect_snapped in Hsnap as (Hpos & _ & ->).
      destruct (IH {| snap_index := snap_index pending;
                      remaining := (remaining pending - 1)%Z;
                      lastMeasureVersion := view_measureVersion view |})
        as [Hlen Hrem].
      cbn [remaining] in *. split; [cbn [length]; lia|].
      intros f Hf. rewrite (Hrem f Hf). cbn [length]. lia.
    + destruct (pendingSnapEffect_quiet _ _ Hsnap) as [-> | ->].
      * apply IH.
      * rewrite runSnapEffect_none. simpl. split; [lia|done].
Qed.

(** While the epoch is the one the request has recorded, no run forces
    anything. *)
Lemma runSnapEffect_same_epoch views pending :
  Forall (λ view, view_measureVersion view = lastMeasureVersion pending) views →
  (runSnapEffect views (Some pending)).2 = [].
Proof.
  induction 1 as [|view views Hv _ IH]; [done|].
  rewrite runSnapEffect_cons. cbn [snd].
  destruct (snappedTo (pendingSnapEffect view (Some pending))) as [offset|] eqn:Hsnap.
  - apply pendingSnapEffect_snapped in Hsnap as (_ & Hne & _). done.
  - destruct (pendingSnapEffect_quiet _ _ Hsnap) as [-> | ->].
    + apply IH.
    + by rewrite runSnapEffect_none.
Qed.

(** C7. On an epoch change a pending request is discarded as converged when
    the recomputed target is within tolerance of the scroll offset, and
    otherwise, while attempts remain, spends one attempt, records the epoch
    and snaps to the new target. It forces nothing on the epoch it has
    recorded, so never twice on one epoch. Over any sequence of runs it
    snaps at most [remaining] times (3 for a registered request), and once
    the attempts are used up the next run discards it, converged or not. *)
Theorem pending_snap_protocol pending view target views :
  view_timelineLength view ≠ 0%nat →
  getScrollTarget (view_scrollRef view) (view_offsets view) (view_heights view)
    (snap_index pending) = Some target →
  (epochChanged view pending →
     (withinTolerance view target →
        pendingSnapEffect view (Some pending) = discarded)
     ∧ (¬ withinTolerance view target → (0 < remaining pending)%Z →
        pendingSnapEffect view (Some pending)
        = {| pendingSnapRef :=
               Some {| snap_index := snap_index pending;
                       remaining := (remaining pending - 1)%Z;
                       lastMeasureVersion := view_measureVersion view |};
             snappedTo := Some (clamped target) |}))
  ∧ (¬ epochChanged view pending →
       snappedTo (pendingSnapEffect view (Some pending)) = None)
  ∧ (∀ view' after,
       pendingSnapRef (pendingSnapEffect view (Some pending)) = Some after →
       is_Some (snappedTo (pendingSnapEffect view (Some pending))) →
       view_measureVersion view' = view_measureVersion view →
       snappedTo (pendingSnapEffect view' (Some after)) = None)
  ∧ (Forall (λ v, ¬ epochChanged v pending) views →
       (runSnapEffect views (Some pending)).2 = [])
  ∧ (length (runSnapEffect views (Some pending)).2
       ≤ Z.to_nat (remaining pending))%nat
  ∧ (∀ index version,
       (length (runSnapEffect views (Some (registerSnap index version))).2 ≤ 3)%nat)
  ∧ (∀ final, (runSnapEffect views (Some pending)).1 = Some final →
       remaining final
       = (remaining pending
          - Z.of_nat (length (runSnapEffect views (Some pending)).2))%Z)
  ∧ ((remaining pending ≤ 0)%Z →
       pendingSnapEffect view (Some pending) = discarded
       ∧ runSnapEffect (view :: views) (Some pending) = (None, [])).
Proof.
  intros Hlen Htarget.
  pose proof (pendingSnapEffect_cases view pending target Hlen Htarget) as Hcases.
  split_and!.
  - intros Hepoch. split.
    + intros Hin. rewrite Hcases.
      unfold withinTolerance in Hin. apply Qle_bool_iff in Hin. by rewrite Hin.
    + intros Hout Hpos. rewrite Hcases.
      destruct (Qle_bool _ 2) eqn:Hq.
      { apply Qle_bool_iff in Hq. done. }
      destruct (Z.leb_spec (remaining pending) 0); [lia|].
      destruct (Z.eqb_spec (view_measureVersion view) (lastMeasureVersion pending));
        done.
  - intros Hsame.
    destruct (snappedTo (pendingSnapEffect view (Some pending))) eqn:Hsnap; [|done].
    apply pendingSnapEffect_snapped in Hsnap as (_ & Hne & _). done.
  - intros view' after Hafter [offset Hsnap] Hversion.
    apply pendingSnapEffect_snapped in Hsnap as (_ & _ & Hnew).
    rewrite Hnew in Hafter. injection Hafter as <-.
    destruct (snappedTo (pendingSnapEffect view' _)) eqn:Hsnap'; [|done].
    apply pendingSnapEffect_snapped in Hsnap' as (_ & Hne & _). done.
  - intros Hsame. apply runSnapEffect_same_epoch.
    eapply Forall_impl; [exact Hsame|]. intros v Hv. unfold epochChanged in Hv.
    destruct (decide (view_measureVersion v = lastMeasureVersion pending)); done.
  - apply runSnapEffect_budget.
  - intros index version.
    apply (runSnapEffect_budget views (registerSnap index version)).
  - apply runSnapEffect_budget.
  - intros Hrem. split; [by apply pendingSnapEffect_exhausted|].
    rewrite runSnapEffect_cons, pendingSnapEffect_exhausted by done.
    cbn [discarded pendingSnapRef snappedTo]. by rewrite runSnapEffect_none.
Qed.

Lemma pending_snap_protocol_witness :
  view_timelineLength (farView 1) ≠ 0%nat
  ∧ getScrollTarget (view_scrollRef (farView 1)) (view_offsets (farView 1))
      (view_heights (farView 1)) (snap_index (registerSnap 1 0)) = Some farTarget
  ∧ pendingSnapEffect (farView 1) (Some (registerSnap 1 0))
    = {| pendingSnapRef :=
           Some {| snap_index := 1; remaining := 2; lastMeasureVersion := 1 |};
         snappedTo := Some (clamped farTarget) |}
  ∧ (length (runSnapEffect [farView 1; farView 2; farView 3; farView 4]
               (Some (registerSnap 1 0))).2 ≤ 3)%nat.
Proof.
  assert (Hlen : view_timelineLength (farView 1) ≠ 0%nat) by (simpl; lia).
  assert (Htarget :
    getScrollTarget (view_scrollRef (farView 1)) (view_offsets (farView 1))
      (view_heights (farView 1)) (snap_index (registerSnap 1 0)) = Some farTarget)
    by reflexivity.
  split; [exact Hlen|]. split; [exact Htarget|].
  destruct (pending_snap_protocol (registerSnap 1 0) (farView 1) farTarget
              [farView 1; farView 2; farView 3; farView 4] Hlen Htarget)
    as (Hstep & _ & _ & _ & Hbudget & _).
  split; [|exact Hbudget].
  apply Hstep.
  - unfold epochChanged. simpl. lia.
  - unfold withinTolerance. vm_compute. intros H. apply H. reflexivity.
  - simpl. unfold SCROLL_SNAP_ATTEMPTS. lia.
Defined.

(** Offsets that never stabilise: four epochs in a row leave the scroll
    offset 122px from the target. The request snaps three times and is gone
    after the fourth run. *)
Example runSnapEffect_never_stable :
  (runSnapEffect [farView 1; farView 2; farView 3; farView 4]
     (Some (registerSnap 1 0))).1 = None
  ∧ length (runSnapEffect [farView 1; farView 2; farView 3; farView 4]
              (Some (registerSnap 1 0))).2 = 3%nat.
Proof. split; vm_compute; reflexivity. Qed.

End JumpFacts.

(** ** A page loaded as the previous year *)
Module PaginationFacts.
Import Timeline TimelineFacts Layout LayoutFacts WindowFacts Pagination.
Import Examples Scenarios.
Local Open Scope Q_scope.

(** The re-keying loop moves every stored height [added] places up. *)
Lemma shiftHeights_lookup added heights j :
  shiftHeights added heights !! j
  = if decide (added ≤ j)%nat then heights !! (j - added)%nat else None.
Proof.
  unfold shiftHeights. revert j.
  apply (map_fold_weak_ind
    (λ (r : gmap nat Q) (m : gmap nat Q), ∀ j,
       r !! j = if decide (added ≤ j)%nat then m !! (j - added)%nat else None)).
  - intros j. rewrite !lookup_empty. by case_decide.
  - intros i x m r Hi IH j.
    destruct (decide (j = i + added)%nat) as [->|Hne].
    + rewrite lookup_insert_eq. rewrite decide_True by lia.
      replace (i + added - added)%nat with i by lia. by rewrite lookup_insert_eq.
    + rewrite lookup_insert_ne by lia. rewrite IH. case_decide; [|done].
      rewrite lookup_insert_ne by lia. done.
Qed.

Lemma shiftHeights_positive added heights :
  positiveHeights heights → positiveHeights (shiftHeights added heights).
Proof.
  intros Hpos j h. rewrite shiftHeights_lookup. case_decide; [|done]. apply Hpos.
Qed.

Lemma offsets_unmeasured count heights n k :
  (∀ j, (j < n)%nat → heights !! j = None) → (n < count)%nat → (k ≤ n)%nat →
  ∃ v, Layout.offsets count heights !! k = Some v
       ∧ v == inject_Z (Z.of_nat k) * (ESTIMATED_ITEM_HEIGHT + ITEM_GAP).
Proof.
  intros Hnone Hn. induction k as [|k IH]; intros Hk.
  - exists 0. split; [done|]. reflexivity.
  - destruct IH as (v & Hv & Hval); [lia|].
    destruct (offsets_step count heights k) as (a & Ha & HSa); [lia|].
    rewrite Hv in Ha. injection Ha as <-.
    eexists. split; [exact HSa|].
    unfold getItemHeight. rewrite Hnone by lia. cbn [default from_option]. unfold id.
    destruct (Nat.eqb_spec k (count - 1)); [lia|].
    rewrite Nat2Z.inj_succ. unfold Z.succ. rewrite inject_Z_plus.
    unfold ESTIMATED_ITEM_HEIGHT, ITEM_GAP in *. change (inject_Z 1) with 1. lra.
Qed.

Lemma offsets_shifted n count heights i a :
  (0 < count)%nat → (i ≤ count)%nat →
  Layout.offsets count heights !! i = Some a →
  ∃ a', Layout.offsets (n + count) (shiftHeights n heights) !! (n + i)%nat = Some a'
        ∧ a' == inject_Z (Z.of_nat n) * (ESTIMATED_ITEM_HEIGHT + ITEM_GAP) + a.
Proof.
  intros Hcount. revert a. induction i as [|i IH]; intros a Hi Ha.
  - rewrite Nat.add_0_r. injection Ha as <-.
    destruct (offsets_unmeasured (n + count) (shiftHeights n heights) n n)
      as (v & Hv & Hval); [|lia|lia|].
    + intros j Hj. rewrite shiftHeights_lookup. case_decide; [lia|done].
    + exists v. split; [done|]. rewrite Hval. lra.
  - destruct (offsets_step count heights i) as (b & Hb & HSb); [lia|].
    rewrite Ha in HSb. injection HSb as ->.
    destruct (IH b) as (b' & Hb' & Hval); [lia|done|].
    destruct (offsets_step (n + count) (shiftHeights n heights) (n + i))
      as (c & Hc & HSc); [lia|].
    rewrite Hb' in Hc. injection Hc as <-.
    replace (n + S i)%nat with (S (n + i)) by lia.
    eexists. split; [exact HSc|].
    assert (Hh : getItemHeight (shiftHeights n heights) (n + i) = getItemHeight heights i).
    { unfold getItemHeight. rewrite shiftHeights_lookup.
      case_decide; [|lia]. by replace (n + i - n)%nat with i by lia. }
    rewrite Hh.
    destruct (Nat.eqb_spec i (count - 1)), (Nat.eqb_spec (n + i) (n + count - 1));
      try lia; rewrite Hval; lra.
Qed.

Section Settled.
Variable getTime : string → option Z.

Lemma settleOk_heights year entries s j :
  heightsRef (metrics (settleOk getTime year Prev entries s)) !! j
  = if decide (length entries ≤ j)%nat
    then heightsRef (metrics s) !! (j - length entries)%nat else None.
Proof.
  unfold settleOk. cbn [metrics recomputeOffsets heightsRef].
  destruct entries as [|e entries].
  - cbn [length]. rewrite decide_True by lia. f_equal. lia.
  - cbn [heightsRef]. apply shiftHeights_lookup.
Qed.

Lemma settleOk_timeline year d entries s :
  timeline (paging (settleOk getTime year d entries s))
  = mergeTimeline getTime (timeline (paging s)) entries.
Proof. by destruct d. Qed.

Lemma settleOk_offsets year d entries s :
  offsets (metrics (settleOk getTime year d entries s))
  = Layout.offsets (length (timeline (paging (settleOk getTime year d entries s))))
      (heightsRef (metrics (settleOk getTime year d entries s))).
Proof. by destruct d. Qed.

(** Where the re-keying is right: a page of distinct dates, all older than
    the sequence, goes in front of it as so many items, and every stored
    height moves up by as many places. *)
Lemma prepend_keeps_measurements year entries s i h item :
  NoDup (date <$> timeline (paging s)) →
  inOrder getTime (timeline (paging s)) →
  NoDup (date <$> entries) →
  olderPage getTime entries (timeline (paging s)) →
  heightsRef (metrics s) !! i = Some h →
  timeline (paging s) !! i = Some item →
  let s' := settleOk getTime year Prev entries s in
  heightsRef (metrics s') !! (i + length entries)%nat = Some h
  ∧ timeline (paging s') !! (i + length entries)%nat = Some item
  ∧ (∀ j, heightsRef (metrics s') !! j
          = if decide (length entries ≤ j)%nat
            then heightsRef (metrics s) !! (j - length entries)%nat else None)
  ∧ timeline (paging s')
    = sortByDate getTime (created <$> entries) ++ timeline (paging s).
Proof.
  intros Hnd Hord Hpage Hold Hh Hitem s'.
  assert (Htl : timeline (paging s')
                = sortByDate getTime (created <$> entries) ++ timeline (paging s)).
  { unfold s'. rewrite settleOk_timeline. by apply mergeTimeline_prepend. }
  split_and!.
  - unfold s'. rewrite settleOk_heights, decide_True by lia.
    replace (i + length entries - length entries)%nat with i by lia. done.
  - rewrite Htl. rewrite lookup_app_r.
    + rewrite (Permutation_length (sortByDate_Permutation getTime _)), length_fmap.
      replace (i + length entries - length entries)%nat with i by lia. done.
    + rewrite (Permutation_length (sortByDate_Permutation getTime _)), length_fmap. lia.
  - intros j. apply settleOk_heights.
  - done.
Qed.

Lemma estimateAddedHeight_length (entries : list ReleaseGroup) :
  estimateAddedHeight (Z.of_nat (length entries))
  == inject_Z (Z.of_nat (length entries)) * (ESTIMATED_ITEM_HEIGHT + ITEM_GAP).
Proof.
  unfold estimateAddedHeight.
  destruct (Z.leb_spec (Z.of_nat (length entries)) 0) as [Hle|Hgt]; [|reflexivity].
  replace (Z.of_nat (length entries)) with 0%Z by lia. reflexivity.
Qed.

Lemma settleOk_pendingShift year entries s :
  pendingScrollShiftRef (metrics (settleOk getTime year Prev entries s))
  == pendingScrollShiftRef (metrics s)
     + inject_Z (Z.of_nat (length entries)) * (ESTIMATED_ITEM_HEIGHT + ITEM_GAP).
Proof.
  unfold settleOk. cbn [metrics recomputeOffsets pendingScrollShiftRef].
  destruct entries as [|e entries].
  - cbn [length]. change (inject_Z (Z.of_nat 0)) with 0. lra.
  - pose proof (estimateAddedHeight_length (e :: entries)) as Hest.
    cbn [pendingScrollShiftRef]. apply Qplus_inj_l. exact Hest.
Qed.

(** What the layout effect does with a pending shift. *)
Lemma applyPendingScrollShift_clamps s :
  ¬ pendingScrollShiftRef (metrics s) == 0 →
  scrollTop (scrolling (applyPendingScrollShift s))
  = Qmin (Qmax (el_scrollTop (scrollEl (scrolling s))
                + pendingScrollShiftRef (metrics s)) 0)
         (Qmax 0 (totalHeight (offsets (metrics s))
                  - clientHeight (scrollEl (scrolling s))))
  ∧ el_scrollTop (scrollEl (scrolling (applyPendingScrollShift s)))
    = scrollTop (scrolling (applyPendingScrollShift s))
  ∧ pendingScrollShiftRef (metrics (applyPendingScrollShift s)) = 0.
Proof.
  intros Hshift. unfold applyPendingScrollShift.
  destruct (Qeq_bool (pendingScrollShiftRef (metrics s)) 0) eqn:E; [|done].
  apply Qeq_bool_iff in E. done.
Qed.

(** C10, as amended. A page of [n] entries with distinct dates, all older
    than the items of a sequence in ascending order, is a prepend of [n]
    items: the sequence gets [n] items longer and every item it held moves
    up by [n]. The shift added to the pending scroll shift, before any new
    measurement, is [n * (ESTIMATED_ITEM_HEIGHT + ITEM_GAP)], the value of
    [estimateAddedHeight(n)], which is 0 for [n <= 0]. The layout effect
    applies the pending shift within the scroll range: the new scroll offset
    is the old one plus the pending shift, clamped to
    [[0, max(0, total - viewportHeight)]]. When no other shift was pending
    and the old offset was within the scroll range of the old table, the
    clamp changes nothing and the offset moves by exactly
    [n * (ESTIMATED_ITEM_HEIGHT + ITEM_GAP)]. *)
Theorem prepend_shift_estimate (m : Z) year entries s :
  NoDup (date <$> timeline (paging s)) →
  ascending getTime (timeline (paging s)) →
  NoDup (date <$> entries) →
  olderPage getTime entries (timeline (paging s)) →
  let n := length entries in
  let s' := settleOk getTime year Prev entries s in
  ((m ≤ 0)%Z → estimateAddedHeight m = 0)
  ∧ ((0 < m)%Z →
     estimateAddedHeight m = inject_Z m * (ESTIMATED_ITEM_HEIGHT + ITEM_GAP))
  ∧ length (timeline (paging s')) = (n + length (timeline (paging s)))%nat
  ∧ (∀ i item, timeline (paging s) !! i = Some item →
       timeline (paging s') !! (n + i)%nat = Some item)
  ∧ pendingScrollShiftRef (metrics s')
    == pendingScrollShiftRef (metrics s)
       + inject_Z (Z.of_nat n) * (ESTIMATED_ITEM_HEIGHT + ITEM_GAP)
  ∧ (¬ pendingScrollShiftRef (metrics s') == 0 →
     scrollTop (scrolling (applyPendingScrollShift s'))
     = Qmin (Qmax (el_scrollTop (scrollEl (scrolling s))
                   + pendingScrollShiftRef (metrics s')) 0)
            (Qmax 0 (totalHeight (offsets (metrics s'))
                     - clientHeight (scrollEl (scrolling s))))
     ∧ pendingScrollShiftRef (metrics (applyPendingScrollShift s')) = 0)
  ∧ (timeline (paging s) ≠ [] → entries ≠ [] →
     pendingScrollShiftRef (metrics s) == 0 →
     0 <= el_scrollTop (scrollEl (scrolling s)) →
     el_scrollTop (scrollEl (scrolling s))
     <= totalHeight (Layout.offsets (length (timeline (paging s)))
                       (heightsRef (metrics s)))
        - clientHeight (scrollEl (scrolling s)) →
     scrollTop (scrolling (applyPendingScrollShift s'))
     == el_scrollTop (scrollEl (scrolling s))
        + inject_Z (Z.of_nat n) * (ESTIMATED_ITEM_HEIGHT + ITEM_GAP)).
Proof.
  intros Hnd Hasc Hpage Hold n s'.
  pose proof (ascending_inOrder getTime _ Hasc) as Hord.
  assert (Hmerge : timeline (paging s')
                   = sortByDate getTime (created <$> entries) ++ timeline (paging s)).
  { unfold s'. rewrite settleOk_timeline. by apply mergeTimeline_prepend. }
  assert (Hfront : length (sortByDate getTime (created <$> entries)) = n).
  { by rewrite (Permutation_length (sortByDate_Permutation getTime _)), length_fmap. }
  assert (Hlen : length (timeline (paging s')) = (n + length (timeline (paging s)))%nat).
  { by rewrite Hmerge, length_app, Hfront. }
  pose proof (settleOk_pendingShift year entries s) as Hpending. fold s' n in Hpending.
  split_and!.
  - intros Hm. unfold estimateAddedHeight. destruct (Z.leb_spec m 0); [done|lia].
  - intros Hm. unfold estimateAddedHeight. destruct (Z.leb_spec m 0); [lia|done].
  - exact Hlen.
  - intros i item Hitem. rewrite Hmerge, lookup_app_r by lia.
    rewrite Hfront. by replace (n + i - n)%nat with i by lia.
  - exact Hpending.
  - intros Hshift.
    destruct (applyPendingScrollShift_clamps s' Hshift) as (Hc & _ & Hz).
    split; [exact Hc|exact Hz].
  - intros Hne Hentries Hzero Hlow Hhigh.
    set (count := length (timeline (paging s))) in *.
    set (heights := heightsRef (metrics s)) in *.
    set (shift := inject_Z (Z.of_nat n) * (ESTIMATED_ITEM_HEIGHT + ITEM_GAP)) in *.
    assert (Hn : (0 < n)%nat) by (unfold n; destruct entries; [done|cbn; lia]).
    assert (Hcount : (0 < count)%nat).
    { unfold count. destruct (timeline (paging s)); [done|cbn; lia]. }
    assert (Hshiftpos : 0 < shift).
    { unfold shift. apply Qmult_lt_0_compat; [|by vm_compute].
      replace 0 with (inject_Z 0) by done. rewrite <- Zlt_Qlt. lia. }
    assert (Hoffs : offsets (metrics s')
                    = Layout.offsets (n + count) (shiftHeights n heights)).
    { unfold s'. rewrite settleOk_offsets. fold s'. rewrite Hlen.
      unfold s', settleOk. cbn [metrics recomputeOffsets heightsRef].
      fold n. destruct n; [lia|]. done. }
    destruct (offsets_shifted n count heights count
                (totalHeight (Layout.offsets count heights)) Hcount (le_n _)
                (totalHeight_offsets _ _)) as (total' & Htotal' & Htotalval).
    assert (Htotal : totalHeight (Layout.offsets (n + count) (shiftHeights n heights))
                     == shift + totalHeight (Layout.offsets count heights)).
    { pose proof (totalHeight_offsets (n + count) (shiftHeights n heights)) as Ht.
      rewrite Htotal' in Ht. injection Ht as <-. exact Htotalval. }
    assert (Hnz : ¬ pendingScrollShiftRef (metrics s') == 0).
    { rewrite Hpending, Hzero. lra. }
    destruct (applyPendingScrollShift_clamps s' Hnz) as (-> & _ & _).
    assert (Hel : scrolling s' = scrolling s) by done.
    rewrite Hel, Hoffs.
    set (el := el_scrollTop (scrollEl (scrolling s))) in *.
    set (hi := Qmax 0 _).
    assert (Hhi0 : 0 <= hi) by apply Q.le_max_l.
    destruct (clamp_isClampOf 0 hi (el + pendingScrollShiftRef (metrics s')) Hhi0)
      as (_ & _ & _ & Hin).
    rewrite Hin; [rewrite Hpending, Hzero; lra|].
    split; [rewrite Hpending, Hzero; lra|].
    eapply Qle_trans; [|apply Q.le_max_r].
    rewrite Htotal, Hpending, Hzero. lra.
Qed.

Example estimateAddedHeight_two : estimateAddedHeight 2 == 584.
Proof. reflexivity. Qed.

Example settleOk_scenario_shift :
  pendingScrollShiftRef
    (metrics (settleOk IsoDate.getTime 2023 Prev page2023 scenarioState)) == 584
  ∧ scrollTop (scrolling (applyPendingScrollShift
       (settleOk IsoDate.getTime 2023 Prev page2023 scenarioState))) == 784.
Proof. split; vm_compute; reflexivity. Qed.

End Settled.

(** The scenario of the specification: the sequence holds 2024-12-30,
    2025-01-02 and 2025-06-10 and is scrolled to 200px, and the 2023 page
    brings two dates: two items are prepended, the pending shift is 584 and
    the scroll offset moves to 784. *)
Lemma prepend_shift_estimate_witness :
  let s' := settleOk IsoDate.getTime 2023 Prev page2023 scenarioState in
  length (timeline (paging s')) = 5%nat
  ∧ pendingScrollShiftRef (metrics s') == 0 + inject_Z 2 * (260 + 32)
  ∧ scrollTop (scrolling (applyPendingScrollShift s')) == 200 + inject_Z 2 * (260 + 32).
Proof.
  destruct (prepend_shift_estimate IsoDate.getTime 2 2023 page2023 scenarioState)
    as (_ & _ & Hlen & _ & Hpending & _ & Hexact).
  - apply (bool_decide_unpack _). vm_compute. exact I.
  - split; [apply (bool_decide_unpack _); vm_compute; exact I|].
    apply (bool_decide_unpack _). vm_compute. exact I.
  - apply (bool_decide_unpack _). vm_compute. exact I.
  - unfold olderPage. apply (bool_decide_unpack _). vm_compute. exact I.
  - split; [exact Hlen|]. split; [exact Hpending|].
    apply Hexact; [discriminate|discriminate|reflexivity| |];
      vm_compute; discriminate.
Defined.

(** C10, counterexample. The sequence is one unmeasured item in a 600px
    viewport, scrolled to 0, and the page of the previous year brings one
    older date. One item is prepended and [1 * (260 + 32) = 292] is added to
    the pending shift, but the content, 552px tall, is still shorter than
    the viewport: the layout effect leaves the scroll offset at 0, so the
    shift applied is 0, not 292. *)
Lemma prepend_shift_is_clamped :
  let s' := settleOk IsoDate.getTime 2024 Prev page2024 shortState in
  length (timeline (paging shortState)) = 1%nat
  ∧ length (timeline (paging s')) = 2%nat
  ∧ pendingScrollShiftRef (metrics s') == 292
  ∧ totalHeight (offsets (metrics s')) == 552
  ∧ scrollTop (scrolling shortState) == 0
  ∧ scrollTop (scrolling (applyPendingScrollShift s')) == 0
  ∧ ¬ scrollTop (scrolling (applyPendingScrollShift s'))
      - scrollTop (scrolling shortState)
      == inject_Z 1 * (ESTIMATED_ITEM_HEIGHT + ITEM_GAP).
Proof.
  cbv zeta. split_and!; try (vm_compute; reflexivity).
  intros Heq. vm_compute in Heq. discriminate.
Qed.

(** C3, at the failing input. The page of the previous year lists
    2023-11-20 twice. The merge makes one item of the two entries, so one
    item goes in front of the sequence and 2024-12-30 becomes item 1; the
    height cache is re-keyed by the number of entries of the page, which is
    two. The 300px measured for 2024-12-30 end up stored for item 2, which
    is 2025-01-02, and 2024-12-30 is left without a measured height. *)
Theorem prepend_repeated_date_misattaches :
  let s' := settleOk IsoDate.getTime 2023 Prev page2023Repeated scenarioState in
  heightsRef (metrics scenarioState) !! 0%nat = Some 300
  ∧ date <$> timeline (paging scenarioState) !! 0%nat = Some "2024-12-30"
  ∧ date <$> timeline (paging s')
    = ["2023-11-20"; "2024-12-30"; "2025-01-02"; "2025-06-10"]
  ∧ heightsRef (metrics s') !! 1%nat = None
  ∧ heightsRef (metrics s') !! 2%nat = Some 300
  ∧ date <$> timeline (paging s') !! 2%nat = Some "2025-01-02"
  ∧ pendingScrollShiftRef (metrics s') == 584.
Proof.
  cbv zeta. split_and!; reflexivity.
Qed.

(** The scenario of the specification: the sequence holds 2024-12-30,
    2025-01-02 and 2025-06-10, a height of 300 is recorded for 2024-12-30,
    and the 2023 page brings two dates; the height stays with 2024-12-30. *)
Example prepend_scenario_2023 :
  heightsRef (metrics scenarioState) !! 0%nat = Some 300
  ∧ date <$> timeline (paging scenarioState) !! 0%nat = Some "2024-12-30"
  ∧ heightsRef (metrics (settleOk IsoDate.getTime 2023 Prev page2023 scenarioState))
      !! 2%nat = Some 300
  ∧ date <$> timeline (paging (settleOk IsoDate.getTime 2023 Prev page2023 scenarioState))
      !! 2%nat = Some "2024-12-30".
Proof.
  split; [reflexivity|]. split; [reflexivity|].
  destruct (prepend_keeps_measurements IsoDate.getTime 2023 page2023 scenarioState
              0 300 (plainGroup "2024-12-30" [gameA]))
    as (Hheight & Hitem & _).
  - apply (bool_decide_unpack _). vm_compute. exact I.
  - unfold inOrder. apply (bool_decide_unpack _). vm_compute. exact I.
  - apply (bool_decide_unpack _). vm_compute. exact I.
  - unfold olderPage. apply (bool_decide_unpack _). vm_compute. exact I.
  - reflexivity.
  - reflexivity.
  - split; [exact Hheight|]. cbn [length page2023 Nat.add] in Hitem.
    rewrite Hitem. reflexivity.
Qed.

Example settleOk_scenario_dates :
  date <$> timeline (paging (settleOk IsoDate.getTime 2023 Prev page2023 scenarioState))
  = ["2023-03-14"; "2023-11-20"; "2024-12-30"; "2025-01-02"; "2025-06-10"].
Proof. reflexivity. Qed.

End PaginationFacts.

(** ** Loads in flight and failed loads *)
Module LoadFacts.
Import Timeline TimelineFacts Layout LayoutFacts Pagination PaginationFacts.
Import Examples Scenarios.
Local Open Scope Q_scope.

Lemma fetchCount_snoc d fs year d0 :
  fetchCount d (fs ++ [(year, d0)])
  = (fetchCount d fs + (if decide (d0 = d) then 1 else 0))%nat.
Proof.
  unfold fetchCount. rewrite filter_app, length_app. f_equal.
  case_decide as Hd.
  - by rewrite filter_cons_True.
  - by rewrite filter_cons_False.
Qed.

Lemma fetchCount_remove d fs year d0 :
  (year, d0) ∈ fs →
  fetchCount d fs
  = (fetchCount d (removeFetch (year, d0) fs) + (if decide (d0 = d) then 1 else 0))%nat.
Proof.
  induction fs as [|g fs IH]; intros Hin; [by apply elem_of_nil in Hin|].
  cbn [removeFetch]. case_bool_decide as Hg.
  - subst g. unfold fetchCount. case_decide as Hd.
    + rewrite filter_cons_True by done. simpl. lia.
    + rewrite filter_cons_False by done. lia.
  - apply elem_of_cons in Hin as [?|Hin]; [congruence|].
    specialize (IH Hin). unfold fetchCount in *.
    destruct (decide (g.2 = d)) as [Hgd|Hgd].
    + rewrite !filter_cons_True by done. simpl. lia.
    + rewrite !filter_cons_False by done. done.
Qed.

Lemma removeFetch_length f fs : (length (removeFetch f fs) ≤ length fs)%nat.
Proof.
  induction fs as [|g fs IH]; [done|]. cbn [removeFetch].
  case_bool_decide; simpl; lia.
Qed.

(** The queued updates touch the two loading flags and the overlay flag,
    nothing else. *)
Lemma foldl_applyUpdate_fields queue p :
  timeline (foldl applyUpdate p queue) = timeline p
  ∧ error (foldl applyUpdate p queue) = error p
  ∧ availableYears (foldl applyUpdate p queue) = availableYears p
  ∧ loadedYears (foldl applyUpdate p queue) = loadedYears p
  ∧ canAutoLoad (foldl applyUpdate p queue) = canAutoLoad p.
Proof.
  revert p. induction queue as [|u queue IH]; intros p; [done|].
  cbn [foldl]. destruct (IH (applyUpdate p u)) as (-> & -> & -> & -> & ->).
  by destruct u as [[] ?|?].
Qed.

Lemma applyQueued_fields queue s :
  timeline (paging (applyQueued queue s)) = timeline (paging s)
  ∧ error (paging (applyQueued queue s)) = error (paging s)
  ∧ availableYears (paging (applyQueued queue s)) = availableYears (paging s)
  ∧ loadedYears (paging (applyQueued queue s)) = loadedYears (paging s)
  ∧ canAutoLoad (paging (applyQueued queue s)) = canAutoLoad (paging s)
  ∧ metrics (applyQueued queue s) = metrics s
  ∧ scrolling (applyQueued queue s) = scrolling s.
Proof.
  unfold applyQueued. cbn [withPaging paging metrics scrolling].
  destruct (foldl_applyUpdate_fields queue (paging s)) as (-> & -> & -> & -> & ->).
  done.
Qed.

Lemma adjacentYear_applyQueued d queue s :
  adjacentYear d (paging (applyQueued queue s)) = adjacentYear d (paging s).
Proof.
  destruct (applyQueued_fields queue s) as (_ & _ & Ha & Hl & _).
  destruct d; cbn [adjacentYear]; unfold prevYear, nextYear,
    minLoadedYear, maxLoadedYear; by rewrite Hl, Ha.
Qed.

(** The forced scroll of the pending-snap effect touches the scroll state
    only. *)
Lemma pendingSnapFlush_fields pending s :
  paging (pendingSnapFlush pending s) = paging s
  ∧ metrics (pendingSnapFlush pending s) = metrics s
  ∧ viewportHeight (scrolling (pendingSnapFlush pending s))
    = viewportHeight (scrolling s).
Proof. unfold pendingSnapFlush. by case_match. Qed.

(** An edge-load effect that finds its loading flag up does nothing. *)
Lemma edgeLoadEffect_while_loading d sys :
  loading d (paging (st sys)) = true → edgeLoadEffect d sys = sys.
Proof.
  intros Hflag. unfold edgeLoadEffect, edgeGuard. rewrite Hflag.
  cbn [negb]. by rewrite andb_false_r.
Qed.

Section Traces.
Variable getTime : string → option Z.

(** The positivity of the stored heights is an invariant of the system. *)
Lemma step_positiveHeights ev sys :
  positiveHeights (heightsRef (metrics (st sys))) →
  positiveHeights (heightsRef (metrics (st (step getTime ev sys)))).
Proof.
  intros Hpos. destruct ev; cbn [step onState st].
  - unfold handleWheel. by repeat case_match.
  - done.
  - done.
  - unfold scrollFrame. by case_match.
  - done.
  - unfold measure.
    pose proof (measureItem_positive index height _ Hpos).
    by destruct (measureItem index height _).
  - unfold measureFrame. by case_match.
  - apply map_Forall_empty.
  - unfold applyPendingScrollShift. by case_match.
  - unfold edgeLoadEffect. repeat case_match; try done.
    unfold loadAdjacentYear_start. by case_match.
  - unfold settle. case_match; [|done]. destruct result; [|done].
    cbn [st]. unfold settleOk. cbn [metrics recomputeOffsets heightsRef].
    destruct d; [|done]. destruct entries; [done|].
    by apply shiftHeights_positive.
  - done.
  - by destruct (pendingSnapFlush_fields pending (st sys)) as (_ & -> & _).
Qed.

Lemma run_positiveHeights events sys :
  positiveHeights (heightsRef (metrics (st sys))) →
  positiveHeights (heightsRef (metrics (st (run getTime events sys)))).
Proof.
  revert sys. induction events as [|ev events IH]; intros sys Hpos; [done|].
  cbn [run foldl]. apply IH. by apply step_positiveHeights.
Qed.
End Traces.

(** C9, at the failing input. The user has touched the list, a jump to the
    last item is pending, and the list is scrolled to 210px, within the
    threshold of the end. The edge-load effect of the render starts the fetch
    of 2026 and requests its loading flag; in that render the flag is still
    down. The pending-snap effect of the same render forces the scroll offset
    to 284px and renders it with [flushSync]: the new render has a new
    [scrollTop], which is a dependency of the edge-load effect, and the old
    flag. The effect runs again, finds the flag down and starts the fetch of
    2026 a second time: two fetches of one direction are in flight. Had the
    requested flag been rendered before the second run, it would have
    started nothing. *)
Theorem stale_flag_two_fetches :
  let rendered := run IsoDate.getTime scrollToEnd touchedSys in
  let started := step IsoDate.getTime (EvEdgeEffect Next) rendered in
  let snapped :=
    step IsoDate.getTime (EvPendingSnapEffect (Some pendingJump)) started in
  idle rendered
  ∧ inFlight started = [(2026%Z, Next)]
  ∧ queued started = [SetLoading Next true]
  ∧ loadingNext (paging (st started)) = false
  ∧ scrollTop (scrolling (st rendered)) == 210
  ∧ scrollTop (scrolling (st snapped)) == 284
  ∧ loadingNext (paging (st snapped)) = false
  ∧ edgeEffectDepsChanged Next (st started) (st snapped) = true
  ∧ inFlight (step IsoDate.getTime (EvEdgeEffect Next) snapped)
    = [(2026%Z, Next); (2026%Z, Next)]
  ∧ inFlight (run IsoDate.getTime (scrollToEnd ++ effectsWithSnap) touchedSys)
    = [(2026%Z, Next); (2026%Z, Next)]
  ∧ inFlightCount Next
      (run IsoDate.getTime (scrollToEnd ++ effectsWithSnap) touchedSys) = 2%nat
  ∧ inFlight (run IsoDate.getTime (scrollToEnd ++ effectsWithRender) touchedSys)
    = [(2026%Z, Next)].
Proof. cbv zeta. split_and!; vm_compute; done. Qed.

(** What the two fetches do when both bring the page of 2026: the second
    merge pushes the games of the page onto the items of the first, and
    every game of 2026 is listed twice. *)
Example stale_flag_repeats_games :
  let settled :=
    run IsoDate.getTime
      (scrollToEnd ++ effectsWithSnap
       ++ [EvSettle 2026 Next (FetchOk page2026);
           EvSettle 2026 Next (FetchOk page2026)]) touchedSys in
  inFlight settled = []
  ∧ loadedYears (paging (st settled)) = [2024; 2025; 2026]%Z
  ∧ games <$> timeline (paging (st settled)) !! 3%nat = Some [gameB; gameB].
Proof. cbv zeta. split_and!; reflexivity. Qed.

(** The first run of the effect at the top edge starts the fetch of 2023;
    once its flag is rendered, the later run, with the scroll position still
    at the edge, starts nothing. *)
Example scrollToTop_starts_one_fetch :
  inFlight (run IsoDate.getTime scrollToTop scenarioSys) = [(2023%Z, Prev)]
  ∧ loadingPrev (paging (st (run IsoDate.getTime scrollToTop scenarioSys))) = true.
Proof. split; reflexivity. Qed.

Lemma foldl_min_head rest y : (foldl Z.min y rest ≤ y)%Z.
Proof.
  revert y. induction rest as [|z rest IH]; intros y; simpl; [lia|].
  specialize (IH (Z.min y z)). lia.
Qed.

Lemma foldl_max_head rest y : (y ≤ foldl Z.max y rest)%Z.
Proof.
  revert y. induction rest as [|z rest IH]; intros y; simpl; [lia|].
  specialize (IH (Z.max y z)). lia.
Qed.

Lemma foldl_min_le rest y x : x ∈ y :: rest → (foldl Z.min y rest ≤ x)%Z.
Proof.
  revert y. induction rest as [|z rest IH]; intros y Hx.
  - apply list_elem_of_singleton in Hx as ->. simpl. lia.
  - simpl. pose proof (foldl_min_head rest (Z.min y z)) as Hhead.
    apply elem_of_cons in Hx as [->|Hx]; [lia|].
    apply elem_of_cons in Hx as [->|Hx]; [lia|].
    apply IH. by right.
Qed.

Lemma foldl_max_ge rest y x : x ∈ y :: rest → (x ≤ foldl Z.max y rest)%Z.
Proof.
  revert y. induction rest as [|z rest IH]; intros y Hx.
  - apply list_elem_of_singleton in Hx as ->. simpl. lia.
  - simpl. pose proof (foldl_max_head rest (Z.max y z)) as Hhead.
    apply elem_of_cons in Hx as [->|Hx]; [lia|].
    apply elem_of_cons in Hx as [->|Hx]; [lia|].
    apply IH. by right.
Qed.

(** The adjacent year of a direction is never one of the loaded years. *)
Lemma adjacentYear_not_loaded d p year :
  adjacentYear d p = Some year → year ∉ loadedYears p.
Proof.
  destruct d; cbn [adjacentYear]; unfold prevYear, nextYear, minLoadedYear, maxLoadedYear;
    destruct (loadedYears p) as [|y rest] eqn:Hyears; try done;
    intros Hfind Hin; apply find_some in Hfind as [_ Hlt].
  - apply Z.ltb_lt in Hlt. pose proof (foldl_min_le rest y year Hin). lia.
  - apply Z.ltb_lt in Hlt. pose proof (foldl_max_ge rest y year Hin). lia.
Qed.

Section Failure.
Variable getTime : string → option Z.

Lemma step_inFlight ev sys :
  (length (inFlight sys) < length (inFlight (step getTime ev sys)))%nat →
  ∃ d year,
    ev = EvEdgeEffect d
    ∧ edgeGuard d (st sys) = true ∧ edgeReached d (st sys) = true
    ∧ adjacentYear d (paging (st sys)) = Some year
    ∧ inFlight (step getTime ev sys) = inFlight sys ++ [(year, d)].
Proof.
  destruct ev; cbn [step onState render inFlight]; try lia.
  - unfold edgeLoadEffect.
    destruct (edgeGuard d (st sys)) eqn:Hguard; cbn [andb]; [|lia].
    destruct (edgeReached d (st sys)) eqn:Hedge; [|lia].
    destruct (adjacentYear d (paging (st sys))) as [year|] eqn:Hyear; [|lia].
    unfold loadAdjacentYear_start. case_bool_decide; [lia|]. intros _.
    by exists d, year.
  - unfold settle. case_bool_decide; [|lia]. cbn [inFlight].
    pose proof (removeFetch_length (year, d) (inFlight sys)). lia.
Qed.

(** C8, as amended. When the fetch of a page fails, the one error field of
    the component is set to the failure message, the loading flag of the
    direction is cleared, and the sequence, the loaded and available years,
    the height cache and the scroll state are as before; the handler starts
    no fetch. A fetch is only ever started by a run of an edge-load effect
    at which the conditions of the effect hold. The fall of the loading flag
    is a change in the dependencies of that effect, and a run of it on the
    state after the failure starts the fetch again whenever its conditions
    hold there. The error field is shared: any page that loads clears it. *)
Theorem failed_fetch_keeps_content sys year d message :
  (year, d) ∈ inFlight sys →
  let sys' := step getTime (EvSettle year d (FetchFailed message)) sys in
  error (paging (st sys')) = Some (default "Failed to load timeline." message)
  ∧ loading d (paging (st sys')) = false
  ∧ timeline (paging (st sys')) = timeline (paging (st sys))
  ∧ loadedYears (paging (st sys')) = loadedYears (paging (st sys))
  ∧ availableYears (paging (st sys')) = availableYears (paging (st sys))
  ∧ metrics (st sys') = metrics (st sys)
  ∧ scrolling (st sys') = scrolling (st sys)
  ∧ inFlight sys' = removeFetch (year, d) (inFlight sys)
  ∧ (∀ ev sys0,
       (length (inFlight sys0) < length (inFlight (step getTime ev sys0)))%nat →
       ∃ d' year',
         ev = EvEdgeEffect d'
         ∧ edgeGuard d' (st sys0) = true ∧ edgeReached d' (st sys0) = true
         ∧ adjacentYear d' (paging (st sys0)) = Some year'
         ∧ inFlight (step getTime ev sys0) = inFlight sys0 ++ [(year', d')])
  ∧ (loading d (paging (st sys)) = true →
     edgeEffectDepsChanged d (st sys) (st sys') = true)
  ∧ (∀ year', edgeGuard d (st sys') = true → edgeReached d (st sys') = true →
       adjacentYear d (paging (st sys')) = Some year' →
       inFlight (step getTime (EvEdgeEffect d) sys') = inFlight sys' ++ [(year', d)])
  ∧ (∀ year' d' entries s,
       error (paging (settleOk getTime year' d' entries s)) = None).
Proof.
  intros Hin sys'.
  set (s := applyQueued (queued sys) (st sys)).
  assert (Hst : st sys' = settleFailed d message s).
  { unfold sys'. cbn [step]. unfold settle.
    by rewrite bool_decide_eq_true_2. }
  assert (Hfl : inFlight sys' = removeFetch (year, d) (inFlight sys)).
  { unfold sys'. cbn [step]. unfold settle.
    by rewrite bool_decide_eq_true_2. }
  destruct (applyQueued_fields (queued sys) (st sys))
    as (Ht & He & Ha & Hl & Hc & Hm & Hs).
  fold s in Ht, He, Ha, Hl, Hc, Hm, Hs.
  rewrite Hst. split_and!; try done.
  - by destruct d.
  - apply step_inFlight.
  - intros Hflag. unfold edgeEffectDepsChanged.
    replace (loading d (paging (settleFailed d message s))) with false
      by (by destruct d).
    rewrite Hflag. rewrite (bool_decide_eq_false_2 (true = false)) by done.
    cbn [negb]. by rewrite !orb_true_r.
  - intros year' Hguard Hedge Hyear.
    cbn [step]. unfold edgeLoadEffect. rewrite Hst, Hguard, Hedge, Hyear.
    cbn [andb]. unfold loadAdjacentYear_start. rewrite Hst.
    case_bool_decide as Hloaded; [|done].
    exfalso. by apply (adjacentYear_not_loaded _ _ _ Hyear).
Qed.

End Failure.

Lemma failed_fetch_keeps_content_witness :
  (2023%Z, Prev) ∈ inFlight loadingSys
  ∧ error (paging (st failedSys)) = Some "Failed to load 2023.json"
  ∧ loading Prev (paging (st failedSys)) = false
  ∧ timeline (paging (st failedSys)) = timeline (paging (st loadingSys))
  ∧ inFlight failedSys = removeFetch (2023%Z, Prev) (inFlight loadingSys).
Proof.
  assert (Hin : (2023%Z, Prev) ∈ inFlight loadingSys) by (vm_compute; left).
  split; [exact Hin|].
  destruct (failed_fetch_keeps_content IsoDate.getTime loadingSys 2023 Prev
              (Some "Failed to load 2023.json") Hin)
    as (Herr & Hflag & Htl & _ & _ & _ & _ & Hfl & _).
  split_and!; [exact Herr|exact Hflag|exact Htl|exact Hfl].
Defined.

(** C8, counterexample. The fetch of 2023 fails while the list sits at its
    top edge. The loading flag falls, which is a change in the dependencies
    of the edge-load effect, so the effect runs again; its conditions still
    hold and it starts the fetch of 2023 again, with no scroll event in
    between. And the error is not kept per direction: a page that then loads
    in the other direction clears it. *)
Lemma failed_fetch_is_retried :
  inFlight loadingSys = [(2023%Z, Prev)]
  ∧ inFlight failedSys = []
  ∧ edgeEffectDepsChanged Prev (st loadingSys) (st failedSys) = true
  ∧ inFlight (step IsoDate.getTime (EvEdgeEffect Prev) failedSys) = [(2023%Z, Prev)]
  ∧ error (paging (st failedSys)) = Some "Failed to load 2023.json"
  ∧ error (paging (settleOk IsoDate.getTime 2026 Next [] (st failedSys))) = None.
Proof. split_and!; reflexivity. Qed.

End LoadFacts.

(** ** The ref-guarded loads of the list-library variant *)
Module RefLoadFacts.
Import Pagination LoadFacts RefLoads.

Lemma loadingRef_set d' d b fs l :
  loadingRef d' (setLoadingRef d b fs l)
  = if decide (d = d') then b else loadingRef d' l.
Proof. by destruct d, d'. Qed.

Lemma load_guarded d c l : guarded l → guarded (load d c l).
Proof.
  intros Hg. unfold load. destruct (closed_year c) as [year|]; [|done].
  destruct (negb (closed_canAutoLoad c)); [done|].
  destruct (bool_decide (year ∈ closed_loadedYears c)); [done|]. cbn [orb].
  destruct (loadingRef d l) eqn:Hflag; [done|].
  intros d'. rewrite loadingRef_set. cbn [setLoadingRef fetching].
  rewrite fetchCount_snoc, (Hg d').
  destruct (decide (d = d')) as [<-|Hne].
  - by rewrite Hflag.
  - by rewrite Nat.add_0_r.
Qed.

Lemma finish_guarded year d l : guarded l → guarded (finish year d l).
Proof.
  intros Hg. unfold finish. case_bool_decide as Hin; [|done].
  intros d'. pose proof (Hg d') as Hd'.
  rewrite (fetchCount_remove d' _ _ _ Hin) in Hd'.
  rewrite loadingRef_set. cbn [setLoadingRef fetching].
  destruct (decide (d = d')) as [<-|Hne].
  - destruct (loadingRef d l); lia.
  - by rewrite Nat.add_0_r in Hd'.
Qed.

Lemma calls_guarded evs l : guarded l → guarded (calls evs l).
Proof.
  revert l. induction evs as [|ev evs IH]; intros l Hg; [done|].
  cbn [calls foldl]. apply IH. destruct ev; [by apply load_guarded|by apply finish_guarded].
Qed.

(** X30. In the variant the flag is a ref, checked and set before the
    fetch starts: whatever callbacks are called, with whatever stale values
    closed over, at most one fetch per direction is in flight. *)
Lemma ref_guard_one_fetch evs d :
  (fetchCount d (fetching (calls evs atRest)) ≤ 1)%nat.
Proof.
  assert (Hg : guarded (calls evs atRest)).
  { apply calls_guarded. by intros []. }
  rewrite (Hg d). destruct (loadingRef d (calls evs atRest)); lia.
Qed.

End RefLoadFacts.

(** ** The date parser on a few keys *)
Module IsoDateFacts.
Import IsoDate.

Example getTime_epoch : getTime "1970-01-01" = Some 0%Z.
Proof. reflexivity. Qed.

Example getTime_2025 : getTime "2025-01-02" = Some 1735776000000%Z.
Proof. reflexivity. Qed.

Example getTime_invalid : getTime "2025-13-02" = None.
Proof. reflexivity. Qed.

End IsoDateFacts.

(** ** The index of an offset, the window and the spacers *)
Module IndexFacts.
Import Timeline Layout LayoutFacts WindowFacts Render.
Local Open Scope Q_scope.

(** X1. The index returned for an offset is that of the item the offset falls
    in: the item starts at or before the offset and the next one starts after
    it, so that it is the greatest index whose offset is not above the given
    one. Offsets before the table give the first item, offsets at or past the
    total height the last one. *)
Theorem findIndexForOffset_locates count heights x :
  positiveHeights heights → (0 < count)%nat →
  (findIndexForOffset (offsets count heights) x < count)%nat
  ∧ (x < 0 → findIndexForOffset (offsets count heights) x = 0%nat)
  ∧ (0 <= x →
     ∃ a, offsets count heights !! findIndexForOffset (offsets count heights) x = Some a
          ∧ a <= x)
  ∧ (x < totalHeight (offsets count heights) →
     ∃ b, offsets count heights !! S (findIndexForOffset (offsets count heights) x) = Some b
          ∧ x < b)
  ∧ (totalHeight (offsets count heights) <= x →
     findIndexForOffset (offsets count heights) x = (count - 1)%nat)
  ∧ (∀ k a, (k < count)%nat → offsets count heights !! k = Some a → a <= x →
       (k ≤ findIndexForOffset (offsets count heights) x)%nat).
Proof.
  intros Hpos Hcount.
  destruct (findIndexForOffset_item count heights x Hpos Hcount)
    as (Hlt & Hneg & Hlo & Hhi & Hlast).
  split_and!; try done.
  intros k a Hk Ha Hle.
  destruct (Qlt_le_dec x (totalHeight (offsets count heights))) as [Hx|Hx].
  - destruct (Hhi Hx) as (b & Hb & Hxb).
    destruct (decide (k ≤ findIndexForOffset (offsets count heights) x)%nat)
      as [|Hgt]; [done|].
    assert (Hnext : (S (findIndexForOffset (offsets count heights) x) ≤ k)%nat) by lia.
    pose proof (offsets_monotone count heights _ k b a Hpos Hnext Hb Ha). lra.
  - rewrite (Hlast Hx). lia.
Qed.

Lemma findIndexForOffset_locates_witness :
  let offs := offsets 3 {[1%nat := 300]} in
  ∃ a b, offs !! findIndexForOffset offs 500 = Some a ∧ a <= 500
         ∧ offs !! S (findIndexForOffset offs 500) = Some b ∧ 500 < b.
Proof.
  destruct (findIndexForOffset_locates 3 {[1%nat := 300]} 500) as (_ & _ & Hlo & Hhi & _).
  - apply map_Forall_singleton. reflexivity.
  - lia.
  - destruct Hlo as (a & Ha & Hle); [vm_compute; discriminate|].
    destruct Hhi as (b & Hb & Hlt); [vm_compute; reflexivity|].
    by exists a, b.
Defined.

Lemma visibleRange_fields count offs scrollTop viewportHeight :
  count ≠ 0%nat →
  visibleRange count offs scrollTop viewportHeight
  = {| range_start :=
         Z.of_nat (findIndexForOffset offs (Qmax 0 (scrollTop - OVERSCAN_PX)));
       range_end :=
         Z.min (Z.of_nat count - 1)
               (Z.of_nat (findIndexForOffset offs
                            (scrollTop + viewportHeight + OVERSCAN_PX))) |}.
Proof. intros Hne. unfold visibleRange. by destruct (Nat.eqb_spec count 0). Qed.

Lemma overscan_order scrollTop viewportHeight :
  0 <= scrollTop → 0 <= viewportHeight →
  Qmax 0 (scrollTop - OVERSCAN_PX) <= scrollTop + viewportHeight + OVERSCAN_PX.
Proof.
  intros Hs Hv. unfold OVERSCAN_PX.
  destruct (Q.max_spec 0 (scrollTop - 1200)) as [[_ ->]|[_ ->]]; lra.
Qed.

(** X2. For a non-empty sequence scrolled to a non-negative offset, the window
    is a non-empty range of valid indices, and the rendered slice is made of
    exactly the items of that range. *)
Theorem visibleRange_bounds (timeline : list ReleaseGroup) heights scrollTop viewportHeight :
  positiveHeights heights → timeline ≠ [] →
  0 <= scrollTop → 0 <= viewportHeight →
  let range := visibleRange (length timeline) (offsets (length timeline) heights)
                 scrollTop viewportHeight in
  (0 ≤ range_start range ≤ range_end range)%Z
  ∧ (range_end range ≤ Z.of_nat (length timeline) - 1)%Z
  ∧ length (visibleGroups timeline range)
    = Z.to_nat (range_end range - range_start range + 1)
  ∧ (∀ k, (k < length (visibleGroups timeline range))%nat →
       visibleGroups timeline range !! k
       = timeline !! (Z.to_nat (range_start range) + k)%nat).
Proof.
  intros Hpos Hne Hs Hv range.
  assert (Hcount : (0 < length timeline)%nat) by (destruct timeline; [done|simpl; lia]).
  unfold range. rewrite visibleRange_fields by lia.
  set (count := length timeline) in *.
  set (S0 := Qmax 0 (scrollTop - OVERSCAN_PX)).
  set (E0 := scrollTop + viewportHeight + OVERSCAN_PX).
  pose proof (findIndexForOffset_mono count heights S0 E0 Hpos
                (overscan_order _ _ Hs Hv)) as Hmono.
  destruct (findIndexForOffset_item count heights S0 Hpos Hcount) as (HltS & _).
  destruct (findIndexForOffset_item count heights E0 Hpos Hcount) as (HltE & _).
  set (iS := findIndexForOffset (offsets count heights) S0) in *.
  set (iE := findIndexForOffset (offsets count heights) E0) in *.
  cbn [range_start range_end].
  assert (Hmin : Z.min (Z.of_nat count - 1) (Z.of_nat iE) = Z.of_nat iE) by lia.
  rewrite Hmin. split; [lia|]. split; [lia|].
  unfold visibleGroups. cbn [range_start range_end].
  destruct (Z.leb_spec (Z.of_nat iS) (Z.of_nat iE)); [|lia].
  rewrite !Nat2Z.id. replace (Z.to_nat (Z.of_nat iE + 1)) with (S iE) by lia.
  split.
  - rewrite length_take, length_drop. fold count. lia.
  - intros k Hk. rewrite length_take, length_drop in Hk.
    rewrite lookup_take_lt by lia. by rewrite lookup_drop.
Qed.

Lemma visibleRange_bounds_witness :
  (0 ≤ range_start (visibleRange 3 (offsets 3 ∅) 100 600)
     ≤ range_end (visibleRange 3 (offsets 3 ∅) 100 600))%Z
  ∧ (range_end (visibleRange 3 (offsets 3 ∅) 100 600) ≤ 2)%Z.
Proof.
  destruct (visibleRange_bounds
              [ {| date := "2025-01-02"; displayDate := ""; games := [] |};
                {| date := "2025-01-03"; displayDate := ""; games := [] |};
                {| date := "2025-01-04"; displayDate := ""; games := [] |} ]
              ∅ 100 600) as (H1 & H2 & _).
  - apply map_Forall_empty.
  - done.
  - vm_compute. discriminate.
  - vm_compute. discriminate.
  - split; [exact H1|exact H2].
Defined.

Lemma visibleRange_contains count heights scrollTop viewportHeight i a b :
  positiveHeights heights →
  offsets count heights !! i = Some a →
  offsets count heights !! S i = Some b →
  a <= scrollTop + viewportHeight + OVERSCAN_PX →
  scrollTop - OVERSCAN_PX < b →
  let range := visibleRange count (offsets count heights) scrollTop viewportHeight in
  (range_start range ≤ Z.of_nat i ≤ range_end range)%Z.
Proof.
  intros Hpos Ha Hb Hbelow Habove range.
  assert (Hi : (i < count)%nat).
  { apply lookup_lt_Some in Hb. rewrite offsets_length in Hb. lia. }
  assert (Hcount : (0 < count)%nat) by lia.
  unfold range. rewrite visibleRange_fields by lia. cbn [range_start range_end].
  set (S0 := Qmax 0 (scrollTop - OVERSCAN_PX)).
  set (E0 := scrollTop + viewportHeight + OVERSCAN_PX) in *.
  assert (H0 : offsets count heights !! 0%nat = Some 0) by done.
  assert (Hbpos : 0 < b).
  { pose proof (offsets_monotone count heights 0 i 0 a Hpos ltac:(lia) H0 Ha).
    pose proof (offsets_increasing_step _ _ _ _ _ Hpos Ha Hb). lra. }
  assert (HS : 0 <= S0 ∧ S0 < b).
  { unfold S0. destruct (Q.max_spec 0 (scrollTop - OVERSCAN_PX)) as [[? ->]|[? ->]]; lra. }
  destruct (findIndexForOffset_item count heights S0 Hpos Hcount)
    as (HltS & _ & HloS & _).
  destruct (findIndexForOffset_item count heights E0 Hpos Hcount)
    as (HltE & _ & _ & HhiE & HtotE).
  set (iS := findIndexForOffset (offsets count heights) S0) in *.
  set (iE := findIndexForOffset (offsets count heights) E0) in *.
  split.
  - destruct (decide (iS ≤ i)%nat); [lia|]. exfalso.
    destruct HloS as (s & Hs & Hle); [lra|].
    pose proof (offsets_monotone count heights (S i) iS b s Hpos ltac:(lia) Hb Hs). lra.
  - destruct (decide (i ≤ iE)%nat); [lia|]. exfalso.
    pose proof (totalHeight_offsets count heights) as Htotal.
    destruct (Qlt_le_dec E0 (totalHeight (offsets count heights))) as [Hlt|Hge].
    + destruct (HhiE Hlt) as (e & He & HE).
      pose proof (offsets_monotone count heights (S iE) i e a Hpos ltac:(lia) He Ha). lra.
    + specialize (HtotE Hge). lia.
Qed.

(** X3. Every item that overlaps the viewport, extended by the overscan above
    and below, is inside the window and is one of the rendered groups. *)
Theorem visibleRange_covers (timeline : list ReleaseGroup) heights scrollTop
    viewportHeight i item a b :
  positiveHeights heights →
  timeline !! i = Some item →
  offsets (length timeline) heights !! i = Some a →
  offsets (length timeline) heights !! S i = Some b →
  a <= scrollTop + viewportHeight + OVERSCAN_PX →
  scrollTop - OVERSCAN_PX < b →
  let range := visibleRange (length timeline) (offsets (length timeline) heights)
                 scrollTop viewportHeight in
  (range_start range ≤ Z.of_nat i ≤ range_end range)%Z
  ∧ visibleGroups timeline range !! (i - Z.to_nat (range_start range))%nat
    = Some item.
Proof.
  intros Hpos Hitem Ha Hb Hbelow Habove range.
  pose proof (visibleRange_contains _ _ _ _ _ _ _ Hpos Ha Hb Hbelow Habove) as Hin.
  cbv zeta in Hin. fold range in Hin. split; [exact Hin|].
  assert (Hstart : (0 ≤ range_start range)%Z).
  { unfold range, visibleRange. case_match; cbn [range_start]; lia. }
  unfold visibleGroups. destruct (Z.leb_spec (range_start range) (range_end range)); [|lia].
  rewrite lookup_take_lt by lia. rewrite lookup_drop.
  by replace (Z.to_nat (range_start range) + (i - Z.to_nat (range_start range)))%nat
    with i by lia.
Qed.

Lemma visibleRange_covers_witness :
  (range_start (visibleRange 3 (offsets 3 ∅) 100 600) ≤ 1
   ≤ range_end (visibleRange 3 (offsets 3 ∅) 100 600))%Z
  ∧ visibleGroups Examples.scenarioTimeline (visibleRange 3 (offsets 3 ∅) 100 600)
      !! (1 - Z.to_nat (range_start (visibleRange 3 (offsets 3 ∅) 100 600)))%nat
    = Some (Examples.plainGroup "2025-01-02" [Examples.gameB]).
Proof.
  apply (visibleRange_covers Examples.scenarioTimeline ∅ 100 600 1
           (Examples.plainGroup "2025-01-02" [Examples.gameB]) 292 584).
  - apply map_Forall_empty.
  - reflexivity.
  - reflexivity.
  - reflexivity.
  - vm_compute. discriminate.
  - vm_compute. reflexivity.
Defined.

(** X4. Scrolling down never moves the window up: both ends of the window grow
    with the scroll offset. *)
Theorem visibleRange_monotone count heights scrollTop scrollTop' viewportHeight :
  positiveHeights heights → scrollTop <= scrollTop' →
  (range_start (visibleRange count (offsets count heights) scrollTop viewportHeight)
   ≤ range_start (visibleRange count (offsets count heights) scrollTop' viewportHeight))%Z
  ∧ (range_end (visibleRange count (offsets count heights) scrollTop viewportHeight)
     ≤ range_end (visibleRange count (offsets count heights) scrollTop' viewportHeight))%Z.
Proof.
  intros Hpos Hle. destruct (decide (count = 0%nat)) as [->|Hne]; [done|].
  rewrite !visibleRange_fields by done. cbn [range_start range_end].
  assert (Hs : Qmax 0 (scrollTop - OVERSCAN_PX) <= Qmax 0 (scrollTop' - OVERSCAN_PX)).
  { apply Q.max_le_compat; lra. }
  assert (He : scrollTop + viewportHeight + OVERSCAN_PX
               <= scrollTop' + viewportHeight + OVERSCAN_PX) by lra.
  pose proof (findIndexForOffset_mono count heights _ _ Hpos Hs).
  pose proof (findIndexForOffset_mono count heights _ _ Hpos He).
  lia.
Qed.

Lemma visibleRange_monotone_witness :
  (range_start (visibleRange 12 (offsets 12 ∅) 100 600)
   ≤ range_start (visibleRange 12 (offsets 12 ∅) 2000 600))%Z
  ∧ (range_end (visibleRange 12 (offsets 12 ∅) 100 600)
     ≤ range_end (visibleRange 12 (offsets 12 ∅) 2000 600))%Z.
Proof.
  apply (visibleRange_monotone 12 ∅ 100 2000 600).
  - apply map_Forall_empty.
  - vm_compute. discriminate.
Defined.

(** X5. A jump brings its target into the window. [getScrollTarget] takes
    the offset of the item from the offset table of the render and its height
    from the height cache as it is at the time of the jump. With the scroll
    offset at the target it computes, the item jumped to is inside the
    visible range of that table, so it is rendered and measured, provided the
    height in the cache is less than twice the height the table was computed
    with plus the viewport height plus twice the overscan; this is so in
    particular when the item has not been measured anew since the table was
    computed. *)
Theorem jump_target_is_rendered count memo heights el index :
  positiveHeights memo → positiveHeights heights →
  (index < count)%nat → 0 <= clientHeight el →
  getItemHeight heights index
  < 2 * getItemHeight memo index + clientHeight el + 2 * OVERSCAN_PX →
  ∃ target,
    getScrollTarget (Some el) (offsets count memo) heights index = Some target
    ∧ let range := visibleRange count (offsets count memo)
                     (clamped target) (clientHeight el) in
      (range_start range ≤ Z.of_nat index ≤ range_end range)%Z.
Proof.
  intros Hpos Hlive Hindex Hch Hgrown.
  destruct (offsets_step count memo index Hindex) as (a & Ha & Hb).
  eexists. split; [reflexivity|]. cbn [clamped].
  eapply visibleRange_contains; [done|exact Ha|exact Hb| |].
  all: unfold centeredOffset; rewrite Ha; change (default 0 (Some a)) with a.
  all: set (hm := getItemHeight memo index) in *.
  all: set (h := getItemHeight heights index) in *.
  all: assert (Hhm : 0 < hm) by by apply getItemHeight_pos.
  all: assert (Hh : 0 < h) by by apply getItemHeight_pos.
  all: set (gap := if (index =? count - 1)%nat then 0 else ITEM_GAP) in *.
  all: assert (Hgap : 0 <= gap) by (unfold gap; case_match; [lra|by vm_compute]).
  all: pose proof (totalHeight_offsets count memo) as Htotal.
  all: assert (Hbt : a + hm + gap <= totalHeight (offsets count memo))
         by (eapply (offsets_monotone count memo (S index) count); [done|lia|done|done]).
  all: set (total := totalHeight (offsets count memo)) in *.
  all: unfold Qdiv; change (/ 2) with (1 # 2).
  all: set (offset := a - clientHeight el * (1 # 2) + h * (1 # 2)).
  all: assert (Hhi0 : 0 <= Qmax 0 (total - clientHeight el)) by apply Q.le_max_l.
  all: destruct (clamp_isClampOf 0 (Qmax 0 (total - clientHeight el)) offset Hhi0)
         as ((Hlo & Hhi) & Hunder & Hover & Hin).
  all: set (c := Qmin (Qmax offset 0) (Qmax 0 (total - clientHeight el))) in *.
  all: pose proof (Q.le_max_r 0 (total - clientHeight el)) as Hmax.
  all: unfold OVERSCAN_PX in *; clearbody c total gap h hm.
  - destruct (Qlt_le_dec offset 0) as [Hneg|Hnn].
    + rewrite (Hunder Hneg). unfold offset in Hneg. lra.
    + destruct (Qlt_le_dec (Qmax 0 (total - clientHeight el)) offset) as [Hbig|Hfit].
      * rewrite (Hover Hbig). lra.
      * rewrite (Hin (conj Hnn Hfit)). unfold offset. lra.
  - destruct (Qlt_le_dec offset 0) as [Hneg|Hnn].
    + rewrite (Hunder Hneg). pose proof (offsets_monotone count memo 0 index 0 a Hpos
        ltac:(lia) eq_refl Ha). lra.
    + destruct (Qlt_le_dec (Qmax 0 (total - clientHeight el)) offset) as [Hbig|Hfit].
      * rewrite (Hover Hbig). unfold offset in Hbig. lra.
      * rewrite (Hin (conj Hnn Hfit)). unfold offset. lra.
Qed.

(** Forty items in a 600px viewport; item 30 has been measured at 400px
    since the table was computed from the estimates. *)
Lemma jump_target_is_rendered_witness :
  ∃ target,
    getScrollTarget (Some Examples.tallViewport) (offsets 40 ∅) {[30%nat := 400]} 30
    = Some target
    ∧ (range_start (visibleRange 40 (offsets 40 ∅) (clamped target) 600) ≤ 30
       ≤ range_end (visibleRange 40 (offsets 40 ∅) (clamped target) 600))%Z.
Proof.
  apply (jump_target_is_rendered 40 ∅ {[30%nat := 400]} Examples.tallViewport 30).
  - apply map_Forall_empty.
  - apply map_Forall_singleton. reflexivity.
  - lia.
  - vm_compute. discriminate.
  - vm_compute. reflexivity.
Defined.

(** Where the proviso fails: item 10 has grown to 6000px since the table was
    computed, the jump goes to the middle of the item as it is now, and the
    window computed from the table at that offset starts after item 10. *)
Example jump_target_outgrown :
  match getScrollTarget (Some Examples.tallViewport) (offsets 40 ∅)
          {[10%nat := 6000]} 10 with
  | Some target =>
      clamped target == 5620
      ∧ range_start (visibleRange 40 (offsets 40 ∅) (clamped target) 600) = 15%Z
  | None => False
  end.
Proof. vm_compute. split; reflexivity. Qed.

(** X6. The spacers stand for the items that are not rendered: the top spacer
    is the offset of the first rendered item, the bottom spacer is what lies
    below the last one, neither is negative, and together with the rendered
    span they add up to the total height. *)
Theorem spacers_fill_total count heights scrollTop viewportHeight :
  positiveHeights heights → (0 < count)%nat →
  0 <= scrollTop → 0 <= viewportHeight →
  let offs := offsets count heights in
  let range := visibleRange count offs scrollTop viewportHeight in
  ∃ a b,
    offsetAt offs (range_start range) = Some a
    ∧ offsetAt offs (range_end range + 1) = Some b
    ∧ topSpacer count offs range = a
    ∧ bottomSpacer count offs range == totalHeight offs - b
    ∧ 0 <= topSpacer count offs range
    ∧ 0 <= bottomSpacer count offs range
    ∧ topSpacer count offs range + (b - a) + bottomSpacer count offs range
      == totalHeight offs.
Proof.
  intros Hpos Hcount Hs Hv offs range.
  unfold range. rewrite visibleRange_fields by lia.
  set (S0 := Qmax 0 (scrollTop - OVERSCAN_PX)).
  set (E0 := scrollTop + viewportHeight + OVERSCAN_PX).
  destruct (findIndexForOffset_item count heights S0 Hpos Hcount) as (HltS & _).
  destruct (findIndexForOffset_item count heights E0 Hpos Hcount) as (HltE & _).
  fold offs in HltS, HltE.
  set (iS := findIndexForOffset offs S0) in *.
  set (iE := findIndexForOffset offs E0) in *.
  assert (Hmin : Z.min (Z.of_nat count - 1) (Z.of_nat iE) = Z.of_nat iE) by lia.
  rewrite Hmin.
  destruct (lookup_lt_is_Some_2 offs iS) as [a Ha].
  { unfold offs. rewrite offsets_length. lia. }
  destruct (lookup_lt_is_Some_2 offs (S iE)) as [b Hb].
  { unfold offs. rewrite offsets_length. lia. }
  assert (HatS : offsetAt offs (Z.of_nat iS) = Some a).
  { unfold offsetAt. destruct (Z.ltb_spec (Z.of_nat iS) 0); [lia|]. by rewrite Nat2Z.id. }
  assert (HatE : offsetAt offs (Z.of_nat iE + 1) = Some b).
  { unfold offsetAt. destruct (Z.ltb_spec (Z.of_nat iE + 1) 0); [lia|].
    by replace (Z.to_nat (Z.of_nat iE + 1)) with (S iE) by lia. }
  assert (H0 : offs !! 0%nat = Some 0) by done.
  pose proof (totalHeight_offsets count heights) as Htotal. fold offs in Htotal.
  pose proof (offsets_monotone count heights 0 iS 0 a Hpos ltac:(lia) H0 Ha) as Ha0.
  pose proof (offsets_monotone count heights (S iE) count b _ Hpos ltac:(lia) Hb Htotal)
    as Hbt.
  exists a, b. cbn [range_start range_end].
  assert (Htop : topSpacer count offs
                   {| range_start := Z.of_nat iS; range_end := Z.of_nat iE |} = a).
  { unfold topSpacer. destruct (Nat.eqb_spec count 0); [lia|].
    cbn [range_start]. by rewrite HatS. }
  assert (Hend : endOffset count offs
                   {| range_start := Z.of_nat iS; range_end := Z.of_nat iE |} = b).
  { unfold endOffset. cbn [range_end].
    destruct (Z.leb_spec 0 (Z.of_nat iE)); [|lia]. by rewrite HatE. }
  assert (Hbottom : bottomSpacer count offs
                      {| range_start := Z.of_nat iS; range_end := Z.of_nat iE |}
                    == totalHeight offs - b).
  { unfold bottomSpacer. destruct (Nat.eqb_spec count 0); [lia|].
    rewrite Hend. apply Q.max_r. lra. }
  split; [done|]. split; [done|]. split; [done|]. split; [done|].
  rewrite Htop. split; [done|]. split; [|].
  - generalize Hbottom. generalize (bottomSpacer count offs
      {| range_start := Z.of_nat iS; range_end := Z.of_nat iE |}). intros q Hq. lra.
  - generalize Hbottom. generalize (bottomSpacer count offs
      {| range_start := Z.of_nat iS; range_end := Z.of_nat iE |}). intros q Hq. lra.
Qed.

Lemma spacers_fill_total_witness :
  let offs := offsets 3 ∅ in
  let range := visibleRange 3 offs 100 600 in
  ∃ a b,
    offsetAt offs (range_start range) = Some a
    ∧ offsetAt offs (range_end range + 1) = Some b
    ∧ topSpacer 3 offs range = a
    ∧ bottomSpacer 3 offs range == totalHeight offs - b
    ∧ 0 <= topSpacer 3 offs range
    ∧ 0 <= bottomSpacer 3 offs range
    ∧ topSpacer 3 offs range + (b - a) + bottomSpacer 3 offs range
      == totalHeight offs.
Proof.
  apply (spacers_fill_total 3 ∅ 100 600).
  - apply map_Forall_empty.
  - lia.
  - vm_compute. discriminate.
  - vm_compute. discriminate.
Defined.

(** X7. With no measurement in the cache, as after [resetMeasurements], the
    table is the estimate table: item [i] starts at [i * 292] and the total is
    [count * 292 - 32]. *)
Theorem offsets_estimates count i :
  (i < count)%nat →
  ∃ a t,
    offsets count ∅ !! i = Some a
    ∧ a == inject_Z (Z.of_nat i) * (ESTIMATED_ITEM_HEIGHT + ITEM_GAP)
    ∧ offsets count ∅ !! count = Some t
    ∧ t == inject_Z (Z.of_nat count) * (ESTIMATED_ITEM_HEIGHT + ITEM_GAP) - ITEM_GAP.
Proof.
  intros Hi.
  assert (Hrow : ∀ k, (k < count)%nat →
            ∃ a, offsets count ∅ !! k = Some a
                 ∧ a == inject_Z (Z.of_nat k) * (ESTIMATED_ITEM_HEIGHT + ITEM_GAP)).
  { induction k as [|k IH]; intros Hk.
    - exists 0. split; [done|]. reflexivity.
    - destruct IH as (a & Ha & Hva); [lia|].
      destruct (offsets_step count ∅ k) as (a' & Ha' & Hnext); [lia|].
      rewrite Ha in Ha'. injection Ha' as <-.
      eexists. split; [exact Hnext|].
      destruct (Nat.eqb_spec k (count - 1)); [lia|].
      unfold getItemHeight. rewrite lookup_empty. cbn [default].
      rewrite Nat2Z.inj_succ. unfold Z.succ. rewrite inject_Z_plus.
      unfold ESTIMATED_ITEM_HEIGHT, ITEM_GAP in *. change (inject_Z 1) with 1. lra. }
  destruct (Hrow i Hi) as (a & Ha & Hva).
  destruct (Hrow (count - 1)%nat) as (l & Hl & Hvl); [lia|].
  destruct (offsets_step count ∅ (count - 1)) as (l' & Hl' & Hlast); [lia|].
  rewrite Hl in Hl'. injection Hl' as <-.
  replace (S (count - 1)) with count in Hlast by lia.
  rewrite Nat.eqb_refl in Hlast.
  exists a. eexists. split; [done|]. split; [done|]. split; [exact Hlast|].
  unfold getItemHeight. rewrite lookup_empty. cbn [default].
  replace (Z.of_nat count) with (Z.of_nat (count - 1) + 1)%Z by lia.
  rewrite inject_Z_plus. unfold ESTIMATED_ITEM_HEIGHT, ITEM_GAP in *.
  change (inject_Z 1) with 1. lra.
Qed.

Lemma offsets_estimates_witness :
  ∃ a t, offsets 3 ∅ !! 2%nat = Some a ∧ a == 584
         ∧ offsets 3 ∅ !! 3%nat = Some t ∧ t == 844.
Proof.
  destruct (offsets_estimates 3 2) as (a & t & Ha & Hva & Ht & Hvt); [lia|].
  exists a, t. split; [exact Ha|]. split; [|split; [exact Ht|]].
  - rewrite Hva. reflexivity.
  - rewrite Hvt. reflexivity.
Defined.

End IndexFacts.

(** ** Measurements and what the component keeps true while it runs *)
Module MeasureFacts.
Import Timeline TimelineFacts Layout LayoutFacts Pagination PaginationFacts LoadFacts.
Import InitialLoad Invariants.
Local Open Scope Q_scope.

(** X8. A reported height that is not positive is ignored and the prior value
    stays. A positive one is stored, and is then the height of the item, while
    the other items keep theirs. Reporting the height an item already has
    changes nothing and asks for no new epoch. *)
Theorem measureItem_records index height heights :
  (height <= 0 → measureItem index height heights = (heights, false))
  ∧ (0 < height →
     getItemHeight (measureItem index height heights).1 index == height)
  ∧ (∀ other, other ≠ index →
       getItemHeight (measureItem index height heights).1 other
       = getItemHeight heights other)
  ∧ (∀ prev, heights !! index = Some prev → prev == height →
       measureItem index height heights = (heights, false))
  ∧ (measureItem index height (measureItem index height heights).1).2 = false.
Proof.
  unfold measureItem. split_and!.
  - intros Hle. apply Qle_bool_iff in Hle. by rewrite Hle.
  - intros Hpos.
    assert (Hb : Qle_bool height 0 = false).
    { destruct (Qle_bool height 0) eqn:E; [|done].
      apply Qle_bool_iff in E. lra. }
    rewrite Hb. cbn [negb andb].
    destruct (heights !! index) as [prev|] eqn:Hprev.
    + destruct (Qeq_bool prev height) eqn:E; cbn [negb fst].
      * unfold getItemHeight. rewrite Hprev. by apply Qeq_bool_iff.
      * unfold getItemHeight. rewrite lookup_insert_eq. reflexivity.
    + cbn [fst]. unfold getItemHeight. rewrite lookup_insert_eq. reflexivity.
  - intros other Hne.
    destruct (negb (Qle_bool height 0) && _)%bool; cbn [fst]; [|done].
    unfold getItemHeight. by rewrite lookup_insert_ne.
  - intros prev Hprev Heq. rewrite Hprev.
    apply Qeq_bool_iff in Heq. rewrite Heq. cbn [negb]. by rewrite andb_false_r.
  - destruct (Qle_bool height 0) eqn:Hb; cbn [negb andb fst snd]; [done|].
    destruct (heights !! index) as [prev|] eqn:Hprev.
    + destruct (Qeq_bool prev height) eqn:E; cbn [negb fst].
      * by rewrite ?Hprev, ?E.
      * by rewrite lookup_insert_eq, Qeq_bool_refl.
    + cbn [fst]. by rewrite lookup_insert_eq, Qeq_bool_refl.
Qed.

Section Running.
Variable getTime : string → option Z.

Lemma step_memoFresh ev sys :
  memoFresh (st sys) → memoFresh (st (step getTime ev sys)).
Proof.
  unfold memoFresh. intros Hinv. destruct ev; cbn [step onState st].
  - unfold handleWheel. by repeat case_match.
  - done.
  - done.
  - unfold scrollFrame. by case_match.
  - done.
  - unfold measure.
    destruct (measureItem index height (heightsRef (metrics (st sys))))
      as [heights' changed] eqn:Hm.
    cbn [withMetrics metrics paging pendingMeasureVersionRef offsets heightsRef].
    intros Hflag. apply orb_false_elim in Hflag as [Hflag Hchanged].
    subst changed. rewrite (Hinv Hflag). f_equal.
    unfold measureItem in Hm.
    destruct (negb (Qle_bool height 0) && _)%bool; by injection Hm as <-.
  - unfold measureFrame. case_match; [intros _; reflexivity|auto].
  - intros _. reflexivity.
  - unfold applyPendingScrollShift. case_match; [done|].
    cbn [metrics paging pendingMeasureVersionRef offsets heightsRef timeline
         setIsTransitioning]. done.
  - unfold edgeLoadEffect. repeat case_match; try done.
    unfold loadAdjacentYear_start. by case_match.
  - unfold settle. case_match; [|done]. cbn [st].
    destruct (applyQueued_fields (queued sys) (st sys)) as (Ht & _ & _ & _ & _ & Hm & _).
    destruct result as [entries|message].
    + intros _. unfold settleOk. cbn [metrics paging recomputeOffsets offsets heightsRef].
      by destruct d.
    + unfold settleFailed. cbn [withPaging metrics paging].
      rewrite Hm. replace (timeline (setLoading d false _)) with (timeline (paging (st sys)))
        by (by destruct d). done.
  - cbn [render st]. destruct (applyQueued_fields (queued sys) (st sys))
      as (-> & _ & _ & _ & _ & -> & _). done.
  - destruct (pendingSnapFlush_fields pending (st sys)) as (-> & -> & _). done.
Qed.

Lemma step_measureVersion ev sys :
  (measureVersion (metrics (st sys))
   ≤ measureVersion (metrics (st (step getTime ev sys))))%Z.
Proof.
  destruct ev; cbn [step onState st].
  - unfold handleWheel. repeat case_match; simpl; lia.
  - simpl. lia.
  - simpl. lia.
  - unfold scrollFrame. case_match; simpl; lia.
  - simpl. lia.
  - unfold measure. destruct (measureItem _ _ _). simpl. lia.
  - unfold measureFrame. case_match; simpl; lia.
  - simpl. lia.
  - unfold applyPendingScrollShift. case_match; simpl; lia.
  - unfold edgeLoadEffect. repeat case_match; try lia.
    unfold loadAdjacentYear_start. case_match; simpl; lia.
  - unfold settle. case_match; [|lia]. cbn [st].
    destruct (applyQueued_fields (queued sys) (st sys)) as (_ & _ & _ & _ & _ & Hm & _).
    destruct result; cbn [settleOk settleFailed withPaging metrics recomputeOffsets
                          measureVersion]; rewrite Hm; lia.
  - cbn [render st]. destruct (applyQueued_fields (queued sys) (st sys))
      as (_ & _ & _ & _ & _ & -> & _). lia.
  - destruct (pendingSnapFlush_fields pending (st sys)) as (_ & -> & _). lia.
Qed.

Lemma run_memoFresh events sys :
  memoFresh (st sys) → memoFresh (st (run getTime events sys)).
Proof.
  revert sys. induction events as [|ev events IH]; intros sys Hfresh; [done|].
  unfold run. cbn [foldl]. fold (run getTime events (step getTime ev sys)).
  by apply IH, step_memoFresh.
Qed.

Lemma run_measureVersion events sys :
  (measureVersion (metrics (st sys))
   ≤ measureVersion (metrics (st (run getTime events sys))))%Z.
Proof.
  revert sys. induction events as [|ev events IH]; intros sys.
  - unfold run. cbn [foldl]. lia.
  - unfold run. cbn [foldl]. fold (run getTime events (step getTime ev sys)).
    pose proof (step_measureVersion ev sys).
    pose proof (IH (step getTime ev sys)). lia.
Qed.

(** X9. Over any run of the component: the epoch counter never goes back, the
    memoised offset table is in step with the height cache whenever no epoch
    bump is pending, and the stored heights stay positive. *)
Theorem run_keeps_layout_consistent events sys :
  memoFresh (st sys) → positiveHeights (heightsRef (metrics (st sys))) →
  (measureVersion (metrics (st sys))
   ≤ measureVersion (metrics (st (run getTime events sys))))%Z
  ∧ memoFresh (st (run getTime events sys))
  ∧ positiveHeights (heightsRef (metrics (st (run getTime events sys)))).
Proof.
  intros Hfresh Hpos. split_and!.
  - apply run_measureVersion.
  - by apply run_memoFresh.
  - by apply run_positiveHeights.
Qed.

Lemma run_measures measurements sys :
  let sys' := run getTime ((λ m, EvMeasure m.1 m.2) <$> measurements) sys in
  paging (st sys') = paging (st sys)
  ∧ scrolling (st sys') = scrolling (st sys)
  ∧ inFlight sys' = inFlight sys
  ∧ measureVersion (metrics (st sys')) = measureVersion (metrics (st sys))
  ∧ offsets (metrics (st sys')) = offsets (metrics (st sys))
  ∧ pendingScrollShiftRef (metrics (st sys')) = pendingScrollShiftRef (metrics (st sys))
  ∧ (pendingMeasureVersionRef (metrics (st sys')) = false →
     pendingMeasureVersionRef (metrics (st sys)) = false
     ∧ heightsRef (metrics (st sys')) = heightsRef (metrics (st sys)))
  ∧ (∀ i, (∀ m, m ∈ measurements → m.1 ≠ i) →
       heightsRef (metrics (st sys')) !! i = heightsRef (metrics (st sys)) !! i).
Proof.
  revert sys. induction measurements as [|[index height] rest IH]; intros sys.
  - cbn. by split_and!.
  - rewrite fmap_cons. unfold run. cbn [foldl fst snd].
    fold (run getTime ((λ m, EvMeasure m.1 m.2) <$> rest)
            (step getTime (EvMeasure index height) sys)).
    destruct (IH (step getTime (EvMeasure index height) sys))
      as (Hp & Hs & Hf & Hv & Ho & Hsh & Hflag & Hother).
    cbv zeta. rewrite Hp, Hs, Hf, Hv, Ho, Hsh.
    cbn [step onState st inFlight] in *. unfold measure in *.
    destruct (measureItem index height (heightsRef (metrics (st sys))))
      as [heights' changed] eqn:Hm.
    cbn [withMetrics metrics paging scrolling measureVersion offsets
         pendingScrollShiftRef pendingMeasureVersionRef heightsRef] in *.
    split_and!; try done.
    + intros Hfinal. destruct (Hflag Hfinal) as [Hor Hh].
      apply orb_false_elim in Hor as [Hold Hchanged]. split; [done|].
      rewrite Hh. subst changed. unfold measureItem in Hm.
      destruct (negb (Qle_bool height 0) && _)%bool; by injection Hm as <-.
    + intros i Hi. rewrite Hother by (intros m Hin; apply Hi; by right).
      assert (Hne : index ≠ i) by (apply (Hi (index, height)); left).
      unfold measureItem in Hm.
      destruct (negb (Qle_bool height 0) && _)%bool; injection Hm as <- _;
        [by rewrite lookup_insert_ne|done].
Qed.

(** X10. One epoch per batch of measurements. However many heights are
    reported before the animation frame, the frame raises the epoch by one
    when a report changed the cache and the offset table is then that of the
    new cache; when no report changed it the epoch, the cache and the table
    stay as they were. No frame is left pending, the heights of the items not
    reported are kept, and the pages, the scroll state and the fetches in
    flight are untouched. *)
Theorem measurements_bump_epoch_once measurements sys :
  pendingMeasureVersionRef (metrics (st sys)) = false →
  let sys' := run getTime
                (((λ m, EvMeasure m.1 m.2) <$> measurements) ++ [EvMeasureFrame])
                sys in
  ((measureVersion (metrics (st sys')) = measureVersion (metrics (st sys))
    ∧ heightsRef (metrics (st sys')) = heightsRef (metrics (st sys))
    ∧ offsets (metrics (st sys')) = offsets (metrics (st sys)))
   ∨ (measureVersion (metrics (st sys')) = (measureVersion (metrics (st sys)) + 1)%Z
      ∧ offsets (metrics (st sys'))
        = Layout.offsets (length (timeline (paging (st sys'))))
            (heightsRef (metrics (st sys')))))
  ∧ pendingMeasureVersionRef (metrics (st sys')) = false
  ∧ (∀ i, (∀ m, m ∈ measurements → m.1 ≠ i) →
       heightsRef (metrics (st sys')) !! i = heightsRef (metrics (st sys)) !! i)
  ∧ paging (st sys') = paging (st sys)
  ∧ scrolling (st sys') = scrolling (st sys)
  ∧ inFlight sys' = inFlight sys.
Proof.
  intros Hflag sys'. unfold sys', run. rewrite foldl_app.
  fold (run getTime ((λ m, EvMeasure m.1 m.2) <$> measurements) sys).
  destruct (run_measures measurements sys)
    as (Hp & Hs & Hf & Hv & Ho & Hsh & Hquiet & Hother).
  set (mid := run getTime ((λ m, EvMeasure m.1 m.2) <$> measurements) sys) in *.
  cbn [foldl step onState st inFlight]. unfold measureFrame.
  destruct (pendingMeasureVersionRef (metrics (st mid))) eqn:Hpending.
  - cbn [withMetrics metrics paging scrolling recomputeOffsets measureVersion offsets
         heightsRef pendingMeasureVersionRef].
    split_and!; try done. right. by rewrite Hv.
  - destruct (Hquiet eq_refl) as [_ Hh]. split_and!; try done. by left.
Qed.

End Running.

Lemma measurements_bump_epoch_once_witness :
  let sys' := run IsoDate.getTime
                [EvMeasure 1 310; EvMeasure 2 250; EvMeasure 1 305; EvMeasureFrame]
                Examples.scenarioSys in
  pendingMeasureVersionRef (metrics (st sys')) = false
  ∧ heightsRef (metrics (st sys')) !! 0%nat = Some 300.
Proof.
  destruct (measurements_bump_epoch_once IsoDate.getTime
              [(1%nat, 310); (2%nat, 250); (1%nat, 305)] Examples.scenarioSys)
    as (_ & Hflag & Hother & _).
  - reflexivity.
  - split; [exact Hflag|].
    etransitivity; [apply (Hother 0%nat)|reflexivity].
    intros m Hm. repeat (apply elem_of_cons in Hm as [->|Hm]); try done.
    by apply elem_of_nil in Hm.
Defined.

Lemma run_keeps_layout_consistent_witness :
  let events := [EvMeasure 1 310; EvMeasure 2 250; EvMeasureFrame;
                 EvResetMeasurements; EvMeasure 0 280] in
  let final := st (run IsoDate.getTime events Examples.scenarioSys) in
  (1 ≤ measureVersion (metrics final))%Z
  ∧ memoFresh final
  ∧ positiveHeights (heightsRef (metrics final)).
Proof.
  apply (run_keeps_layout_consistent IsoDate.getTime
           [EvMeasure 1 310; EvMeasure 2 250; EvMeasureFrame;
            EvResetMeasurements; EvMeasure 0 280] Examples.scenarioSys).
  - intros _. reflexivity.
  - apply map_Forall_singleton. reflexivity.
Defined.

End MeasureFacts.

(** ** What a merge keeps *)
Module GrowthFacts.
Import Timeline TimelineFacts Layout LayoutFacts Pagination PaginationFacts LoadFacts.
Import Growth Invariants.

Lemma mapSet_games key cur value extra (m : GroupMap) :
  mapGet key m = Some cur → games value = games cur ++ extra →
  concat (games <$> mapValues (mapSet key value m))
  ≡ₚ concat (games <$> mapValues m) ++ extra.
Proof.
  unfold mapValues. induction m as [|[k v] m IH]; [done|].
  cbn [mapGet mapSet]. destruct (String.eqb k key).
  - intros [= ->] Hv. rewrite !fmap_cons. cbn [snd concat].
    rewrite Hv, <- !app_assoc. apply Permutation_app_head, Permutation_app_comm.
  - intros Hget Hv. rewrite !fmap_cons. cbn [snd concat].
    rewrite <- app_assoc. apply Permutation_app_head. by apply IH.
Qed.

Lemma pushEntry_games g e :
  concat (games <$> mapValues (pushEntry g e))
  ≡ₚ concat (games <$> mapValues g) ++ games e.
Proof.
  unfold pushEntry. destruct (mapGet (date e) g) as [cur|] eqn:Hget; cbn [default].
  - by apply (mapSet_games _ cur).
  - rewrite mapSet_fresh by by apply mapGet_None.
    unfold mapValues. rewrite !fmap_app, concat_app. simpl.
    by rewrite app_nil_r.
Qed.

Lemma foldl_pushEntry_games entries g :
  concat (games <$> mapValues (foldl pushEntry g entries))
  ≡ₚ concat (games <$> mapValues g) ++ concat (games <$> entries).
Proof.
  revert g. induction entries as [|e entries IH]; intros g.
  - simpl. by rewrite app_nil_r.
  - cbn [foldl]. rewrite IH, pushEntry_games, fmap_cons. cbn [concat].
    by rewrite app_assoc.
Qed.

Lemma setPrev_values prev :
  NoDup (date <$> prev) → mapValues (foldl setPrev [] prev) = prev.
Proof.
  intros Hnd. rewrite foldl_setPrev_fresh by done.
  unfold mapValues. cbn [app]. rewrite <- list_fmap_compose.
  by rewrite list_fmap_id.
Qed.

Section Merged.
Variable getTime : string → option Z.

(** X11. A merge loses no game and repeats none: the games of the merged
    sequence are those of the sequence and of the page, each as often as it
    occurred there. *)
Theorem mergeTimeline_keeps_games prev entries :
  NoDup (date <$> prev) →
  concat (games <$> mergeTimeline getTime prev entries)
  ≡ₚ concat (games <$> prev) ++ concat (games <$> entries).
Proof.
  intros Hnd. unfold mergeTimeline.
  rewrite (sortByDate_Permutation getTime), foldl_pushEntry_games.
  by rewrite setPrev_values.
Qed.

Lemma mergeTimeline_date_elem prev entries d :
  d ∈ date <$> mergeTimeline getTime prev entries
  ↔ d ∈ date <$> prev ∨ d ∈ date <$> entries.
Proof.
  unfold mergeTimeline. rewrite (sortByDate_Permutation getTime).
  rewrite keyed_dates
    by (apply foldl_pushEntry_keyed, foldl_setPrev_keyed; constructor).
  rewrite foldl_pushEntry_keys, foldl_setPrev_keys.
  cbn [fmap list_fmap]. rewrite elem_of_nil. tauto.
Qed.

Lemma readable_dates l :
  readable getTime l ↔ ∀ d, d ∈ date <$> l → is_Some (getTime d).
Proof.
  unfold readable. rewrite Forall_forall. split.
  - intros Hall d Hd. apply list_elem_of_fmap in Hd as (e & -> & He). by apply Hall.
  - intros Hall e He. apply Hall, list_elem_of_fmap. by exists e.
Qed.

Lemma mergeTimeline_readable prev entries :
  readable getTime prev → readable getTime entries →
  readable getTime (mergeTimeline getTime prev entries).
Proof.
  rewrite !readable_dates. intros Hprev Hentries d Hd.
  apply mergeTimeline_date_elem in Hd as [Hd|Hd]; auto.
Qed.

(** With dates that all have a time, a merged sequence is in ascending
    order of time. *)
Lemma mergeTimeline_ascending prev entries :
  readable getTime prev → readable getTime entries →
  ascending getTime (mergeTimeline getTime prev entries).
Proof.
  intros Hprev Hentries. apply readable_inOrder_ascending.
  - by apply mergeTimeline_readable.
  - apply mergeTimeline_wellformed.
Qed.

(** X12. The dates of a merged sequence are those of the sequence and those of
    the page, each of them once, for any sequence and any page. When all
    these dates have a time, the merged sequence is in ascending order of
    time. *)
Theorem mergeTimeline_dates prev entries :
  (∀ d, d ∈ date <$> mergeTimeline getTime prev entries
        ↔ d ∈ date <$> prev ∨ d ∈ date <$> entries)
  ∧ NoDup (date <$> mergeTimeline getTime prev entries)
  ∧ (readable getTime prev → readable getTime entries →
     readable getTime (mergeTimeline getTime prev entries)
     ∧ StronglySorted Z.le (times getTime (mergeTimeline getTime prev entries))).
Proof.
  split; [intros d; apply mergeTimeline_date_elem|].
  split; [apply mergeTimeline_wellformed|].
  intros Hprev Hentries. by apply mergeTimeline_ascending.
Qed.

Lemma inOrder_app l sorted :
  inOrder getTime l → inOrder getTime sorted →
  (∀ x y, last l = Some x → head sorted = Some y → comesAfter getTime x y = false) →
  inOrder getTime (l ++ sorted).
Proof.
  unfold inOrder. intros Hl Hs Hjoin. induction Hl as [|x l Hl IH Hx]; [done|].
  cbn [app]. constructor.
  - apply IH. intros a b Ha Hb. apply Hjoin; [|done].
    destruct l; [done|]. done.
  - destruct Hx as [|y l' Hxy]; cbn [app].
    + destruct sorted as [|y sorted]; constructor. by apply Hjoin.
    + by constructor.
Qed.

Lemma sortByDate_app_newer l page :
  newerPage getTime page l → inOrder getTime l →
  sortByDate getTime (l ++ page) = l ++ sortByDate getTime page.
Proof.
  intros Hnew Hord.
  assert (Hall : inOrder getTime (l ++ sortByDate getTime page)).
  { apply inOrder_app; [done|apply sortByDate_sorted|].
    intros x y Hx Hy. apply comesAfter_asym.
    assert (Hyin : y ∈ page).
    { rewrite <- (sortByDate_Permutation getTime).
      destruct (sortByDate getTime page); [done|]. injection Hy as ->. left. }
    assert (Hxin : x ∈ l).
    { apply last_Some in Hx as [l' ->]. apply elem_of_app. right. left. }
    unfold newerPage in Hnew. rewrite Forall_forall in Hnew.
    specialize (Hnew _ Hyin). rewrite Forall_forall in Hnew. by apply Hnew. }
  unfold sortByDate at 1. rewrite foldr_app. fold (sortByDate getTime page).
  clear Hnew Hord. induction l as [|x l IH]; [done|].
  cbn [app foldr] in *. unfold inOrder in Hall.
  apply Sorted_inv in Hall as [Hrest Hhd]. rewrite (IH Hrest).
  destruct Hhd as [|y rest Hxy]; [done|]. cbn [insertSorted]. by rewrite Hxy.
Qed.

Lemma newerPage_created page l :
  newerPage getTime page l → newerPage getTime (created <$> page) l.
Proof. unfold newerPage. rewrite Forall_fmap. done. Qed.

Lemma mergeTimeline_append_eq prev page :
  NoDup (date <$> prev) → NoDup (date <$> page) →
  newerPage getTime page prev → inOrder getTime prev →
  mergeTimeline getTime prev page = prev ++ sortByDate getTime (created <$> page).
Proof.
  intros Hprev Hpage Hnew Hord. unfold mergeTimeline.
  rewrite foldl_setPrev_fresh by (by rewrite app_nil_l). rewrite app_nil_l.
  assert (Hkeys : ((λ p, (date p, p)) <$> prev).*1 = date <$> prev).
  { rewrite <- list_fmap_compose. done. }
  rewrite foldl_pushEntry_fresh.
  - unfold mapValues. rewrite fmap_app, <- !list_fmap_compose.
    change (snd ∘ (λ p : ReleaseGroup, (date p, p))) with (@id ReleaseGroup).
    rewrite list_fmap_id.
    change (snd ∘ (λ e : ReleaseGroup, (date e, created e))) with created.
    apply sortByDate_app_newer; [by apply newerPage_created|done].
  - rewrite Hkeys. apply NoDup_app. split_and!; [done| |done].
    intros k Hk Hk'.
    apply list_elem_of_fmap in Hk as (p & -> & Hp).
    apply list_elem_of_fmap in Hk' as (e & Heq & He).
    unfold newerPage in Hnew. rewrite Forall_forall in Hnew.
    specialize (Hnew _ He). rewrite Forall_forall in Hnew.
    specialize (Hnew _ Hp). apply comesAfter_irrefl_date in Hnew. congruence.
Qed.

Lemma offsets_prefix count count' heights i :
  (i < count)%nat → (count ≤ count')%nat →
  Layout.offsets count' heights !! i = Layout.offsets count heights !! i.
Proof.
  intros Hi Hle. induction i as [|i IH]; [done|].
  destruct (offsets_step count heights i) as (a & Ha & HSa); [lia|].
  destruct (offsets_step count' heights i) as (a' & Ha' & HSa'); [lia|].
  rewrite IH, Ha in Ha' by lia. injection Ha' as <-.
  rewrite HSa, HSa'.
  destruct (Nat.eqb_spec i (count - 1)); [lia|].
  destruct (Nat.eqb_spec i (count' - 1)); [lia|]. done.
Qed.

(** X13. A page of new, distinct, newer dates that arrives as the next year is
    put behind the sequence: every item keeps its index, the height cache and
    the pending scroll shift are left as they are, and no item of the sequence
    moves, its offset in the new table being the one it had. *)
Theorem append_keeps_layout year entries s :
  NoDup (date <$> timeline (paging s)) →
  inOrder getTime (timeline (paging s)) →
  NoDup (date <$> entries) →
  newerPage getTime entries (timeline (paging s)) →
  let s' := settleOk getTime year Next entries s in
  timeline (paging s')
  = timeline (paging s) ++ sortByDate getTime (created <$> entries)
  ∧ (∀ i item, timeline (paging s) !! i = Some item →
       timeline (paging s') !! i = Some item)
  ∧ heightsRef (metrics s') = heightsRef (metrics s)
  ∧ pendingScrollShiftRef (metrics s') = pendingScrollShiftRef (metrics s)
  ∧ scrolling s' = scrolling s
  ∧ (∀ i, (i < length (timeline (paging s)))%nat →
       offsets (metrics s') !! i
       = Layout.offsets (length (timeline (paging s))) (heightsRef (metrics s)) !! i).
Proof.
  intros Hnd Hord Hpage Hnew s'.
  assert (Ht : timeline (paging s')
               = timeline (paging s) ++ sortByDate getTime (created <$> entries)).
  { unfold s'. rewrite settleOk_timeline. by apply mergeTimeline_append_eq. }
  split_and!; try done.
  - intros i item Hi. rewrite Ht. by apply lookup_app_l_Some.
  - intros i Hi. unfold s', settleOk.
    cbn [metrics recomputeOffsets offsets heightsRef].
    apply offsets_prefix; [done|].
    fold (settleOk getTime year Next entries s).
    change (mergeTimeline getTime (timeline (paging s)) entries)
      with (timeline (paging (settleOk getTime year Next entries s))).
    fold s'. rewrite Ht, length_app. lia.
Qed.

Lemma grows_same p p' :
  timeline p' = timeline p → loadedYears p' = loadedYears p →
  availableYears p' = availableYears p → grows p p'.
Proof. unfold grows. intros -> -> ->. done. Qed.

Lemma grows_refl p : grows p p.
Proof. by apply grows_same. Qed.

Lemma grows_trans p1 p2 p3 : grows p1 p2 → grows p2 p3 → grows p1 p3.
Proof.
  unfold grows. intros (Hd & Hl & Hy & Ha) (Hd' & Hl' & Hy' & Ha').
  split_and!; [auto|lia|auto|congruence].
Qed.

Lemma settleOk_grows year d entries s :
  NoDup (date <$> timeline (paging s)) →
  grows (paging s) (paging (settleOk getTime year d entries s)).
Proof.
  intros Hnd.
  assert (Hdates : ∀ k, k ∈ date <$> timeline (paging s) →
            k ∈ date <$> mergeTimeline getTime (timeline (paging s)) entries).
  { intros k Hk. apply mergeTimeline_date_elem. by left. }
  unfold grows, settleOk. cbn [paging]. split_and!.
  - by destruct d.
  - transitivity (length (date <$> timeline (paging s))); [by rewrite length_fmap|].
    transitivity (length (date <$> mergeTimeline getTime (timeline (paging s)) entries)).
    + apply submseteq_length, NoDup_submseteq; [done|]. exact Hdates.
    + rewrite length_fmap. by destruct d.
  - intros y Hy. destruct d; cbn; case_bool_decide; try done;
      apply elem_of_app; by left.
  - by destruct d.
Qed.

Lemma step_grows ev sys :
  NoDup (date <$> timeline (paging (st sys))) →
  NoDup (date <$> timeline (paging (st (step getTime ev sys))))
  ∧ grows (paging (st sys)) (paging (st (step getTime ev sys))).
Proof.
  intros Hnd. destruct ev; cbn [step onState st].
  - unfold handleWheel. repeat case_match; (split; [done|by apply grows_same]).
  - split; [done|by apply grows_same].
  - split; [done|by apply grows_same].
  - unfold scrollFrame. case_match; (split; [done|by apply grows_same]).
  - split; [done|by apply grows_same].
  - unfold measure. destruct (measureItem _ _ _). split; [done|by apply grows_same].
  - unfold measureFrame. case_match; (split; [done|by apply grows_same]).
  - split; [done|by apply grows_same].
  - unfold applyPendingScrollShift. case_match; (split; [done|by apply grows_same]).
  - unfold edgeLoadEffect. repeat case_match; try (split; [done|by apply grows_same]).
    unfold loadAdjacentYear_start. case_match; (split; [done|by apply grows_same]).
  - unfold settle. case_match; [|split; [done|by apply grows_same]]. cbn [st].
    destruct (applyQueued_fields (queued sys) (st sys)) as (Ht & _ & Ha & Hl & _).
    set (s := applyQueued (queued sys) (st sys)) in *.
    assert (Hqueued : grows (paging (st sys)) (paging s)) by by apply grows_same.
    destruct result as [entries|message].
    + split.
      * rewrite settleOk_timeline. apply mergeTimeline_wellformed.
      * eapply grows_trans; [exact Hqueued|]. apply settleOk_grows. by rewrite Ht.
    + unfold settleFailed. cbn [withPaging paging].
      replace (timeline (setLoading d false _)) with (timeline (paging s))
        by (by destruct d).
      split; [by rewrite Ht|].
      eapply grows_trans; [exact Hqueued|]. by destruct d; apply grows_same.
  - cbn [render st].
    destruct (applyQueued_fields (queued sys) (st sys)) as (Ht & _ & Ha & Hl & _).
    rewrite Ht. split; [done|by apply grows_same].
  - destruct (pendingSnapFlush_fields pending (st sys)) as (-> & _). 
    split; [done|by apply grows_same].
Qed.

Lemma run_grows events sys :
  NoDup (date <$> timeline (paging (st sys))) →
  NoDup (date <$> timeline (paging (st (run getTime events sys))))
  ∧ grows (paging (st sys)) (paging (st (run getTime events sys))).
Proof.
  revert sys. induction events as [|ev events IH]; intros sys Hnd.
  - split; [done|apply grows_refl].
  - unfold run. cbn [foldl]. fold (run getTime events (step getTime ev sys)).
    destruct (step_grows ev sys Hnd) as [Hnd' Hg].
    destruct (IH _ Hnd') as [Hnd'' Hg'].
    split; [done|]. by eapply grows_trans.
Qed.

(** Pages whose dates have a time keep the sequence in ascending order. *)
Lemma step_ascending ev sys :
  match ev with
  | EvSettle _ _ (FetchOk entries) => readable getTime entries
  | _ => True
  end →
  ascending getTime (timeline (paging (st sys))) →
  ascending getTime (timeline (paging (st (step getTime ev sys)))).
Proof.
  intros Hev Hasc. destruct ev; cbn [step onState st].
  - unfold handleWheel. by repeat case_match.
  - done.
  - done.
  - unfold scrollFrame. by case_match.
  - done.
  - unfold measure. by destruct (measureItem _ _ _).
  - unfold measureFrame. by case_match.
  - done.
  - unfold applyPendingScrollShift. by case_match.
  - unfold edgeLoadEffect. repeat case_match; try done.
    unfold loadAdjacentYear_start. by case_match.
  - unfold settle. case_bool_decide; [|done]. cbn [st].
    destruct (applyQueued_fields (queued sys) (st sys)) as (Ht & _).
    destruct result as [entries|message].
    + rewrite settleOk_timeline, Ht. apply mergeTimeline_ascending; [apply Hasc|done].
    + unfold settleFailed. cbn [withPaging paging].
      replace (timeline (setLoading d false _))
        with (timeline (paging (applyQueued (queued sys) (st sys))))
        by (by destruct d).
      by rewrite Ht.
  - cbn [render st].
    by destruct (applyQueued_fields (queued sys) (st sys)) as (-> & _).
  - by destruct (pendingSnapFlush_fields pending (st sys)) as (-> & _).
Qed.

Lemma run_ascending events sys :
  readablePages getTime events →
  ascending getTime (timeline (paging (st sys))) →
  ascending getTime (timeline (paging (st (run getTime events sys)))).
Proof.
  intros Hall. revert sys. induction Hall as [|ev events Hev Hall IH]; intros sys Hasc.
  - done.
  - unfold run. cbn [foldl]. fold (run getTime events (step getTime ev sys)).
    by apply IH, step_ascending.
Qed.

(** X14. While the component runs the sequence only grows: its dates stay
    distinct, every date it held is still in it, it gets no shorter, a year
    once loaded stays loaded, and the list of the years that exist is not
    touched. When the sequence is in ascending order of time and the dates
    of every page that arrives have a time, it stays in ascending order. *)
Theorem run_sequence_grows events sys :
  NoDup (date <$> timeline (paging (st sys))) →
  NoDup (date <$> timeline (paging (st (run getTime events sys))))
  ∧ (∀ d, d ∈ date <$> timeline (paging (st sys)) →
       d ∈ date <$> timeline (paging (st (run getTime events sys))))
  ∧ (length (timeline (paging (st sys)))
     ≤ length (timeline (paging (st (run getTime events sys)))))%nat
  ∧ (∀ y, y ∈ loadedYears (paging (st sys)) →
       y ∈ loadedYears (paging (st (run getTime events sys))))
  ∧ availableYears (paging (st (run getTime events sys)))
    = availableYears (paging (st sys))
  ∧ (readablePages getTime events →
     ascending getTime (timeline (paging (st sys))) →
     readable getTime (timeline (paging (st (run getTime events sys))))
     ∧ StronglySorted Z.le
         (times getTime (timeline (paging (st (run getTime events sys)))))).
Proof.
  intros Hnd.
  destruct (run_grows events sys Hnd) as [Hnd' (Hd & Hl & Hy & Ha)].
  split_and!; try done.
  intros Hpages Hasc. by apply run_ascending.
Qed.

End Merged.

Lemma mergeTimeline_keeps_games_witness :
  concat (games <$> mergeTimeline IsoDate.getTime Examples.scenarioTimeline
                      [Examples.incomingGroup])
  ≡ₚ [Examples.gameA; Examples.gameB] ++ [Examples.gameB].
Proof.
  apply (mergeTimeline_keeps_games IsoDate.getTime Examples.scenarioTimeline
           [Examples.incomingGroup]).
  apply (bool_decide_unpack _). vm_compute. exact I.
Defined.

(** The scenario of the specification: the page of 2026 arrives while the
    sequence holds 2024-12-30, 2025-01-02 and 2025-06-10. *)
Lemma append_keeps_layout_witness :
  date <$> timeline (paging (settleOk IsoDate.getTime 2026 Next Scenarios.page2026
                               Examples.scenarioState))
  = ["2024-12-30"; "2025-01-02"; "2025-06-10"; "2026-01-05"; "2026-02-14"]
  ∧ heightsRef (metrics (settleOk IsoDate.getTime 2026 Next Scenarios.page2026
                           Examples.scenarioState))
    = {[0%nat := 300%Q]}.
Proof.
  destruct (append_keeps_layout IsoDate.getTime 2026 Scenarios.page2026
              Examples.scenarioState) as (Ht & _ & Hh & _).
  - apply (bool_decide_unpack _). vm_compute. exact I.
  - unfold inOrder. apply (bool_decide_unpack _). vm_compute. exact I.
  - apply (bool_decide_unpack _). vm_compute. exact I.
  - unfold newerPage. apply (bool_decide_unpack _). vm_compute. exact I.
  - split; [rewrite Ht; reflexivity|exact Hh].
Defined.

(** The scenario, up to the arrival of the page of 2023. *)
Lemma run_sequence_grows_witness :
  let events := Examples.scrollToTop
                ++ [EvSettle 2023 Prev (FetchOk Examples.page2023)] in
  let final := paging (st (run IsoDate.getTime events Examples.scenarioSys)) in
  NoDup (date <$> timeline final)
  ∧ (3 ≤ length (timeline final))%nat
  ∧ (∀ y, y ∈ [2024; 2025]%Z → y ∈ loadedYears final)
  ∧ StronglySorted Z.le (times IsoDate.getTime (timeline final)).
Proof.
  destruct (run_sequence_grows IsoDate.getTime
              (Examples.scrollToTop ++ [EvSettle 2023 Prev (FetchOk Examples.page2023)])
              Examples.scenarioSys) as (Hnd & _ & Hlen & Hyears & _ & Hsorted).
  - apply (bool_decide_unpack _). vm_compute. exact I.
  - split; [exact Hnd|]. split; [exact Hlen|]. split; [exact Hyears|].
    apply Hsorted.
    + unfold readablePages. repeat constructor; by eexists.
    + split; [repeat constructor; by eexists|].
      apply (bool_decide_unpack _). vm_compute. exact I.
Defined.

(** The page of 2026 merged into the scenario. *)
Lemma mergeTimeline_dates_witness :
  NoDup (date <$> mergeTimeline IsoDate.getTime Examples.scenarioTimeline
                    Scenarios.page2026)
  ∧ StronglySorted Z.le
      (times IsoDate.getTime
         (mergeTimeline IsoDate.getTime Examples.scenarioTimeline Scenarios.page2026)).
Proof.
  destruct (mergeTimeline_dates IsoDate.getTime Examples.scenarioTimeline
              Scenarios.page2026) as (_ & Hnd & Hsorted).
  split; [exact Hnd|]. apply Hsorted; repeat constructor; by eexists.
Defined.

End GrowthFacts.

(** ** The years next to the loaded ones *)
Module YearFacts.
Import Timeline TimelineFacts Layout LayoutFacts Pagination PaginationFacts LoadFacts.
Import InitialLoad Invariants.

Lemma find_split {A} (f : A → bool) l y :
  List.find f l = Some y →
  ∃ l1 l2, l = l1 ++ y :: l2 ∧ f y = true ∧ Forall (λ z, f z = false) l1.
Proof.
  induction l as [|x l IH]; [done|]. cbn [List.find].
  destruct (f x) eqn:Hx.
  - intros [= ->]. by exists [], l.
  - intros Hfind. destruct (IH Hfind) as (l1 & l2 & -> & Hy & Hl1).
    exists (x :: l1), l2. split_and!; [done|done|by constructor].
Qed.

Lemma find_reverse_split {A} (f : A → bool) l y :
  List.find f (reverse l) = Some y →
  ∃ l1 l2, l = l1 ++ y :: l2 ∧ f y = true ∧ Forall (λ z, f z = false) l2.
Proof.
  intros Hfind. apply find_split in Hfind as (l1 & l2 & Hrev & Hy & Hl1).
  exists (reverse l2), (reverse l1). split_and!; [|done|].
  - rewrite <- (reverse_involutive l), Hrev, reverse_app, reverse_cons.
    by rewrite <- app_assoc.
  - by apply Forall_reverse.
Qed.

Lemma find_None_Forall {A} (f : A → bool) l :
  List.find f l = None → Forall (λ z, f z = false) l.
Proof.
  induction l as [|x l IH]; [done|]. cbn [List.find].
  destruct (f x) eqn:Hx; [done|]. intros H. constructor; auto.
Qed.

Lemma foldl_min_spec y rest :
  foldl Z.min y rest ∈ y :: rest ∧ ∀ z, z ∈ y :: rest → (foldl Z.min y rest ≤ z)%Z.
Proof.
  revert y. induction rest as [|x rest IH]; intros y.
  - cbn. split; [left|]. intros z Hz. apply list_elem_of_singleton in Hz. lia.
  - cbn [foldl]. destruct (IH (Z.min y x)) as [Hin Hle]. split.
    + apply elem_of_cons in Hin as [Heq|Hin].
      * rewrite Heq. destruct (Z.min_spec y x) as [[_ ->]|[_ ->]];
          [left|right; left].
      * right. by right.
    + intros z Hz. apply elem_of_cons in Hz as [->|Hz].
      * pose proof (Hle (Z.min y x) ltac:(left)). lia.
      * apply elem_of_cons in Hz as [->|Hz].
        -- pose proof (Hle (Z.min y x) ltac:(left)). lia.
        -- apply Hle. by right.
Qed.

Lemma foldl_max_spec y rest :
  foldl Z.max y rest ∈ y :: rest ∧ ∀ z, z ∈ y :: rest → (z ≤ foldl Z.max y rest)%Z.
Proof.
  revert y. induction rest as [|x rest IH]; intros y.
  - cbn. split; [left|]. intros z Hz. apply list_elem_of_singleton in Hz. lia.
  - cbn [foldl]. destruct (IH (Z.max y x)) as [Hin Hle]. split.
    + apply elem_of_cons in Hin as [Heq|Hin].
      * rewrite Heq. destruct (Z.max_spec y x) as [[_ ->]|[_ ->]];
          [right; left|left].
      * right. by right.
    + intros z Hz. apply elem_of_cons in Hz as [->|Hz].
      * pose proof (Hle (Z.max y x) ltac:(left)). lia.
      * apply elem_of_cons in Hz as [->|Hz].
        -- pose proof (Hle (Z.max y x) ltac:(left)). lia.
        -- apply Hle. by right.
Qed.

Lemma minLoadedYear_spec p least :
  minLoadedYear p = Some least ↔
  least ∈ loadedYears p ∧ ∀ y, y ∈ loadedYears p → (least ≤ y)%Z.
Proof.
  unfold minLoadedYear. destruct (loadedYears p) as [|y rest].
  - split; [done|]. intros [H _]. by apply elem_of_nil in H.
  - destruct (foldl_min_spec y rest) as [Hin Hle]. split.
    + by intros [= <-].
    + intros [Hin' Hle']. f_equal.
      specialize (Hle _ Hin'). specialize (Hle' _ Hin). lia.
Qed.

Lemma maxLoadedYear_spec p greatest :
  maxLoadedYear p = Some greatest ↔
  greatest ∈ loadedYears p ∧ ∀ y, y ∈ loadedYears p → (y ≤ greatest)%Z.
Proof.
  unfold maxLoadedYear. destruct (loadedYears p) as [|y rest].
  - split; [done|]. intros [H _]. by apply elem_of_nil in H.
  - destruct (foldl_max_spec y rest) as [Hin Hle]. split.
    + by intros [= <-].
    + intros [Hin' Hle']. f_equal.
      specialize (Hle _ Hin'). specialize (Hle' _ Hin). lia.
Qed.

Lemma prevYear_spec p least :
  Sorted Z.le (availableYears p) → minLoadedYear p = Some least →
  match prevYear p with
  | Some y => y ∈ availableYears p ∧ (y < least)%Z
              ∧ ∀ z, z ∈ availableYears p → (z < least)%Z → (z ≤ y)%Z
  | None => ∀ z, z ∈ availableYears p → (least ≤ z)%Z
  end.
Proof.
  intros Hsorted Hmin. unfold prevYear. rewrite Hmin.
  apply (Sorted_StronglySorted _ _) in Hsorted.
  destruct (List.find _ (reverse (availableYears p))) as [y|] eqn:Hfind.
  - apply find_reverse_split in Hfind as (l1 & l2 & Heq & Hy & Hl2).
    apply Z.ltb_lt in Hy. rewrite Heq in Hsorted |- *. split_and!; [set_solver|done|].
    intros z Hz Hlt. apply elem_of_app in Hz as [Hz|Hz].
    + eapply (StronglySorted_app_1_elem_of _ _ _ _ _ Hsorted); [done|left].
    + apply elem_of_cons in Hz as [->|Hz]; [lia|].
      rewrite Forall_forall in Hl2. specialize (Hl2 _ Hz).
      apply Z.ltb_ge in Hl2. lia.
  - apply find_None_Forall in Hfind. rewrite Forall_forall in Hfind.
    intros z Hz. apply Z.ltb_ge, Hfind. by apply elem_of_reverse.
Qed.

Lemma nextYear_spec p greatest :
  Sorted Z.le (availableYears p) → maxLoadedYear p = Some greatest →
  match nextYear p with
  | Some y => y ∈ availableYears p ∧ (greatest < y)%Z
              ∧ ∀ z, z ∈ availableYears p → (greatest < z)%Z → (y ≤ z)%Z
  | None => ∀ z, z ∈ availableYears p → (z ≤ greatest)%Z
  end.
Proof.
  intros Hsorted Hmax. unfold nextYear. rewrite Hmax.
  apply (Sorted_StronglySorted _ _) in Hsorted.
  destruct (List.find _ (availableYears p)) as [y|] eqn:Hfind.
  - apply find_split in Hfind as (l1 & l2 & Heq & Hy & Hl1).
    apply Z.ltb_lt in Hy. rewrite Heq in Hsorted |- *. split_and!; [set_solver|done|].
    intros z Hz Hlt. apply elem_of_app in Hz as [Hz|Hz].
    + rewrite Forall_forall in Hl1. specialize (Hl1 _ Hz).
      apply Z.ltb_ge in Hl1. lia.
    + apply elem_of_cons in Hz as [->|Hz]; [lia|].
      apply StronglySorted_app_1_r in Hsorted.
      apply StronglySorted_inv in Hsorted as [_ Hall].
      rewrite Forall_forall in Hall. by apply Hall.
  - apply find_None_Forall in Hfind. rewrite Forall_forall in Hfind.
    intros z Hz. specialize (Hfind z Hz). by apply Z.ltb_ge in Hfind.
Qed.

Lemma loaded_bounds p :
  loadedYears p ≠ [] →
  ∃ least greatest,
    minLoadedYear p = Some least ∧ maxLoadedYear p = Some greatest
    ∧ least ∈ loadedYears p ∧ greatest ∈ loadedYears p
    ∧ ∀ y, y ∈ loadedYears p → (least ≤ y ≤ greatest)%Z.
Proof.
  intros Hne.
  destruct (minLoadedYear p) as [least|] eqn:Hmin.
  2: { unfold minLoadedYear in Hmin. by destruct (loadedYears p). }
  destruct (maxLoadedYear p) as [greatest|] eqn:Hmax.
  2: { unfold maxLoadedYear in Hmax. by destruct (loadedYears p). }
  exists least, greatest.
  pose proof (proj1 (minLoadedYear_spec _ _) Hmin) as [Hlin Hlle].
  pose proof (proj1 (maxLoadedYear_spec _ _) Hmax) as [Hgin Hgle].
  split_and!; try done. intros y Hy. split; auto.
Qed.

(** X15. With the years that exist in ascending order, as [loadInitial] leaves
    them, the page offered before the loaded ones is the nearest year below
    the earliest loaded year, and the page offered after them is the nearest
    year above the latest loaded one; there is none exactly when no such year
    exists. *)
Theorem adjacentYear_nearest p :
  Sorted Z.le (availableYears p) → loadedYears p ≠ [] →
  ∃ least greatest,
    minLoadedYear p = Some least ∧ maxLoadedYear p = Some greatest
    ∧ (least ∈ loadedYears p ∧ greatest ∈ loadedYears p
       ∧ ∀ y, y ∈ loadedYears p → (least ≤ y ≤ greatest)%Z)
    ∧ match prevYear p with
      | Some y => y ∈ availableYears p ∧ (y < least)%Z
                  ∧ ∀ z, z ∈ availableYears p → (z < least)%Z → (z ≤ y)%Z
      | None => ∀ z, z ∈ availableYears p → (least ≤ z)%Z
      end
    ∧ match nextYear p with
      | Some y => y ∈ availableYears p ∧ (greatest < y)%Z
                  ∧ ∀ z, z ∈ availableYears p → (greatest < z)%Z → (y ≤ z)%Z
      | None => ∀ z, z ∈ availableYears p → (z ≤ greatest)%Z
      end.
Proof.
  intros Hsorted Hne.
  destruct (loaded_bounds p Hne) as (least & greatest & Hmin & Hmax & Hl & Hg & Hb).
  exists least, greatest. split_and!; try done.
  - by apply prevYear_spec.
  - by apply nextYear_spec.
Qed.

Lemma adjacentYear_same d p p' :
  loadedYears p' = loadedYears p → availableYears p' = availableYears p →
  adjacentYear d p' = adjacentYear d p.
Proof.
  intros Hl Ha.
  destruct d; cbn [adjacentYear]; unfold prevYear, nextYear,
    minLoadedYear, maxLoadedYear; by rewrite Hl, Ha.
Qed.

Lemma contiguous_same p p' :
  loadedYears p' = loadedYears p → availableYears p' = availableYears p →
  contiguous p → contiguous p'.
Proof.
  unfold contiguous, minLoadedYear, maxLoadedYear. intros -> ->. done.
Qed.

Lemma removeFetch_elem f g fs : g ∈ removeFetch f fs → g ∈ fs.
Proof.
  induction fs as [|x fs IH]; [done|]. cbn [removeFetch].
  case_bool_decide.
  - by right.
  - intros Hg. apply elem_of_cons in Hg as [->|Hg]; [left|right; auto].
Qed.

(** The invariant reads the loaded and the available years and the fetches
    in flight, nothing else. *)
Lemma yearsInv_same sys sys' :
  loadedYears (paging (st sys')) = loadedYears (paging (st sys)) →
  availableYears (paging (st sys')) = availableYears (paging (st sys)) →
  (∀ f, f ∈ inFlight sys' → f ∈ inFlight sys) →
  yearsInv sys → yearsInv sys'.
Proof.
  intros Hl Ha Hsub (Hsorted & Htr & Hco & Hnd). unfold yearsInv.
  rewrite Ha, Hl. split_and!; [done| |by apply (contiguous_same (paging (st sys)))|done].
  intros year d Hin. rewrite Hl, (adjacentYear_same d (paging (st sys))) by done.
  by apply Htr, Hsub.
Qed.

Lemma onState_yearsInv f sys :
  (∀ s, loadedYears (paging (f s)) = loadedYears (paging s)) →
  (∀ s, availableYears (paging (f s)) = availableYears (paging s)) →
  yearsInv sys → yearsInv (onState f sys).
Proof. intros Hl Ha. apply yearsInv_same; cbn [onState st inFlight]; done. Qed.

Lemma edgeLoadEffect_yearsInv d sys : yearsInv sys → yearsInv (edgeLoadEffect d sys).
Proof.
  intros (Hsorted & Htr & Hco & Hnd). unfold edgeLoadEffect.
  destruct (edgeGuard d (st sys) && edgeReached d (st sys)); [|done].
  destruct (adjacentYear d (paging (st sys))) as [year|] eqn:Hadj; [|done].
  unfold loadAdjacentYear_start. case_bool_decide; [done|].
  unfold yearsInv. cbn [st inFlight]. split_and!; try done.
  intros year' d' Hin.
  apply elem_of_app in Hin as [Hin|Hin]; [by apply Htr|].
  apply list_elem_of_singleton in Hin. injection Hin as -> ->. by right.
Qed.

Section Years.
Variable getTime : string → option Z.

Lemma settleOk_years year d entries s :
  loadedYears (paging (settleOk getTime year d entries s))
  = (if bool_decide (year ∈ loadedYears (paging s)) then loadedYears (paging s)
     else loadedYears (paging s) ++ [year])
  ∧ availableYears (paging (settleOk getTime year d entries s))
    = availableYears (paging s).
Proof. by destruct d. Qed.

Lemma settleOk_yearsInv year d entries sys queue :
  yearsInv sys → (year, d) ∈ inFlight sys →
  yearsInv {| st := settleOk getTime year d entries (st sys);
              inFlight := removeFetch (year, d) (inFlight sys);
              queued := queue |}.
Proof.
  intros Hinv Hin.
  destruct (settleOk_years year d entries (st sys)) as [Hl Ha].
  destruct (decide (year ∈ loadedYears (paging (st sys)))) as [Hold|Hnew].
  { rewrite bool_decide_eq_true_2 in Hl by done.
    apply (yearsInv_same sys); [done|done| |done].
    intros f. apply removeFetch_elem. }
  destruct Hinv as (Hsorted & Htr & Hco & Hnd).
  destruct (Htr _ _ Hin) as [?|Hadj]; [done|].
  set (p := paging (st sys)) in *.
  set (p' := paging (settleOk getTime year d entries (st sys))) in *.
  assert (Hne : loadedYears p ≠ []).
  { intros Hnil. destruct d; cbn [adjacentYear] in Hadj;
      unfold prevYear, nextYear, minLoadedYear, maxLoadedYear in Hadj;
      by rewrite Hnil in Hadj. }
  destruct (loaded_bounds p Hne)
    as (least & greatest & Hmin & Hmax & Hlin & Hgin & Hbounds).
  pose proof (prevYear_spec p least Hsorted Hmin) as Hprev.
  pose proof (nextYear_spec p greatest Hsorted Hmax) as Hnext.
  rewrite bool_decide_eq_false_2 in Hl by done.
  assert (Helem : ∀ y, y ∈ loadedYears p' ↔ y ∈ loadedYears p ∨ y = year).
  { intros y. rewrite Hl, elem_of_app, list_elem_of_singleton. done. }
  unfold yearsInv. cbn [st inFlight]. fold p'. rewrite Ha.
  split; [done|].
  pose proof (Hbounds _ Hlin) as Hspan.
  assert (Hkeep : ∀ year' d', (year', d') ∈ removeFetch (year, d) (inFlight sys) →
            (d' ≠ d → adjacentYear d' p' = adjacentYear d' p) →
            year' ∈ loadedYears p' ∨ adjacentYear d' p' = Some year').
  { intros year' d' Hin' Hside.
    apply removeFetch_elem, Htr in Hin' as [Hloaded|Hadj'].
    - left. apply Helem. by left.
    - destruct (decide (d' = d)) as [->|Hd].
      + left. apply Helem. right. fold p in Hadj'. congruence.
      + right. by rewrite Hside. }
  destruct d; cbn [adjacentYear] in Hadj.
  - rewrite Hadj in Hprev. destruct Hprev as (Hyin & Hylt & Hybest).
    assert (Hmin' : minLoadedYear p' = Some year).
    { apply minLoadedYear_spec. split; [apply Helem; by right|].
      intros y Hy. apply Helem in Hy as [Hy| ->]; [|lia].
      specialize (Hbounds _ Hy). lia. }
    assert (Hmax' : maxLoadedYear p' = Some greatest).
    { apply maxLoadedYear_spec. split; [apply Helem; by left|].
      intros y Hy. apply Helem in Hy as [Hy| ->]; [|lia].
      specialize (Hbounds _ Hy). lia. }
    split_and!.
    + intros year' d' Hin'. apply Hkeep; [done|]. intros Hd.
      destruct d'; [done|]. cbn [adjacentYear]. unfold nextYear.
      by rewrite Hmax', Hmax, Ha.
    + intros l g y Hl' Hg' Hy Hrange. rewrite Hmin' in Hl'. rewrite Hmax' in Hg'.
      injection Hl' as <-. injection Hg' as <-. apply Helem.
      destruct (decide (y < least)%Z) as [Hlt|Hge].
      * right. specialize (Hybest _ Hy Hlt). lia.
      * left. apply (Hco least greatest); [done|done|done|lia].
    + rewrite Hl. apply NoDup_app. split_and!; [done| |apply NoDup_singleton].
      intros y Hy Hy'. apply list_elem_of_singleton in Hy'. by subst.
  - rewrite Hadj in Hnext. destruct Hnext as (Hyin & Hylt & Hybest).
    assert (Hmin' : minLoadedYear p' = Some least).
    { apply minLoadedYear_spec. split; [apply Helem; by left|].
      intros y Hy. apply Helem in Hy as [Hy| ->]; [|lia].
      specialize (Hbounds _ Hy). lia. }
    assert (Hmax' : maxLoadedYear p' = Some year).
    { apply maxLoadedYear_spec. split; [apply Helem; by right|].
      intros y Hy. apply Helem in Hy as [Hy| ->]; [|lia].
      specialize (Hbounds _ Hy). lia. }
    split_and!.
    + intros year' d' Hin'. apply Hkeep; [done|]. intros Hd.
      destruct d'; [|done]. cbn [adjacentYear]. unfold prevYear.
      by rewrite Hmin', Hmin, Ha.
    + intros l g y Hl' Hg' Hy Hrange. rewrite Hmin' in Hl'. rewrite Hmax' in Hg'.
      injection Hl' as <-. injection Hg' as <-. apply Helem.
      destruct (decide (greatest < y)%Z) as [Hlt|Hge].
      * right. specialize (Hybest _ Hy Hlt). lia.
      * left. apply (Hco least greatest); [done|done|done|lia].
    + rewrite Hl. apply NoDup_app. split_and!; [done| |apply NoDup_singleton].
      intros y Hy Hy'. apply list_elem_of_singleton in Hy'. by subst.
Qed.

Lemma render_yearsInv sys : yearsInv sys → yearsInv (render sys).
Proof.
  destruct (applyQueued_fields (queued sys) (st sys)) as (_ & _ & Ha & Hl & _).
  apply yearsInv_same; cbn [render st inFlight]; done.
Qed.

Lemma settle_yearsInv year d result sys :
  yearsInv sys → yearsInv (settle getTime year d result sys).
Proof.
  intros Hinv. unfold settle. case_bool_decide as Hin; [|done].
  apply render_yearsInv in Hinv.
  destruct result as [entries|message].
  - by apply (settleOk_yearsInv year d entries (render sys) []).
  - revert Hinv. apply yearsInv_same; cbn [st inFlight render].
    + by destruct d.
    + by destruct d.
    + intros f. apply removeFetch_elem.
Qed.

Lemma step_yearsInv ev sys : yearsInv sys → yearsInv (step getTime ev sys).
Proof.
  intros Hinv. destruct ev; cbn [step].
  10: by apply edgeLoadEffect_yearsInv.
  10: by apply settle_yearsInv.
  10: by apply render_yearsInv.
  all: apply onState_yearsInv; [| |done]; intros s.
  1-2: unfold handleWheel; by repeat case_match.
  1-2: done.
  1-2: done.
  1-2: unfold scrollFrame; by case_match.
  1-2: done.
  1-2: unfold measure; by destruct (measureItem _ _ _).
  1-2: unfold measureFrame; by case_match.
  1-2: done.
  1-2: unfold applyPendingScrollShift; by case_match.
  1-2: by destruct (pendingSnapFlush_fields pending s) as (-> & _).
Qed.

Lemma run_yearsInv events sys : yearsInv sys → yearsInv (run getTime events sys).
Proof.
  revert sys. induction events as [|ev events IH]; intros sys H0; [done|].
  unfold run. cbn [foldl]. fold (run getTime events (step getTime ev sys)).
  by apply IH, step_yearsInv.
Qed.

Lemma idle_yearsInv sys :
  Sorted Z.le (availableYears (paging (st sys))) →
  idle sys → contiguous (paging (st sys)) →
  NoDup (loadedYears (paging (st sys))) → yearsInv sys.
Proof.
  intros Hsorted Hidle Hco Hnd.
  split_and!; [done| |done|done].
  intros year d Hin. destruct Hidle as [Hnone _]. rewrite Hnone in Hin.
  by apply elem_of_nil in Hin.
Qed.

(** X16. The pages are loaded in a row. With the years that exist in ascending
    order and a block of them loaded, whatever happens next the loaded years
    stay a block of the years that exist, with no year left out between the
    first and the last loaded one, and no year is loaded twice. Every fetch
    in flight is for the year next to the block on its side, or for a year
    that has been loaded since the fetch was started. *)
Theorem run_loads_in_a_row events sys :
  Sorted Z.le (availableYears (paging (st sys))) →
  idle sys → contiguous (paging (st sys)) →
  NoDup (loadedYears (paging (st sys))) →
  let final := run getTime events sys in
  (∀ least greatest y,
     minLoadedYear (paging (st final)) = Some least →
     maxLoadedYear (paging (st final)) = Some greatest →
     y ∈ availableYears (paging (st final)) → (least ≤ y ≤ greatest)%Z →
     y ∈ loadedYears (paging (st final)))
  ∧ NoDup (loadedYears (paging (st final)))
  ∧ (∀ year d, (year, d) ∈ inFlight final →
       year ∈ loadedYears (paging (st final))
       ∨ (adjacentYear d (paging (st final)) = Some year
          ∧ year ∉ loadedYears (paging (st final)))).
Proof.
  intros Hsorted Hidle Hco Hnd final.
  assert (Hinv : yearsInv final) by by apply run_yearsInv, idle_yearsInv.
  destruct Hinv as (Hsorted' & Htr & Hco' & Hnd').
  split_and!; [exact Hco'|done|].
  intros year d Hin. destruct (Htr _ _ Hin) as [Hloaded|Hadj]; [by left|].
  right. split; [done|]. by eapply adjacentYear_not_loaded.
Qed.

End Years.

Lemma adjacentYear_nearest_witness :
  prevYear (paging Examples.scenarioState) = Some 2023%Z
  ∧ nextYear (paging Examples.scenarioState) = Some 2026%Z.
Proof.
  destruct (adjacentYear_nearest (paging Examples.scenarioState))
    as (least & greatest & Hmin & Hmax & _ & Hprev & Hnext).
  - apply (bool_decide_unpack _). vm_compute. exact I.
  - discriminate.
  - injection Hmin as <-. injection Hmax as <-.
    destruct (prevYear (paging Examples.scenarioState)) as [y|] eqn:Hp;
      [|discriminate Hp].
    destruct (nextYear (paging Examples.scenarioState)) as [y'|] eqn:Hn;
      [|discriminate Hn].
    injection Hp as <-. injection Hn as <-. done.
Defined.

(** The run in which the page of 2026 is fetched twice: once the first
    fetch has brought the page, the second is the fetch of a loaded year. *)
Lemma run_loads_in_a_row_witness :
  let events := Scenarios.scrollToEnd ++ Scenarios.effectsWithSnap
                ++ [EvSettle 2026 Next (FetchOk Scenarios.page2026)] in
  let final := run IsoDate.getTime events Scenarios.touchedSys in
  NoDup (loadedYears (paging (st final)))
  ∧ inFlight final = [(2026%Z, Next)]
  ∧ (∀ year d, (year, d) ∈ inFlight final →
       year ∈ loadedYears (paging (st final))
       ∨ (adjacentYear d (paging (st final)) = Some year
          ∧ year ∉ loadedYears (paging (st final)))).
Proof.
  destruct (run_loads_in_a_row IsoDate.getTime
              (Scenarios.scrollToEnd ++ Scenarios.effectsWithSnap
               ++ [EvSettle 2026 Next (FetchOk Scenarios.page2026)])
              Scenarios.touchedSys) as (_ & Hnd & Htr).
  - apply (bool_decide_unpack _). vm_compute. exact I.
  - by split_and!.
  - intros least greatest y Hmin Hmax Hy Hrange.
    injection Hmin as <-. injection Hmax as <-.
    cbn in Hy |- *. clear -Hy Hrange.
    repeat (apply elem_of_cons in Hy as [->|Hy]); try lia.
    + left.
    + right. left.
    + by apply elem_of_nil in Hy.
  - apply (bool_decide_unpack _). vm_compute. exact I.
  - split; [exact Hnd|]. split; [reflexivity|exact Htr].
Defined.

End YearFacts.

(** ** The first page *)
Module InitialFacts.
Import Timeline TimelineFacts Layout LayoutFacts Pagination PaginationFacts LoadFacts.
Import InitialLoad Invariants MeasureFacts GrowthFacts YearFacts.

Lemma StronglySorted_filter (P : Z → Prop) `{∀ x, Decision (P x)} (l : list Z) :
  StronglySorted Z.le l → StronglySorted Z.le (filter P l).
Proof.
  induction 1 as [|x l Hl IH Hx]; [constructor|].
  rewrite filter_cons. case_decide; [|done].
  constructor; [done|]. rewrite Forall_forall in Hx |- *.
  intros z Hz. apply list_elem_of_filter in Hz as [_ Hz]. by apply Hx.
Qed.

Lemma sortYears_spec years :
  Sorted Z.le (sortYears years) ∧ ∀ y, y ∈ sortYears years ↔ y ∈ years.
Proof.
  unfold sortYears. split; [apply (Sorted_merge_sort _)|].
  intros y. by rewrite merge_sort_Permutation.
Qed.

Lemma initialYear_spec first rest currentYear :
  Sorted Z.le (first :: rest) →
  let year := initialYear first (first :: rest) currentYear in
  year ∈ first :: rest
  ∧ (∀ z, z ∈ first :: rest → (z ≤ currentYear)%Z → (z ≤ year ≤ currentYear)%Z)
  ∧ ((∀ z, z ∈ first :: rest → (currentYear < z)%Z) →
     ∀ z, z ∈ first :: rest → (year ≤ z)%Z).
Proof.
  intros Hsorted. apply (Sorted_StronglySorted _ _) in Hsorted.
  set (years := first :: rest) in *. unfold initialYear.
  case_bool_decide as Hcur.
  - split_and!; [done|lia|]. intros Hall. specialize (Hall _ Hcur). lia.
  - assert (Hfilter : ∀ z, z ∈ years → (z ≤ currentYear)%Z →
              z ∈ filter (λ year, (year < currentYear)%Z) years).
    { intros z Hz Hle. apply list_elem_of_filter. split; [|done].
      destruct (decide (z = currentYear)) as [->|]; [done|lia]. }
    pose proof (StronglySorted_filter (λ year, (year < currentYear)%Z) years Hsorted)
      as Hfs.
    destruct (filter (λ year, (year < currentYear)%Z) years) as [|p ps] eqn:Hprev.
    + split_and!; [left| |].
      * intros z Hz Hle. specialize (Hfilter z Hz Hle). by apply elem_of_nil in Hfilter.
      * intros _ z Hz. apply elem_of_cons in Hz as [->|Hz]; [lia|].
        apply StronglySorted_inv in Hsorted as [_ Hall].
        rewrite Forall_forall in Hall. by apply Hall.
    + destruct (last (p :: ps)) as [y|] eqn:Hlast; [|by apply last_None in Hlast].
      cbn [default from_option]. unfold id.
      apply last_Some in Hlast as [front Hfront].
      rewrite Hfront in Hfs, Hfilter.
      assert (Hy : (y < currentYear)%Z ∧ y ∈ years).
      { apply (list_elem_of_filter (λ year, (year < currentYear)%Z)).
        rewrite Hprev, Hfront. apply elem_of_app. right. left. }
      destruct Hy as [Hylt Hyin]. split_and!; [done| |].
      * intros z Hz Hle. split; [|lia].
        specialize (Hfilter z Hz Hle). apply elem_of_app in Hfilter as [Hz'|Hz'].
        -- eapply (StronglySorted_app_1_elem_of _ _ _ _ _ Hfs); [done|left].
        -- apply list_elem_of_singleton in Hz'. lia.
      * intros Hall. specialize (Hall _ Hyin). lia.
Qed.

Section Loaded.
Variable getTime : string → option Z.

Lemma loadInitial_cases index currentYear fetchYear s0 :
  (∃ message,
     loadInitial getTime index currentYear fetchYear s0 = failedInitial message s0)
  ∨ (∃ yearFiles first rest entries,
       index = IndexOk yearFiles
       ∧ sortYears (omap id yearFiles) = first :: rest
       ∧ fetchYear (initialYear first (first :: rest) currentYear) = FetchOk entries
       ∧ loadInitial getTime index currentYear fetchYear s0
         = loadedInitial getTime (first :: rest)
             (initialYear first (first :: rest) currentYear) entries s0).
Proof.
  unfold loadInitial.
  destruct index as [yearFiles| |message]; [|left; by eexists..].
  destruct (length yearFiles =? 0)%nat; [left; by eexists|].
  destruct (sortYears (omap id yearFiles)) as [|first rest] eqn:Hyears;
    [left; by eexists|].
  destruct (fetchYear (initialYear first (first :: rest) currentYear))
    as [entries|message] eqn:Hfetch; [|left; by eexists].
  right. by exists yearFiles, first, rest, entries.
Qed.

Lemma loadInitial_loaded index currentYear fetchYear el :
  let s := loadInitial getTime index currentYear fetchYear (mounted el) in
  error (paging s) = None →
  idle {| st := s; inFlight := []; queued := [] |}
  ∧ NoDup (date <$> timeline (paging s))
  ∧ inOrder getTime (timeline (paging s))
  ∧ Sorted Z.le (availableYears (paging s))
  ∧ NoDup (loadedYears (paging s))
  ∧ contiguous (paging s)
  ∧ positiveHeights (heightsRef (metrics s))
  ∧ memoFresh s.
Proof.
  intros s. unfold s.
  destruct (loadInitial_cases index currentYear fetchYear (mounted el))
    as [(message & ->)|(yearFiles & first & rest & entries & -> & Hyears & _ & ->)];
    [done|].
  intros _. destruct (sortYears_spec (omap id yearFiles)) as [Hsorted _].
  rewrite Hyears in Hsorted.
  split; [done|].
  split; [apply mergeTimeline_wellformed|]. split; [apply mergeTimeline_wellformed|].
  split; [done|]. split; [apply NoDup_singleton|].
  split; [|split; [apply map_Forall_empty|done]].
  intros least greatest y Hmin Hmax Hy Hrange.
  cbn in Hmin, Hmax. injection Hmin as <-. injection Hmax as <-.
  cbn [loadedInitial paging loadedYears]. apply list_elem_of_singleton. lia.
Qed.

Lemma yearFiles_years yearFiles y :
  y ∈ sortYears (omap id yearFiles) ↔ Some y ∈ yearFiles.
Proof.
  destruct (sortYears_spec (omap id yearFiles)) as [_ Helem].
  rewrite Helem, list_elem_of_omap. split.
  - intros (x & Hx & Hid). cbn in Hid. by subst.
  - intros Hy. by exists (Some y).
Qed.

(** The year the code picks is the one the reader expects, and the only
    one. *)
Lemma firstShown_initialYear yearFiles currentYear first rest year :
  sortYears (omap id yearFiles) = first :: rest →
  firstShown yearFiles currentYear year
  ↔ year = initialYear first (first :: rest) currentYear.
Proof.
  intros Hyears.
  destruct (sortYears_spec (omap id yearFiles)) as [Hsorted _].
  rewrite Hyears in Hsorted.
  destruct (initialYear_spec first rest currentYear Hsorted) as (Hin & Hle & Hge).
  set (year0 := initialYear first (first :: rest) currentYear) in *.
  assert (Hmem : ∀ z, z ∈ first :: rest ↔ Some z ∈ yearFiles).
  { intros z. rewrite <- Hyears. apply yearFiles_years. }
  assert (Hshown : firstShown yearFiles currentYear year0).
  { split_and!.
    - by apply Hmem.
    - intros z Hz. apply Hle. by apply Hmem.
    - intros Hall z Hz. apply Hge; [|by apply Hmem].
      intros z' Hz'. apply Hall. by apply Hmem. }
  split; [|by intros ->].
  intros (Hy & Hyle & Hyge). destruct Hshown as (Hy0 & Hy0le & Hy0ge).
  destruct (decide (year0 ≤ currentYear)%Z) as [Hcur|Hcur].
  - pose proof (Hyle _ Hy0 Hcur) as [? Hycur].
    pose proof (Hy0le _ Hy Hycur). lia.
  - assert (Hall : ∀ z, Some z ∈ yearFiles → (currentYear < z)%Z).
    { intros z Hz. destruct (decide (z ≤ currentYear)%Z) as [Hz'|]; [|lia].
      pose proof (Hy0le _ Hz Hz'). lia. }
    pose proof (Hyge Hall _ Hy0). pose proof (Hy0ge Hall _ Hy). lia.
Qed.

(** X17. How the first load ends, case by case. It fails, with the message
    of the failure, and leaves the sequence empty, exactly when the index
    cannot be fetched, when it lists no year, or when the page of the year
    to show cannot be fetched. The year to show is the current year if the
    index lists it, else the latest year before it, else the earliest year
    listed. When that page arrives, no error is set, the years that exist
    are the years of the index in ascending order, the year shown is the one
    loaded year, the sequence is the page, merged, and no height is
    cached. *)
Theorem loadInitial_outcome index currentYear fetchYear el :
  let s := loadInitial getTime index currentYear fetchYear (mounted el) in
  (index = IndexNotOk →
   error (paging s) = Some "Failed to load release index."
   ∧ timeline (paging s) = [] ∧ loadedYears (paging s) = [])
  ∧ (∀ message, index = IndexThrew message →
       error (paging s) = Some (default "Failed to load timeline." message)
       ∧ timeline (paging s) = [] ∧ loadedYears (paging s) = [])
  ∧ (∀ yearFiles, index = IndexOk yearFiles →
       ((∀ y, Some y ∉ yearFiles) →
        error (paging s) = Some "Release index is empty."
        ∧ timeline (paging s) = [] ∧ loadedYears (paging s) = [])
       ∧ (∀ y, Some y ∈ yearFiles → ∃ year, firstShown yearFiles currentYear year)
       ∧ (∀ year, firstShown yearFiles currentYear year →
            match fetchYear year with
            | FetchFailed message =>
                error (paging s) = Some (default "Failed to load timeline." message)
                ∧ timeline (paging s) = [] ∧ loadedYears (paging s) = []
            | FetchOk entries =>
                error (paging s) = None
                ∧ Sorted Z.le (availableYears (paging s))
                ∧ (∀ y, y ∈ availableYears (paging s) ↔ Some y ∈ yearFiles)
                ∧ loadedYears (paging s) = [year]
                ∧ timeline (paging s) = mergeTimeline getTime [] entries
                ∧ heightsRef (metrics s) = ∅
                ∧ offsets (metrics s)
                  = Layout.offsets (length (timeline (paging s))) ∅
            end)).
Proof.
  intros s. unfold s. split_and!.
  - by intros ->.
  - by intros message ->.
  - intros yearFiles ->. cbn [loadInitial].
    destruct (sortYears (omap id yearFiles)) as [|first rest] eqn:Hyears.
    + assert (Hnone : ∀ y, Some y ∉ yearFiles).
      { intros y Hy. apply yearFiles_years in Hy. rewrite Hyears in Hy.
        by apply elem_of_nil in Hy. }
      split_and!.
      * intros _. by destruct (length yearFiles =? 0)%nat.
      * intros y Hy. by destruct (Hnone y).
      * intros year (Hy & _). by destruct (Hnone year).
    + assert (Hlen : (length yearFiles =? 0)%nat = false).
      { assert (Hfirst : Some first ∈ yearFiles).
        { apply yearFiles_years. rewrite Hyears. left. }
        destruct yearFiles; [by apply elem_of_nil in Hfirst|done]. }
      rewrite Hlen. split_and!.
      * intros Hnone. exfalso. apply (Hnone first).
        apply yearFiles_years. rewrite Hyears. left.
      * intros y _. exists (initialYear first (first :: rest) currentYear).
        by apply (firstShown_initialYear yearFiles currentYear first rest).
      * intros year Hshown.
        apply (firstShown_initialYear yearFiles currentYear first rest) in Hshown;
          [|done].
        rewrite <- Hshown.
        destruct (fetchYear year) as [entries|message]; [|done].
        destruct (sortYears_spec (omap id yearFiles)) as [Hsorted _].
        rewrite Hyears in Hsorted.
        cbn [loadedInitial paging metrics error availableYears loadedYears timeline
             recomputeOffsets heightsRef offsets resetMeasurements withMetrics mounted].
        split_and!; try done.
        intros y. rewrite <- Hyears. apply yearFiles_years.
Qed.

(** X18. From the first page on. When the first load has shown a page, then
    whatever happens next: the dates of the sequence are distinct; the years
    that exist stay in ascending order; the loaded years are distinct and
    form a block of them; every fetch in flight is for a loaded year or for
    the year next to the block on its side; the stored heights are positive;
    and the offset table is the one of the height cache whenever no epoch
    bump is pending. When the dates of the first page and of every page that
    arrives have a time, the sequence stays in ascending order of time. *)
Theorem session_invariants index currentYear fetchYear el events :
  let s := loadInitial getTime index currentYear fetchYear (mounted el) in
  let final := run getTime events {| st := s; inFlight := []; queued := [] |} in
  error (paging s) = None →
  NoDup (date <$> timeline (paging (st final)))
  ∧ Sorted Z.le (availableYears (paging (st final)))
  ∧ NoDup (loadedYears (paging (st final)))
  ∧ contiguous (paging (st final))
  ∧ (∀ year d, (year, d) ∈ inFlight final →
       year ∈ loadedYears (paging (st final))
       ∨ adjacentYear d (paging (st final)) = Some year)
  ∧ positiveHeights (heightsRef (metrics (st final)))
  ∧ memoFresh (st final)
  ∧ (readable getTime (timeline (paging s)) → readablePages getTime events →
     readable getTime (timeline (paging (st final)))
     ∧ StronglySorted Z.le (times getTime (timeline (paging (st final))))).
Proof.
  intros s final Hok.
  destruct (loadInitial_loaded index currentYear fetchYear el Hok)
    as (Hidle & Hnd0 & Hord & Hsorted & Hnd & Hco & Hpos & Hfresh).
  fold s in Hidle, Hnd0, Hord, Hsorted, Hnd, Hco, Hpos, Hfresh.
  set (sys := {| st := s; inFlight := []; queued := [] |}) in *.
  assert (Hinv : yearsInv final) by by apply run_yearsInv, idle_yearsInv.
  destruct Hinv as (Hsorted' & Htr & Hco' & Hnd').
  destruct (run_grows getTime events sys Hnd0) as [Hnd'' _].
  split_and!; try done.
  - by apply run_positiveHeights.
  - by apply run_memoFresh.
  - intros Hread Hpages. apply (run_ascending getTime events sys Hpages).
    by apply readable_inOrder_ascending.
Qed.

End Loaded.

(** The index lists 2025, 2024 and a file that is no year; in 2026 the
    page of 2025 is shown first. *)
Lemma loadInitial_outcome_witness :
  let s := loadInitial IsoDate.getTime (IndexOk [Some 2025; Some 2024; None]%Z) 2026
             (λ _, FetchOk Examples.scenarioTimeline)
             (mounted Examples.tallViewport) in
  firstShown [Some 2025; Some 2024; None]%Z 2026 2025
  ∧ error (paging s) = None
  ∧ loadedYears (paging s) = [2025%Z]
  ∧ Sorted Z.le (availableYears (paging s)).
Proof.
  assert (Hshown : firstShown [Some 2025; Some 2024; None]%Z 2026 2025).
  { split_and!.
    - left.
    - intros z Hz _. repeat (apply elem_of_cons in Hz as [Hz|Hz]);
        try (injection Hz as ->; lia); try done. by apply elem_of_nil in Hz.
    - intros Hall. specialize (Hall 2025%Z ltac:(left)). lia. }
  split; [exact Hshown|].
  destruct (loadInitial_outcome IsoDate.getTime (IndexOk [Some 2025; Some 2024; None]%Z)
              2026 (λ _, FetchOk Examples.scenarioTimeline) Examples.tallViewport)
    as (_ & _ & Hok).
  destruct (Hok _ eq_refl) as (_ & _ & Hpage).
  destruct (Hpage _ Hshown) as (Herr & Hsorted & _ & Hloaded & _).
  split; [exact Herr|]. split; [exact Hloaded|exact Hsorted].
Defined.

Lemma session_invariants_witness :
  let s := loadInitial IsoDate.getTime (IndexOk [Some 2025; Some 2024; None]%Z) 2026
             (λ _, FetchOk Examples.scenarioTimeline)
             (mounted Examples.tallViewport) in
  let final := run IsoDate.getTime Examples.scrollToTop
                 {| st := s; inFlight := []; queued := [] |} in
  loadedYears (paging s) = [2025%Z]
  ∧ NoDup (date <$> timeline (paging (st final)))
  ∧ contiguous (paging (st final)).
Proof.
  split; [reflexivity|].
  destruct (session_invariants IsoDate.getTime (IndexOk [Some 2025; Some 2024; None]%Z)
              2026 (λ _, FetchOk Examples.scenarioTimeline) Examples.tallViewport
              Examples.scrollToTop) as (Hnd & _ & _ & Hco & _).
  - reflexivity.
  - split; [exact Hnd|exact Hco].
Defined.

End InitialFacts.

(** ** The jump to today *)
Module TodayFacts.
Import Timeline Today.

Section Search.
Variable toLocalDayValue : string → option Z.
Variable todayValue : Z.


Lemma days_cons item rest :
  dayValues toLocalDayValue (item :: rest)
  = match toLocalDayValue (date item) with
    | Some v => v :: dayValues toLocalDayValue rest
    | None => dayValues toLocalDayValue rest
    end.
Proof. unfold dayValues. cbn [omap list_omap]. by destruct (toLocalDayValue _). Qed.

Lemma pick_target i s :
  targetIndex s = Z.of_nat i → pickTarget todayValue s = Z.of_nat i.
Proof.
  intros Ht. unfold pickTarget. rewrite Ht.
  destruct (Z.eqb_spec (Z.of_nat i) (-1)); [lia|done].
Qed.

Lemma scan_nearest items : ∀ i s,
  StronglySorted Z.le (dayValues toLocalDayValue items) →
  targetIndex s = (-1)%Z → nextIndex s = (-1)%Z →
  (prevIndex s = (-1)%Z
   ∨ (prevValue s < todayValue)%Z
     ∧ Forall (λ b, (prevValue s ≤ b)%Z) (dayValues toLocalDayValue items)) →
  (pickTarget todayValue (scanFrom toLocalDayValue todayValue i items s)
   = prevIndex s
   ∧ Forall (λ b, prevIndex s ≠ (-1)%Z
                  ∧ (Z.abs (prevValue s - todayValue) ≤ Z.abs (b - todayValue))%Z)
       (dayValues toLocalDayValue items))
  ∨ (∃ j item a,
       pickTarget todayValue (scanFrom toLocalDayValue todayValue i items s)
       = Z.of_nat (i + j)
       ∧ items !! j = Some item ∧ toLocalDayValue (date item) = Some a
       ∧ Forall (λ b, (Z.abs (a - todayValue) ≤ Z.abs (b - todayValue))%Z)
           (dayValues toLocalDayValue items)
       ∧ (prevIndex s ≠ (-1)%Z →
          (Z.abs (a - todayValue) ≤ Z.abs (prevValue s - todayValue))%Z)).
Proof.
  induction items as [|item rest IH]; intros i s Hsorted Ht Hn Hp.
  - left. split; [|constructor]. cbn [scanFrom]. unfold pickTarget.
    rewrite Ht, Hn. cbn. by destruct (Z.eqb_spec (prevIndex s) (-1)).
  - rewrite days_cons in Hsorted, Hp |- *. cbn [scanFrom].
    destruct (toLocalDayValue (date item)) as [v|] eqn:Hv.
    2: { destruct (IH (S i) s Hsorted Ht Hn Hp)
           as [?|(j & g & a & Hr & Hj & Ha & Hall & Hprev)]; [by left|].
         right. exists (S j), g, a. split_and!; try done.
         rewrite Hr. f_equal. lia. }
    apply StronglySorted_inv in Hsorted as [Hsorted Hhead].
    destruct (Z.eqb_spec v todayValue) as [->|Hne].
    { right. exists 0%nat, item, todayValue.
      rewrite (pick_target i) by done. rewrite Nat.add_0_r.
      split_and!; try done.
      - apply Forall_forall. intros b _. lia.
      - intros _. lia. }
    destruct (Z.ltb_spec v todayValue) as [Hlt|Hge].
    { destruct (IH (S i) (setPrevious (Z.of_nat i) v s) Hsorted Ht Hn)
        as [[Hr Hall]|(j & g & a & Hr & Hj & Ha & Hall & Hprev)].
      - right. by split.
      - right. exists 0%nat, item, v. rewrite Hr, Nat.add_0_r.
        cbn [setPrevious prevIndex prevValue] in *.
        split_and!; try done.
        + constructor; [lia|]. eapply Forall_impl; [exact Hall|].
          by intros b [_ Hb].
        + intros Hs. destruct Hp as [Hp|[Hp Hle]]; [done|].
          apply Forall_inv in Hle. lia.
      - right. exists (S j), g, a.
        cbn [setPrevious prevIndex prevValue] in *.
        assert (Hav : (Z.abs (a - todayValue) ≤ Z.abs (v - todayValue))%Z)
          by (apply Hprev; lia).
        split_and!; try done.
        + rewrite Hr. f_equal. lia.
        + by constructor.
        + intros Hs. destruct Hp as [Hp|[Hp Hle]]; [done|].
          apply Forall_inv in Hle. lia. }
    destruct (Z.ltb_spec todayValue v) as [Hgt|Hle]; [|lia].
    assert (Hlater : Forall (λ b, (Z.abs (v - todayValue) ≤ Z.abs (b - todayValue))%Z)
                       (v :: dayValues toLocalDayValue rest)).
    { constructor; [lia|]. eapply Forall_impl; [exact Hhead|]. intros b Hb.
      cbn in Hb. lia. }
    unfold pickTarget. cbn [setNext targetIndex prevIndex nextIndex prevValue nextValue].
    rewrite Ht. cbn [Z.eqb].
    destruct (Z.eqb_spec (Z.of_nat i) (-1)) as [|_]; [lia|].
    destruct (Z.eqb_spec (prevIndex s) (-1)) as [Hnone|Hsome]; cbn [negb andb].
    { right. exists 0%nat, item, v. rewrite Nat.add_0_r. by split_and!. }
    destruct Hp as [Hp|[Hp Hle']]; [done|].
    destruct (Z.leb_spec (todayValue - prevValue s) (v - todayValue)) as [Hnear|Hfar].
    + left. split; [done|]. eapply Forall_impl; [exact Hlater|].
      intros b Hb. cbn in Hb. split; [done|lia].
    + right. exists 0%nat, item, v. rewrite Nat.add_0_r.
      split_and!; try done. intros _. lia.
Qed.

(** X19. On a sequence whose day values ascend, the loop of [scrollToToday]
    finds an item nearest to today: no item with a day value is closer than
    the target. It reports no target exactly when no item has a day value. *)
Theorem todayTarget_nearest timeline :
  Sorted Z.le (dayValues toLocalDayValue timeline) →
  (dayValues toLocalDayValue timeline = []
   ∧ todayTarget toLocalDayValue todayValue timeline = (-1)%Z)
  ∨ (∃ i item a,
       todayTarget toLocalDayValue todayValue timeline = Z.of_nat i
       ∧ timeline !! i = Some item ∧ toLocalDayValue (date item) = Some a
       ∧ ∀ b, b ∈ dayValues toLocalDayValue timeline →
           (Z.abs (a - todayValue) ≤ Z.abs (b - todayValue))%Z).
Proof.
  intros Hsorted. apply (Sorted_StronglySorted _ _) in Hsorted.
  destruct (scan_nearest timeline 0 scanStart Hsorted)
    as [[Hr Hall]|(j & g & a & Hr & Hj & Ha & Hall & _)]; [done|done|by left| |].
  - left. split; [|done]. destruct (dayValues toLocalDayValue timeline) as [|b l]; [done|].
    apply Forall_inv in Hall as [Hne _]. done.
  - right. exists j, g, a. split_and!; try done.
    by apply Forall_forall.
Qed.

Lemma scanAll_later items : ∀ i s,
  Forall (λ b, (todayValue < b)%Z) (dayValues toLocalDayValue items) →
  nextIndex s ≠ (-1)%Z →
  scanAllFrom toLocalDayValue todayValue i items s = s.
Proof.
  induction items as [|item rest IH]; intros i s Hall Hn; [done|].
  rewrite days_cons in Hall. cbn [scanAllFrom].
  destruct (toLocalDayValue (date item)) as [v|]; [|by apply IH].
  apply Forall_cons in Hall as [Hv Hall].
  destruct (Z.eqb_spec v todayValue); [lia|].
  destruct (Z.ltb_spec v todayValue); [lia|].
  destruct (Z.eqb_spec (nextIndex s) (-1)); [done|].
  rewrite andb_false_r. by apply IH.
Qed.

Lemma scanAll_scan items : ∀ i s,
  StronglySorted Z.le (dayValues toLocalDayValue items) → nextIndex s = (-1)%Z →
  scanAllFrom toLocalDayValue todayValue i items s
  = scanFrom toLocalDayValue todayValue i items s.
Proof.
  induction items as [|item rest IH]; intros i s Hsorted Hn; [done|].
  rewrite days_cons in Hsorted. cbn [scanAllFrom scanFrom].
  destruct (toLocalDayValue (date item)) as [v|]; [|by apply IH].
  apply StronglySorted_inv in Hsorted as [Hsorted Hhead].
  destruct (Z.eqb_spec v todayValue); [done|].
  destruct (Z.ltb_spec v todayValue); [by apply IH|].
  destruct (Z.ltb_spec todayValue v); [|lia].
  rewrite Hn. cbn [Z.eqb andb]. apply scanAll_later.
  - eapply Forall_impl; [exact Hhead|]. intros b Hb. cbn in Hb. lia.
  - cbn. lia.
Qed.

(** X20. The search of the list-library variant, which goes on after the first
    later item, finds the same target as the loop of [scrollToToday] on every
    sequence whose day values ascend. *)
Theorem today_searches_agree timeline :
  Sorted Z.le (dayValues toLocalDayValue timeline) →
  findTargetArrayIndexForToday toLocalDayValue todayValue timeline
  = todayTarget toLocalDayValue todayValue timeline.
Proof.
  intros Hsorted. apply (Sorted_StronglySorted _ _) in Hsorted.
  unfold findTargetArrayIndexForToday, todayTarget.
  destruct timeline as [|item rest]; [done|]. cbn [length Nat.eqb].
  by rewrite scanAll_scan.
Qed.

End Search.

Lemma todayTarget_nearest_witness :
  (dayValues IsoDate.getTime Examples.scenarioTimeline = []
   ∧ todayTarget IsoDate.getTime Scenarios.march2025 Examples.scenarioTimeline = (-1)%Z)
  ∨ (∃ i item a,
       todayTarget IsoDate.getTime Scenarios.march2025 Examples.scenarioTimeline
       = Z.of_nat i
       ∧ Examples.scenarioTimeline !! i = Some item
       ∧ IsoDate.getTime (date item) = Some a
       ∧ ∀ b, b ∈ dayValues IsoDate.getTime Examples.scenarioTimeline →
           (Z.abs (a - Scenarios.march2025) ≤ Z.abs (b - Scenarios.march2025))%Z).
Proof.
  apply (todayTarget_nearest IsoDate.getTime Scenarios.march2025
           Examples.scenarioTimeline).
  apply (bool_decide_unpack _). vm_compute. exact I.
Defined.

Lemma today_searches_agree_witness :
  findTargetArrayIndexForToday IsoDate.getTime Scenarios.march2025
    Examples.scenarioTimeline
  = todayTarget IsoDate.getTime Scenarios.march2025 Examples.scenarioTimeline.
Proof.
  apply (today_searches_agree IsoDate.getTime Scenarios.march2025
           Examples.scenarioTimeline).
  apply (bool_decide_unpack _). vm_compute. exact I.
Defined.

Example todayTarget_scenario :
  todayTarget IsoDate.getTime Scenarios.march2025 Examples.scenarioTimeline = 1%Z.
Proof. reflexivity. Qed.

Section Closest.
Variable getTime : string → option Z.
Variable todayValue : Z.


Lemma closest_nearest items : ∀ i current minDiff,
  (closestFrom getTime todayValue i items current minDiff = current
   ∧ Forall (λ b, ∃ least, minDiff = Some least
                  ∧ (least ≤ Z.abs (b - todayValue))%Z) (dayValues getTime items))
  ∨ (∃ j item a,
       closestFrom getTime todayValue i items current minDiff = (i + j)%nat
       ∧ items !! j = Some item ∧ getTime (date item) = Some a
       ∧ Forall (λ b, (Z.abs (a - todayValue) ≤ Z.abs (b - todayValue))%Z)
           (dayValues getTime items)
       ∧ (∀ k other b, (k < j)%nat → items !! k = Some other →
            getTime (date other) = Some b →
            (Z.abs (a - todayValue) < Z.abs (b - todayValue))%Z)
       ∧ (∀ least, minDiff = Some least → (Z.abs (a - todayValue) < least)%Z)).
Proof.
  induction items as [|item rest IH]; intros i current minDiff.
  - left. split; [done|constructor].
  - unfold dayValues. cbn [closestFrom omap list_omap]. fold (dayValues getTime rest).
    destruct (getTime (date item)) as [v|] eqn:Hv.
    2: { destruct (IH (S i) current minDiff)
           as [?|(j & g & a & Hr & Hj & Ha & Hall & Hfirst & Hlt)]; [by left|].
         right. exists (S j), g, a. split_and!; try done.
         - rewrite Hr. lia.
         - intros k other b Hk Hother Hb. destruct k as [|k].
           + cbn in Hother. injection Hother as <-. congruence.
           + apply (Hfirst k other b); [lia|done|done]. }
    set (diff := Z.abs (v - todayValue)).
    assert (Hcases :
      (match minDiff with Some least => (diff <? least)%Z | None => true end) = true
      ∨ ∃ least, minDiff = Some least ∧ (least ≤ diff)%Z).
    { destruct minDiff as [least|]; [|by left].
      destruct (Z.ltb_spec diff least); [by left|right; by exists least]. }
    destruct Hcases as [Hbelow|(least & -> & Hleast)].
    + rewrite Hbelow.
      destruct (IH (S i) i (Some diff))
        as [[Hr Hall]|(j & g & a & Hr & Hj & Ha & Hall & Hfirst & Hlt)].
      * right. exists 0%nat, item, v. rewrite Hr, Nat.add_0_r.
        split_and!; try done.
        -- constructor; [done|]. eapply Forall_impl; [exact Hall|].
           intros b (m & [= <-] & Hb). done.
        -- intros k other b Hk. lia.
        -- intros least ->. by apply Z.ltb_lt in Hbelow.
      * right. exists (S j), g, a. specialize (Hlt _ eq_refl).
        split_and!; try done.
        -- rewrite Hr. lia.
        -- constructor; [fold diff; lia|done].
        -- intros k other b Hk Hother Hb. destruct k as [|k].
           ++ cbn in Hother. injection Hother as <-.
              rewrite Hv in Hb. injection Hb as <-. done.
           ++ apply (Hfirst k other b); [lia|done|done].
        -- intros least ->. apply Z.ltb_lt in Hbelow. lia.
    + destruct (Z.ltb_spec diff least) as [|_]; [lia|].
      destruct (IH (S i) current (Some least))
        as [[Hr Hall]|(j & g & a & Hr & Hj & Ha & Hall & Hfirst & Hlt)].
      * left. split; [done|]. constructor; [by exists least|done].
      * right. exists (S j), g, a. specialize (Hlt _ eq_refl).
        split_and!; try done.
        -- rewrite Hr. lia.
        -- constructor; [fold diff; lia|done].
        -- intros k other b Hk Hother Hb. destruct k as [|k].
           ++ cbn in Hother. injection Hother as <-.
              rewrite Hv in Hb. injection Hb as <-. fold diff. lia.
           ++ apply (Hfirst k other b); [lia|done|done].
        -- intros m [= <-]. done.
Qed.

(** X21. The first version of the jump, which compares every item: whatever
    the order of the sequence, the index it finds is that of an item nearest
    to today, and the first of these; it stays 0 when no date can be read. *)
Theorem closestIndex_nearest timeline :
  (dayValues getTime timeline = [] ∧ closestIndex getTime todayValue timeline = 0%nat)
  ∨ (∃ item a,
       timeline !! closestIndex getTime todayValue timeline = Some item
       ∧ getTime (date item) = Some a
       ∧ (∀ b, b ∈ dayValues getTime timeline →
            (Z.abs (a - todayValue) ≤ Z.abs (b - todayValue))%Z)
       ∧ (∀ k other b, (k < closestIndex getTime todayValue timeline)%nat →
            timeline !! k = Some other → getTime (date other) = Some b →
            (Z.abs (a - todayValue) < Z.abs (b - todayValue))%Z)).
Proof.
  unfold closestIndex.
  destruct (closest_nearest timeline 0 0%nat None)
    as [[Hr Hall]|(j & g & a & Hr & Hj & Ha & Hall & Hfirst & _)].
  - left. split; [|done]. destruct (dayValues getTime timeline) as [|b l]; [done|].
    apply Forall_inv in Hall as (least & Hnone & _). done.
  - right. exists g, a. rewrite Hr. cbn [Nat.add].
    split_and!; try done. by apply Forall_forall.
Qed.

End Closest.

End TodayFacts.

(** ** The anchor of a language switch *)
Module AnchorFacts.
Import Layout LayoutFacts WindowFacts IndexFacts LanguageAnchor.
Local Open Scope Q_scope.

Lemma languageAnchorEffect_fires view el pending :
  av_timelineLength view ≠ 0%nat → av_scrollRef view = Some el →
  (0 < anchor_remaining pending)%Z →
  av_measureVersion view ≠ anchor_lastMeasureVersion pending →
  languageAnchorEffect view (Some pending)
  = {| pendingLanguageAnchorRef :=
         Some {| anchor_index := anchor_index pending;
                 centerDelta := centerDelta pending;
                 anchor_remaining := (anchor_remaining pending - 1)%Z;
                 anchor_lastMeasureVersion := av_measureVersion view |};
       anchoredTo := Some (anchorTarget view el pending) |}.
Proof.
  intros Hlen Hel Hrem Hver. unfold languageAnchorEffect. rewrite Hel.
  destruct (Nat.eqb_spec (av_timelineLength view) 0); [done|].
  destruct (Z.leb_spec (anchor_remaining pending) 0); [lia|].
  destruct (Z.eqb_spec (av_measureVersion view) (anchor_lastMeasureVersion pending));
    done.
Qed.

(** X22. A language switch records the item under the centre of the viewport
    and how far below the top of that item the centre is. The next run of the
    layout effect at a new epoch moves the scroll offset to where the top of
    that item is again that far above the centre, within the scroll range;
    when the range allows it the distance is restored exactly. *)
Theorem toggleLanguage_anchors count heights scrollTop viewportHeight version pendingRef :
  positiveHeights heights → (0 < count)%nat →
  0 <= scrollTop + viewportHeight / 2 →
  ∃ anchor itemTop,
    toggleLanguage count (offsets count heights) scrollTop viewportHeight version
      pendingRef = Some anchor
    ∧ (anchor_index anchor < count)%nat
    ∧ offsets count heights !! anchor_index anchor = Some itemTop
    ∧ centerDelta anchor == scrollTop + viewportHeight / 2 - itemTop
    ∧ 0 <= centerDelta anchor
    ∧ (scrollTop + viewportHeight / 2 < totalHeight (offsets count heights) →
       centerDelta anchor < getItemHeight heights (anchor_index anchor) + ITEM_GAP)
    ∧ anchor_remaining anchor = 6%Z
    ∧ anchor_lastMeasureVersion anchor = version
    ∧ ∀ view el,
        av_timelineLength view ≠ 0%nat → av_scrollRef view = Some el →
        av_measureVersion view ≠ version →
        ∃ forced,
          anchoredTo (languageAnchorEffect view (Some anchor)) = Some forced
          ∧ isClampOf 0
              (Qmax 0 (totalHeight (av_offsets view) - clientHeight el))
              (default 0 (av_offsets view !! anchor_index anchor)
               + centerDelta anchor - av_viewportHeight view / 2)
              forced
          ∧ (0 <= default 0 (av_offsets view !! anchor_index anchor)
                  + centerDelta anchor - av_viewportHeight view / 2
             ∧ default 0 (av_offsets view !! anchor_index anchor)
               + centerDelta anchor - av_viewportHeight view / 2
               <= totalHeight (av_offsets view) - clientHeight el →
             forced + av_viewportHeight view / 2
             - default 0 (av_offsets view !! anchor_index anchor)
             == centerDelta anchor).
Proof.
  intros Hpos Hcount Hcentre.
  set (centre := scrollTop + viewportHeight / 2) in *.
  destruct (findIndexForOffset_item count heights centre Hpos Hcount)
    as (Hlt & _ & Hlo & Hhi & _).
  destruct (Hlo Hcentre) as (a & Ha & Hle).
  unfold toggleLanguage. destruct (Nat.eqb_spec count 0); [lia|].
  fold centre. rewrite Ha. change (default 0 (Some a)) with a.
  eexists _, a. split; [reflexivity|].
  cbn [anchor_index centerDelta anchor_remaining anchor_lastMeasureVersion].
  split_and!; try done.
  - lra.
  - intros Hx. destruct (Hhi Hx) as (b & Hb & Hxb).
    destruct (offsets_step count heights
                (findIndexForOffset (offsets count heights) centre) Hlt)
      as (a' & Ha' & HSa').
    rewrite Ha in Ha'. injection Ha' as <-. rewrite Hb in HSa'.
    injection HSa' as ->.
    assert (Hgap : (if (findIndexForOffset (offsets count heights) centre
                        =? count - 1)%nat then 0 else ITEM_GAP) <= ITEM_GAP).
    { case_match; [by vm_compute|lra]. }
    lra.
  - intros view el Hlen Hel Hver.
    rewrite (languageAnchorEffect_fires view el); [|done|done|cbn; lia|done].
    cbn [anchoredTo]. eexists. split; [reflexivity|].
    unfold anchorTarget. cbn [anchor_index centerDelta].
    set (target := default 0 (av_offsets view !! _) + _ - _).
    set (hi := Qmax 0 _).
    assert (Hhi0 : 0 <= hi) by apply Q.le_max_l.
    pose proof (clamp_isClampOf 0 hi target Hhi0) as Hclamp.
    split; [exact Hclamp|].
    intros [H0 Hmax]. destruct Hclamp as (_ & _ & _ & Hin).
    assert (Hrange : 0 <= target ∧ target <= hi).
    { split; [done|]. unfold hi.
      eapply Qle_trans; [exact Hmax|apply Q.le_max_r]. }
    specialize (Hin Hrange). rewrite Hin. unfold target. lra.
Qed.

Lemma toggleLanguage_anchors_witness :
  ∃ anchor itemTop,
    toggleLanguage 3 (offsets 3 ∅) 100 600 1 None = Some anchor
    ∧ (anchor_index anchor < 3)%nat
    ∧ offsets 3 ∅ !! anchor_index anchor = Some itemTop
    ∧ centerDelta anchor == 100 + 600 / 2 - itemTop
    ∧ 0 <= centerDelta anchor.
Proof.
  destruct (toggleLanguage_anchors 3 ∅ 100 600 1 None)
    as (anchor & itemTop & Hreg & Hlt & Htop & Hdelta & Hpos & _).
  - apply map_Forall_empty.
  - lia.
  - vm_compute. discriminate.
  - by exists anchor, itemTop.
Defined.

Lemma runAnchorEffect_cons view views pendingRef :
  runAnchorEffect (view :: views) pendingRef
  = ((runAnchorEffect views
        (pendingLanguageAnchorRef (languageAnchorEffect view pendingRef))).1,
     match anchoredTo (languageAnchorEffect view pendingRef) with
     | Some o =>
         o :: (runAnchorEffect views
                 (pendingLanguageAnchorRef (languageAnchorEffect view pendingRef))).2
     | None =>
         (runAnchorEffect views
            (pendingLanguageAnchorRef (languageAnchorEffect view pendingRef))).2
     end).
Proof.
  cbn [runAnchorEffect].
  by destruct (runAnchorEffect views _).
Qed.

Lemma runAnchorEffect_none views : runAnchorEffect views None = (None, []).
Proof.
  induction views as [|view views IH]; [done|].
  rewrite runAnchorEffect_cons. cbn. by rewrite IH.
Qed.

Lemma languageAnchorEffect_cases view pending :
  (languageAnchorEffect view (Some pending)
   = {| pendingLanguageAnchorRef := None; anchoredTo := None |})
  ∨ (languageAnchorEffect view (Some pending)
     = {| pendingLanguageAnchorRef := Some pending; anchoredTo := None |})
  ∨ (∃ el, av_scrollRef view = Some el
       ∧ (0 < anchor_remaining pending)%Z
       ∧ av_measureVersion view ≠ anchor_lastMeasureVersion pending
       ∧ languageAnchorEffect view (Some pending)
         = {| pendingLanguageAnchorRef :=
                Some {| anchor_index := anchor_index pending;
                        centerDelta := centerDelta pending;
                        anchor_remaining := (anchor_remaining pending - 1)%Z;
                        anchor_lastMeasureVersion := av_measureVersion view |};
              anchoredTo := Some (anchorTarget view el pending) |}).
Proof.
  unfold languageAnchorEffect.
  destruct (av_scrollRef view) as [el|]; [|right; by left].
  destruct (Nat.eqb_spec (av_timelineLength view) 0); [by left|].
  destruct (Z.leb_spec (anchor_remaining pending) 0); [by left|].
  destruct (Z.eqb_spec (av_measureVersion view) (anchor_lastMeasureVersion pending));
    [right; by left|].
  right. right. by exists el.
Qed.

(** X23. A language switch is corrected a bounded number of times. Over any
    sequence of renders the effect forces the scroll offset at most as often
    as the request has attempts left, which is 6 at the switch; each forcing
    spends one attempt and keeps the anchored item and its distance; and
    nothing is forced as long as the epoch is the one the request has seen. *)
Theorem languageAnchor_budget views pending :
  (length (runAnchorEffect views (Some pending)).2
   ≤ Z.to_nat (anchor_remaining pending))%nat
  ∧ (∀ final, (runAnchorEffect views (Some pending)).1 = Some final →
       anchor_remaining final
       = (anchor_remaining pending
          - Z.of_nat (length (runAnchorEffect views (Some pending)).2))%Z
       ∧ anchor_index final = anchor_index pending
       ∧ centerDelta final = centerDelta pending)
  ∧ (Forall (λ view, av_measureVersion view = anchor_lastMeasureVersion pending) views →
     (runAnchorEffect views (Some pending)).2 = []).
Proof.
  revert pending. induction views as [|view views IH]; intros pending.
  - cbn. split_and!; [lia| |done]. intros final [= <-]. split_and!; [lia|done|done].
  - rewrite runAnchorEffect_cons.
    destruct (languageAnchorEffect_cases view pending)
      as [->|[->|(el & Hel & Hrem & Hver & ->)]];
      cbn [pendingLanguageAnchorRef anchoredTo fst snd].
    + rewrite runAnchorEffect_none. cbn. split_and!; [lia|done|done].
    + destruct (IH pending) as (Hlen & Hfinal & Hsame).
      split_and!; [done|done|]. intros Hall. apply Hsame. by inversion Hall.
    + destruct (IH {| anchor_index := anchor_index pending;
                      centerDelta := centerDelta pending;
                      anchor_remaining := (anchor_remaining pending - 1)%Z;
                      anchor_lastMeasureVersion := av_measureVersion view |})
        as (Hlen & Hfinal & _).
      cbn [anchor_remaining anchor_index centerDelta] in Hlen, Hfinal.
      split_and!.
      * cbn [length]. lia.
      * intros final Hf. destruct (Hfinal final Hf) as (Hr & Hi & Hc).
        split_and!; [|done|done]. rewrite Hr. cbn [length]. lia.
      * intros Hall. apply Forall_inv in Hall. done.
Qed.

End AnchorFacts.

(** ** The platform filter *)
Module FilterFacts.
Import Timeline Filters.

Lemma matchesPlatformFilter_spec selected gamePlatforms :
  matchesPlatformFilter selected gamePlatforms = true
  ↔ selected = [] ∨ ∃ p, p ∈ gamePlatforms ∧ p ∈ selected.
Proof.
  unfold matchesPlatformFilter. destruct selected as [|key rest].
  - cbn. split; [by left|done].
  - cbn [length Nat.eqb]. rewrite existsb_exists. split.
    + intros (p & Hin & Hp). right. exists p.
      apply bool_decide_eq_true in Hp. split; [by apply list_elem_of_In|done].
    + intros [|(p & Hin & Hp)]; [done|]. exists p.
      split; [by apply list_elem_of_In|by apply bool_decide_eq_true].
Qed.

Lemma togglePlatform_elem platform prev key :
  key ∈ togglePlatform platform prev
  ↔ (key = platform ∧ platform ∉ prev) ∨ (key ≠ platform ∧ key ∈ prev).
Proof.
  unfold togglePlatform. case_bool_decide as Hin.
  - rewrite list_elem_of_filter. split.
    + intros [Hne Hk]. by right.
    + intros [[-> Hnot]|[Hne Hk]]; [done|by split].
  - rewrite elem_of_app, list_elem_of_singleton. split.
    + intros [Hk| ->]; [|by left]. right. split; [|done]. by intros ->.
    + intros [[-> _]|[_ Hk]]; [by right|by left].
Qed.

Lemma filterGames_same selected selected' games :
  (∀ key, key ∈ selected ↔ key ∈ selected') →
  filterGames selected games = filterGames selected' games.
Proof.
  intros Hsame.
  unfold filterGames.
  destruct selected as [|k l], selected' as [|k' l']; try done.
  - assert (Hk : k' ∈ []) by (apply Hsame; left). by apply elem_of_nil in Hk.
  - assert (Hk : k ∈ []) by (apply Hsame; left). by apply elem_of_nil in Hk.
  - cbn [length Nat.eqb]. apply list_filter_iff. intros game.
    rewrite !matchesPlatformFilter_spec. split.
    + intros [|(p & Hp & Hin)]; [done|]. right. exists p. split; [done|by apply Hsame].
    + intros [|(p & Hp & Hin)]; [done|]. right. exists p. split; [done|by apply Hsame].
Qed.

(** X24. What the filter shows: with no platform selected every game, else the
    games that are on a selected platform, in their order. Toggling a platform
    twice gives the selection back, so the same games are shown; and a
    selection stays free of repeated keys. *)
Theorem platform_filter selected games platform :
  (∀ game, game ∈ filterGames selected games
           ↔ game ∈ games
             ∧ (selected = [] ∨ ∃ p, p ∈ platforms game ∧ p ∈ selected))
  ∧ filterGames selected games `sublist_of` games
  ∧ (∀ key, key ∈ togglePlatform platform (togglePlatform platform selected)
            ↔ key ∈ selected)
  ∧ filterGames (togglePlatform platform (togglePlatform platform selected)) games
    = filterGames selected games
  ∧ (platform ∈ togglePlatform platform selected ↔ platform ∉ selected)
  ∧ (NoDup selected → NoDup (togglePlatform platform selected)).
Proof.
  assert (Htwice : ∀ key,
    key ∈ togglePlatform platform (togglePlatform platform selected)
    ↔ key ∈ selected).
  { intros key. rewrite !togglePlatform_elem.
    destruct (decide (key = platform)) as [->|Hne].
    - destruct (decide (platform ∈ selected)) as [Hin|Hnot]; split; try tauto.
    - split; [|tauto]. intros [[? _]|[_ [[? _]|[_ ?]]]]; done. }
  split_and!.
  - intros game. unfold filterGames. destruct selected as [|k l].
    + cbn. split; [by split; [|left]|by intros [? _]].
    + cbn [length Nat.eqb]. rewrite list_elem_of_filter, matchesPlatformFilter_spec.
      tauto.
  - unfold filterGames. case_match; [done|apply sublist_filter].
  - exact Htwice.
  - by apply filterGames_same.
  - rewrite togglePlatform_elem. tauto.
  - intros Hnd. unfold togglePlatform. case_bool_decide as Hin.
    + by apply NoDup_filter.
    + apply NoDup_app. split_and!; [done| |apply NoDup_singleton].
      intros key Hk Hk'. apply list_elem_of_singleton in Hk'. by subst.
Qed.

End FilterFacts.

(** ** Scroll events, and the view across a prepended page *)
Module ScrollFacts.
Import Timeline TimelineFacts Layout LayoutFacts WindowFacts.
Import Pagination PaginationFacts LoadFacts.
Local Open Scope Q_scope.

Section Scrolled.
Variable getTime : string → option Z.

Lemma run_app events events' sys :
  run getTime (events ++ events') sys = run getTime events' (run getTime events sys).
Proof. unfold run. by rewrite foldl_app. Qed.

Lemma run_scrolls positions sys :
  paging (st (run getTime (EvScroll <$> positions) sys)) = paging (st sys)
  ∧ metrics (st (run getTime (EvScroll <$> positions) sys)) = metrics (st sys)
  ∧ viewportHeight (scrolling (st (run getTime (EvScroll <$> positions) sys)))
    = viewportHeight (scrolling (st sys))
  ∧ inFlight (run getTime (EvScroll <$> positions) sys) = inFlight sys.
Proof.
  revert sys. induction positions as [|p positions IH]; intros sys; [done|].
  rewrite fmap_cons. unfold run. cbn [foldl].
  fold (run getTime (EvScroll <$> positions) (step getTime (EvScroll p) sys)).
  destruct (IH (step getTime (EvScroll p) sys)) as (-> & -> & -> & ->). done.
Qed.

(** X25. Scroll events are coalesced. However many scroll events arrive before
    the animation frame, the frame commits the position of the last one as the
    scroll offset, no frame is left scheduled, and neither the pages, the
    measurements nor the fetches in flight are touched. *)
Theorem scroll_events_coalesce positions last sys :
  let sys' := run getTime ((EvScroll <$> positions) ++ [EvScroll last; EvScrollFrame])
                sys in
  scrollTop (scrolling (st sys')) = last
  ∧ el_scrollTop (scrollEl (scrolling (st sys'))) = last
  ∧ lastScrollTopRef (scrolling (st sys')) == last
  ∧ scrollRafRef (scrolling (st sys')) = false
  ∧ step getTime EvScrollFrame sys' = sys'
  ∧ paging (st sys') = paging (st sys)
  ∧ metrics (st sys') = metrics (st sys)
  ∧ inFlight sys' = inFlight sys.
Proof.
  intros sys'. unfold sys'. rewrite run_app.
  destruct (run_scrolls positions sys) as (Hp & Hm & _ & Hf).
  set (mid := run getTime (EvScroll <$> positions) sys) in *.
  unfold run. cbn [foldl step onState st inFlight].
  unfold scrollFrame, handleScroll.
  cbn [withScrolling scrolling scrollRafRef pendingScrollTopRef scrollTop scrollEl
       el_scrollTop lastScrollTopRef paging metrics default from_option].
  split_and!; try done.
  destruct (Qeq_bool last (lastScrollTopRef (scrolling (st mid)))) eqn:E;
    cbn [negb]; [|reflexivity].
  apply Qeq_bool_iff in E. by symmetry.
Qed.

End Scrolled.

Section Prepended.
Variable getTime : string → option Z.

(** X26. The view across a prepended page. A page of new, distinct, older
    dates arrives as the previous year while no shift is pending and the
    scroll offset is within the range of the offset table of the height cache.
    Once the layout effect has applied the pending shift, every item of the
    sequence is as far from the scroll offset as that table put it before: the
    page went in above the view without moving what is seen, as long as the
    new items have their estimated height. *)
Theorem prepend_keeps_view year entries s :
  NoDup (date <$> timeline (paging s)) →
  inOrder getTime (timeline (paging s)) →
  NoDup (date <$> entries) →
  olderPage getTime entries (timeline (paging s)) →
  timeline (paging s) ≠ [] → entries ≠ [] →
  pendingScrollShiftRef (metrics s) == 0 →
  0 <= el_scrollTop (scrollEl (scrolling s)) →
  el_scrollTop (scrollEl (scrolling s))
  <= totalHeight (Layout.offsets (length (timeline (paging s))) (heightsRef (metrics s)))
     - clientHeight (scrollEl (scrolling s)) →
  let s' := applyPendingScrollShift (settleOk getTime year Prev entries s) in
  (∀ i item a,
     timeline (paging s) !! i = Some item →
     Layout.offsets (length (timeline (paging s))) (heightsRef (metrics s)) !! i = Some a →
     ∃ a', timeline (paging s') !! (length entries + i)%nat = Some item
           ∧ offsets (metrics s') !! (length entries + i)%nat = Some a'
           ∧ a' - scrollTop (scrolling s')
             == a - el_scrollTop (scrollEl (scrolling s)))
  ∧ el_scrollTop (scrollEl (scrolling s')) = scrollTop (scrolling s')
  ∧ pendingScrollShiftRef (metrics s') = 0.
Proof.
  intros Hnd Hord Hpage Hold Hne Hentries Hzero Hlow Hhigh s'.
  set (n := length entries). set (count := length (timeline (paging s))) in *.
  set (heights := heightsRef (metrics s)) in *.
  set (shift := inject_Z (Z.of_nat n) * (ESTIMATED_ITEM_HEIGHT + ITEM_GAP)).
  assert (Hn : (0 < n)%nat) by (unfold n; destruct entries; [done|cbn; lia]).
  assert (Hcount : (0 < count)%nat).
  { unfold count. destruct (timeline (paging s)); [done|cbn; lia]. }
  assert (Hshiftpos : 0 < shift).
  { unfold shift. apply Qmult_lt_0_compat; [|by vm_compute].
    replace 0 with (inject_Z 0) by done. rewrite <- Zlt_Qlt. lia. }
  assert (Hmerge : timeline (paging (settleOk getTime year Prev entries s))
                   = sortByDate getTime (created <$> entries) ++ timeline (paging s)).
  { rewrite settleOk_timeline. by apply mergeTimeline_prepend. }
  assert (Hlen : length (timeline (paging (settleOk getTime year Prev entries s)))
                 = (n + count)%nat).
  { rewrite Hmerge, length_app.
    rewrite (Permutation_length (sortByDate_Permutation getTime _)), length_fmap.
    done. }
  assert (Hoffs : offsets (metrics (settleOk getTime year Prev entries s))
                  = Layout.offsets (n + count) (shiftHeights n heights)).
  { rewrite <- Hlen. unfold settleOk.
    cbn [metrics paging recomputeOffsets offsets heightsRef setLoading setError
         setTimelineAndYears timeline].
    fold n. destruct n; [lia|]. done. }
  assert (Hpending : pendingScrollShiftRef (metrics (settleOk getTime year Prev entries s))
                     == shift).
  { unfold settleOk. cbn [metrics recomputeOffsets pendingScrollShiftRef].
    fold n. destruct n as [|n'] eqn:En; [lia|].
    cbn [pendingScrollShiftRef]. rewrite Hzero. unfold estimateAddedHeight.
    destruct (Z.leb_spec (Z.of_nat (S n')) 0); [lia|]. unfold shift. lra. }
  destruct (offsets_shifted n count heights count
              (totalHeight (Layout.offsets count heights)) Hcount (le_n _)
              (totalHeight_offsets _ _)) as (total' & Htotal' & Htotalval).
  assert (Htotal : totalHeight (Layout.offsets (n + count) (shiftHeights n heights))
                   == shift + totalHeight (Layout.offsets count heights)).
  { pose proof (totalHeight_offsets (n + count) (shiftHeights n heights)) as Ht.
    rewrite Htotal' in Ht. injection Ht as <-. exact Htotalval. }
  set (s1 := settleOk getTime year Prev entries s) in *.
  assert (Hel : scrolling s1 = scrolling s) by done.
  assert (Hfire : Qeq_bool (pendingScrollShiftRef (metrics s1)) 0 = false).
  { destruct (Qeq_bool (pendingScrollShiftRef (metrics s1)) 0) eqn:E; [|done].
    apply Qeq_bool_iff in E. rewrite Hpending in E. lra. }
  set (el := el_scrollTop (scrollEl (scrolling s))) in *.
  assert (Hclamp : scrollTop (scrolling s') == el + shift).
  { unfold s', applyPendingScrollShift. rewrite Hfire.
    cbn [scrolling scrollTop]. rewrite Hel, Hoffs. fold el.
    set (hi := Qmax 0 _).
    assert (Hhi0 : 0 <= hi) by apply Q.le_max_l.
    destruct (clamp_isClampOf 0 hi (el + pendingScrollShiftRef (metrics s1)) Hhi0)
      as (_ & _ & _ & Hin).
    rewrite Hin; [by rewrite Hpending|].
    split; [rewrite Hpending; lra|].
    eapply Qle_trans; [|apply Q.le_max_r]. rewrite Htotal, Hpending. lra. }
  split_and!.
  - intros i item a Hitem Ha.
    assert (Hi : (i ≤ count)%nat).
    { apply lookup_lt_Some in Hitem. unfold count. lia. }
    destruct (offsets_shifted n count heights i a Hcount Hi Ha) as (a' & Ha' & Hval).
    exists a'. split_and!.
    + unfold s', applyPendingScrollShift. rewrite Hfire.
      cbn [paging setIsTransitioning timeline]. rewrite Hmerge.
      rewrite lookup_app_r.
      * rewrite (Permutation_length (sortByDate_Permutation getTime _)), length_fmap.
        fold n. by replace (n + i - n)%nat with i by lia.
      * rewrite (Permutation_length (sortByDate_Permutation getTime _)), length_fmap.
        fold n. lia.
    + unfold s', applyPendingScrollShift. rewrite Hfire.
      cbn [metrics offsets]. by rewrite Hoffs.
    + rewrite Hclamp, Hval. unfold shift, ESTIMATED_ITEM_HEIGHT, ITEM_GAP. lra.
  - unfold s', applyPendingScrollShift. by rewrite Hfire.
  - unfold s', applyPendingScrollShift. by rewrite Hfire.
Qed.

End Prepended.

(** The scenario: the page of 2023 arrives while the list is scrolled to
    200px; the first item of the sequence, at offset 0, is 200px above the
    scroll offset before and after. *)
Lemma prepend_keeps_view_witness :
  let s' := applyPendingScrollShift
              (settleOk IsoDate.getTime 2023 Prev Examples.page2023
                 Examples.scenarioState) in
  (∃ a', offsets (metrics s') !! 2%nat = Some a'
         ∧ a' - scrollTop (scrolling s') == 0 - 200)
  ∧ pendingScrollShiftRef (metrics s') = 0.
Proof.
  destruct (prepend_keeps_view IsoDate.getTime 2023 Examples.page2023
              Examples.scenarioState) as (Hitems & _ & Hshift).
  - apply (bool_decide_unpack _). vm_compute. exact I.
  - unfold inOrder. apply (bool_decide_unpack _). vm_compute. exact I.
  - apply (bool_decide_unpack _). vm_compute. exact I.
  - unfold olderPage. apply (bool_decide_unpack _). vm_compute. exact I.
  - discriminate.
  - discriminate.
  - reflexivity.
  - vm_compute. discriminate.
  - vm_compute. discriminate.
  - split; [|exact Hshift].
    destruct (Hitems 0%nat (Examples.plainGroup "2024-12-30" [Examples.gameA]) 0)
      as (a' & _ & Ha' & Hrel); [reflexivity|reflexivity|].
    exists a'. split; [exact Ha'|exact Hrel].
Defined.

End ScrollFacts.

(** ** The list-library variant: virtual indices across a load *)
Module VirtualFacts.
Import Timeline TimelineFacts MergeClaims VirtualList.

Lemma loadPrevUpdate_eq current entries prev :
  data (loadPrevUpdate current entries prev) = newItemsOf current entries ++ data prev
  ∧ firstItemIndex (loadPrevUpdate current entries prev)
    = (firstItemIndex prev - Z.of_nat (length (newItemsOf current entries)))%Z.
Proof.
  unfold loadPrevUpdate. destruct (newItemsOf current entries); [|done].
  cbn. split; [done|lia].
Qed.

Lemma loadNextUpdate_eq current entries prev :
  data (loadNextUpdate current entries prev) = data prev ++ newItemsOf current entries
  ∧ firstItemIndex (loadNextUpdate current entries prev) = firstItemIndex prev.
Proof.
  unfold loadNextUpdate. destruct (newItemsOf current entries); [|done].
  cbn. by rewrite app_nil_r.
Qed.

(** X27. In the list-library variant a page changes no virtual index. After
    [loadPrev] has put the new items in front and lowered the first virtual
    index by their number, and after [loadNext] has put them behind, every
    virtual index that stood for an item stands for the same item; the array
    index [loadPrev] scrolls back to is that of the item that was first
    visible; and the items [loadPrev] adds are exactly the incoming ones whose
    date the sequence does not hold. *)
Theorem loads_keep_virtual_indices current entries prev virtualIndex item :
  itemAt virtualIndex prev = Some item →
  itemAt virtualIndex (loadPrevUpdate current entries prev) = Some item
  ∧ itemAt virtualIndex (loadNextUpdate current entries prev) = Some item
  ∧ data (loadPrevUpdate current entries prev)
      !! Z.to_nat (newArrayIndex (arrayIndex virtualIndex prev)
                     (newItemsOf current entries)) = Some item
  ∧ (∀ group, group ∈ data (loadPrevUpdate current entries prev)
              ↔ (group ∈ entries ∧ date group ∉ date <$> current)
                ∨ group ∈ data prev).
Proof.
  unfold itemAt, arrayIndex, newArrayIndex. intros Hitem.
  destruct (Z.ltb_spec (virtualIndex - firstItemIndex prev) 0) as [|Hge]; [done|].
  destruct (loadPrevUpdate_eq current entries prev) as [Hd Hf].
  destruct (loadNextUpdate_eq current entries prev) as [Hd' Hf'].
  rewrite Hd, Hf, Hd', Hf'.
  set (n := length (newItemsOf current entries)).
  assert (Hshift : Z.to_nat (virtualIndex - (firstItemIndex prev - Z.of_nat n))
                   = (n + Z.to_nat (virtualIndex - firstItemIndex prev))%nat) by lia.
  split_and!.
  - destruct (Z.ltb_spec (virtualIndex - (firstItemIndex prev - Z.of_nat n)) 0); [lia|].
    rewrite Hshift, lookup_app_r by (fold n; lia).
    fold n.
    by replace (n + _ - n)%nat
      with (Z.to_nat (virtualIndex - firstItemIndex prev)) by lia.
  - destruct (Z.ltb_spec (virtualIndex - firstItemIndex prev) 0); [lia|].
    by apply lookup_app_l_Some.
  - replace (Z.to_nat (virtualIndex - firstItemIndex prev + Z.of_nat n))
      with (n + Z.to_nat (virtualIndex - firstItemIndex prev))%nat by lia.
    rewrite lookup_app_r by (fold n; lia).
    fold n.
    by replace (n + _ - n)%nat
      with (Z.to_nat (virtualIndex - firstItemIndex prev)) by lia.
  - intros group. by rewrite elem_of_app, newItemsOf_elem.
Qed.

Lemma loads_keep_virtual_indices_witness :
  itemAt 100001 (loadPrevUpdate Examples.scenarioTimeline Examples.page2023
                   {| data := Examples.scenarioTimeline;
                      firstItemIndex := INITIAL_FIRST_ITEM_INDEX |})
  = Some (Examples.plainGroup "2025-01-02" [Examples.gameB]).
Proof.
  apply (loads_keep_virtual_indices Examples.scenarioTimeline Examples.page2023
           {| data := Examples.scenarioTimeline;
              firstItemIndex := INITIAL_FIRST_ITEM_INDEX |} 100001).
  reflexivity.
Defined.

End VirtualFacts.

(** ** When a page is fetched *)
Module TriggerFacts.
Import Timeline TimelineFacts Layout LayoutFacts Pagination PaginationFacts LoadFacts.
Import Invariants YearFacts.
Local Open Scope Q_scope.

Section Triggers.
Variable getTime : string → option Z.

Lemma step_quiet ev sys :
  isInteraction ev = false → canAutoLoad (paging (st sys)) = false →
  canAutoLoad (paging (st (step getTime ev sys))) = false
  ∧ (∀ f, f ∈ inFlight (step getTime ev sys) → f ∈ inFlight sys)
  ∧ (inFlight sys = [] →
     timeline (paging (st (step getTime ev sys))) = timeline (paging (st sys))
     ∧ loadedYears (paging (st (step getTime ev sys))) = loadedYears (paging (st sys))).
Proof.
  intros Hev Hauto. destruct ev; try done; cbn [step onState st inFlight];
    try solve [ unfold scrollFrame, measure, measureFrame, applyPendingScrollShift;
                repeat case_match; by split_and! ].
  - unfold edgeLoadEffect, edgeGuard. rewrite Hauto, andb_false_r. by split_and!.
  - unfold settle. case_bool_decide as Hin; [|by split_and!]. cbn [st inFlight].
    destruct (applyQueued_fields (queued sys) (st sys)) as (_ & _ & _ & _ & Hc & _).
    split_and!.
    + rewrite <- Hauto, <- Hc. destruct result; by destruct d.
    + intros f. apply removeFetch_elem.
    + intros Hnone. rewrite Hnone in Hin. by apply elem_of_nil in Hin.
  - cbn [render st inFlight].
    destruct (applyQueued_fields (queued sys) (st sys)) as (-> & _ & _ & -> & -> & _).
    by split_and!.
  - destruct (pendingSnapFlush_fields pending (st sys)) as (-> & _). by split_and!.
Qed.

(** X28. Nothing is loaded before the user touches the list. As long as no
    wheel, touch or pointer event has arrived, automatic loading stays off and
    no run of an edge-load effect starts a fetch, wherever the scroll offset
    is; with no fetch in flight the sequence and the loaded years stay as they
    are. *)
Theorem no_load_before_interaction events sys :
  canAutoLoad (paging (st sys)) = false →
  Forall (λ ev, isInteraction ev = false) events →
  canAutoLoad (paging (st (run getTime events sys))) = false
  ∧ (∀ f, f ∈ inFlight (run getTime events sys) → f ∈ inFlight sys)
  ∧ (inFlight sys = [] →
     inFlight (run getTime events sys) = []
     ∧ timeline (paging (st (run getTime events sys))) = timeline (paging (st sys))
     ∧ loadedYears (paging (st (run getTime events sys)))
       = loadedYears (paging (st sys))).
Proof.
  intros Hauto Hall. revert sys Hauto.
  induction Hall as [|ev events Hev Hall IH]; intros sys Hauto.
  - split_and!; done.
  - unfold run. cbn [foldl]. fold (run getTime events (step getTime ev sys)).
    destruct (step_quiet ev sys Hev Hauto) as (Hauto' & Hsub & Hsame).
    destruct (IH _ Hauto') as (Hauto'' & Hsub' & Hsame').
    split_and!; [done|auto|]. intros Hnone.
    assert (Hnone' : inFlight (step getTime ev sys) = []).
    { destruct (inFlight (step getTime ev sys)) as [|f fs]; [done|].
      specialize (Hsub f ltac:(left)). rewrite Hnone in Hsub.
      by apply elem_of_nil in Hsub. }
    destruct (Hsame Hnone) as [<- <-]. by apply Hsame'.
Qed.





End Triggers.

Lemma no_load_before_interaction_witness :
  let events := [EvScroll 100; EvScrollFrame; EvEdgeEffect Prev;
                 EvMeasure 0 280; EvMeasureFrame; EvEdgeEffect Prev] in
  canAutoLoad (paging (st (run IsoDate.getTime events Examples.scenarioSys))) = false
  ∧ inFlight (run IsoDate.getTime events Examples.scenarioSys) = [].
Proof.
  destruct (no_load_before_interaction IsoDate.getTime
              [EvScroll 100; EvScrollFrame; EvEdgeEffect Prev;
               EvMeasure 0 280; EvMeasureFrame; EvEdgeEffect Prev]
              Examples.scenarioSys) as (Hauto & _ & Hidle).
  - reflexivity.
  - repeat constructor.
  - split; [exact Hauto|]. by destruct Hidle.
Defined.


End TriggerFacts.
